(** * EstimationPy: the square-root unscented Kalman filter [ukfFMU]

    A shallow embedding of [UKFpython/src/ukf/ukfFMU.py] and the
    properties of its weight table, sigma-point generator, constraint
    clipping, mean and covariances, Cholesky update and smoother.

    Conventions of the embedding.
    - Numbers are real numbers ([R]): the arithmetic is exact.  Where the
      floating-point computation would leave the real numbers (a division
      by zero, the square root of a negative number: [ZeroDivisionError] on
      Python floats, [inf]/[nan] with a warning on numpy floats) the model
      stops with [NonFinite], so that nothing is stated about such values.
    - The hyperparameters are real numbers, as the Python floats of the
      defaults; integer arguments, which Python 2 would divide as integers,
      are not modelled.
    - A one-dimensional numpy array is a [list R], a two-dimensional one
      the list of its rows.
    - Python exceptions are the constructors of [exn]; a computation returns
      [Ok v] or [Raise e] together with the state it leaves behind. *)

From Stdlib Require Import Reals Lra Lia.
From stdpp Require Import base option list gmap strings.

Open Scope R_scope.

(** ** Exceptions and results *)

Inductive exn : Type :=
| Exception_      (* a plain [Exception] raised by the constructor *)
| IndexError
| ValueError
| TypeError
| NonFinite       (* the computation leaves the real numbers *)
| NoSuchObject.   (* a reference that names no array; cannot arise in Python *)

Inductive res (A : Type) : Type :=
| Ok (a : A)
| Raise (e : exn).
Arguments Ok {A} a.
Arguments Raise {A} e.

(** State and exceptions: the state survives an exception, as the mutations
    a Python function has made before it raises. *)
Definition M (S A : Type) : Type := S -> res A * S.

Definition ret {S A} (a : A) : M S A := fun s => (Ok a, s).
Definition raise {S A} (e : exn) : M S A := fun s => (Raise e, s).
Definition bind {S A B} (m : M S A) (f : A -> M S B) : M S B :=
  fun s => match m s with
           | (Ok a, s') => f a s'
           | (Raise e, s') => (Raise e, s')
           end.
Definition get {S} : M S S := fun s => (Ok s, s).
Definition put {S} (s : S) : M S unit := fun _ => (Ok tt, s).
Definition lift {S A} (r : res A) : M S A := fun s => (r, s).

(** [try: m except ValueError: h] *)
Definition catch_ValueError {S A} (m : M S A) (h : M S A) : M S A :=
  fun s => match m s with
           | (Raise ValueError, s') => h s'
           | r => r
           end.

Declare Scope py_scope.
Delimit Scope py_scope with py.
Notation "x <- m ;; f" := (bind m (fun x => f))
  (at level 100, m at next level, right associativity) : py_scope.
Notation "m ;;; f" := (bind m (fun _ => f))
  (at level 100, right associativity) : py_scope.
Open Scope py_scope.

(** [for i in l: s = body(i, s)] *)
Fixpoint for_each {S A B} (l : list B) (body : B -> A -> M S A) (a : A) : M S A :=
  match l with
  | [] => ret a
  | i :: l' => a' <- body i a ;; for_each l' body a'
  end.

(** [range(n)] *)
Definition range (n : nat) : list nat := seq 0 n.

(** ** Arithmetic that can leave the reals *)

Definition np_div (a b : R) : res R :=
  if Req_dec_T b 0 then Raise NonFinite else Ok (a / b).

Definition np_sqrt (a : R) : res R :=
  if Rlt_dec a 0 then Raise NonFinite else Ok (sqrt a).

(** [np.sign] *)
Definition np_sign (a : R) : R :=
  if Rlt_dec a 0 then -1 else if Rlt_dec 0 a then 1 else 0.

(** ** One-dimensional arrays *)

Abbreviation vec := (list R) (only parsing).
Abbreviation matrix := (list (list R)) (only parsing).

(** [v[i]] *)
Definition getitem {A} (v : list A) (i : nat) : res A :=
  match v !! i with
  | Some a => Ok a
  | None => Raise IndexError
  end.

(** [v[i] = a] *)
Definition setitem {A} (v : list A) (i : nat) (a : A) : res (list A) :=
  if decide (i < length v)%nat then Ok (<[i := a]> v) else Raise IndexError.

(** [v[a:b]] and [v[a:]]: slices never raise, they are cut to the array. *)
Definition slice (v : vec) (a b : nat) : vec := take (b - a) (drop a v).
Definition slice_from (v : vec) (a : nat) : vec := drop a v.

(** [c * v] *)
Definition scale (c : R) (v : vec) : vec := map (Rmult c) v.

(** [u op v] with numpy broadcasting of one-dimensional arrays. *)
Definition bcast2 (f : R -> R -> R) (u v : vec) : res vec :=
  if decide (length u = length v) then Ok (zip_with f u v)
  else match u, v with
       | [a], _ => Ok (map (f a) v)
       | _, [b] => Ok (map (fun a => f a b) u)
       | _, _ => Raise ValueError
       end.

(** [t op= w] and [t[...] = w]: the right-hand side is broadcast to the shape
    of the target [t]; [f old new] is the value stored. *)
Definition bcast_into (f : R -> R -> R) (t w : vec) : res vec :=
  if decide (length w = length t) then Ok (zip_with f t w)
  else match w with
       | [b] => Ok (map (fun a => f a b) t)
       | _ => Raise ValueError
       end.

(** [v[a:b] op= w] on a copy of [v]. *)
Definition slice_update (f : R -> R -> R) (v : vec) (a b : nat) (w : vec) : res vec :=
  match bcast_into f (slice v a b) w with
  | Ok t => Ok (take a v ++ t ++ drop (a + length t) v)
  | Raise e => Raise e
  end.

(** [v / c], element by element. *)
Fixpoint div_all (v : vec) (c : R) : res vec :=
  match v with
  | [] => Ok []
  | a :: v' =>
      match np_div a c, div_all v' c with
      | Ok q, Ok qs => Ok (q :: qs)
      | Raise e, _ => Raise e
      | _, Raise e => Raise e
      end
  end.

(** [np.zeros(n)] and [np.zeros((r, c))] *)
Definition zeros (n : nat) : vec := replicate n 0.
Definition zeros2 (r c : nat) : matrix := replicate r (zeros c).

(** ** The filter object *)

(** The attributes of [ukfFMU] that the numerics use.  The constraint flags
    are numpy arrays filled with [False]; only their truth value is read. *)
Record ukfFMU : Type := mkUkf {
  n_state : nat;
  n_state_obs : nat;
  n_pars : nat;
  n_outputs : nat;
  augmented : bool;
  N : nat;
  n_points : nat;
  alpha : R;
  beta : R;
  k : R;
  lambd : R;
  sqrtC : R;
  W_m : vec;
  W_c : vec;
  ConstrStateHigh : list bool;
  ConstrStateLow : list bool;
  ConstrStateValueHigh : vec;
  ConstrStateValueLow : vec;
  ConstrParsHigh : list bool;
  ConstrParsLow : list bool;
  ConstrParsValueHigh : vec;
  ConstrParsValueLow : vec
}.

(** [self.f = v], one definition per attribute that the methods assign. *)
Definition set_alpha (v : R) (self : ukfFMU) : ukfFMU :=
  mkUkf (n_state self) (n_state_obs self) (n_pars self) (n_outputs self)
    (augmented self) (N self) (n_points self) v (beta self) (k self) (lambd
    self) (sqrtC self) (W_m self) (W_c self) (ConstrStateHigh self)
    (ConstrStateLow self) (ConstrStateValueHigh self) (ConstrStateValueLow self)
    (ConstrParsHigh self) (ConstrParsLow self) (ConstrParsValueHigh self)
    (ConstrParsValueLow self).
Definition set_beta (v : R) (self : ukfFMU) : ukfFMU :=
  mkUkf (n_state self) (n_state_obs self) (n_pars self) (n_outputs self)
    (augmented self) (N self) (n_points self) (alpha self) v (k self) (lambd
    self) (sqrtC self) (W_m self) (W_c self) (ConstrStateHigh self)
    (ConstrStateLow self) (ConstrStateValueHigh self) (ConstrStateValueLow self)
    (ConstrParsHigh self) (ConstrParsLow self) (ConstrParsValueHigh self)
    (ConstrParsValueLow self).
Definition set_k (v : R) (self : ukfFMU) : ukfFMU :=
  mkUkf (n_state self) (n_state_obs self) (n_pars self) (n_outputs self)
    (augmented self) (N self) (n_points self) (alpha self) (beta self) v (lambd
    self) (sqrtC self) (W_m self) (W_c self) (ConstrStateHigh self)
    (ConstrStateLow self) (ConstrStateValueHigh self) (ConstrStateValueLow self)
    (ConstrParsHigh self) (ConstrParsLow self) (ConstrParsValueHigh self)
    (ConstrParsValueLow self).
Definition set_lambd (v : R) (self : ukfFMU) : ukfFMU :=
  mkUkf (n_state self) (n_state_obs self) (n_pars self) (n_outputs self)
    (augmented self) (N self) (n_points self) (alpha self) (beta self) (k self)
    v (sqrtC self) (W_m self) (W_c self) (ConstrStateHigh self) (ConstrStateLow
    self) (ConstrStateValueHigh self) (ConstrStateValueLow self) (ConstrParsHigh
    self) (ConstrParsLow self) (ConstrParsValueHigh self) (ConstrParsValueLow
    self).
Definition set_sqrtC (v : R) (self : ukfFMU) : ukfFMU :=
  mkUkf (n_state self) (n_state_obs self) (n_pars self) (n_outputs self)
    (augmented self) (N self) (n_points self) (alpha self) (beta self) (k self)
    (lambd self) v (W_m self) (W_c self) (ConstrStateHigh self) (ConstrStateLow
    self) (ConstrStateValueHigh self) (ConstrStateValueLow self) (ConstrParsHigh
    self) (ConstrParsLow self) (ConstrParsValueHigh self) (ConstrParsValueLow
    self).
Definition set_W_m (v : vec) (self : ukfFMU) : ukfFMU :=
  mkUkf (n_state self) (n_state_obs self) (n_pars self) (n_outputs self)
    (augmented self) (N self) (n_points self) (alpha self) (beta self) (k self)
    (lambd self) (sqrtC self) v (W_c self) (ConstrStateHigh self)
    (ConstrStateLow self) (ConstrStateValueHigh self) (ConstrStateValueLow self)
    (ConstrParsHigh self) (ConstrParsLow self) (ConstrParsValueHigh self)
    (ConstrParsValueLow self).
Definition set_W_c (v : vec) (self : ukfFMU) : ukfFMU :=
  mkUkf (n_state self) (n_state_obs self) (n_pars self) (n_outputs self)
    (augmented self) (N self) (n_points self) (alpha self) (beta self) (k self)
    (lambd self) (sqrtC self) (W_m self) v (ConstrStateHigh self)
    (ConstrStateLow self) (ConstrStateValueHigh self) (ConstrStateValueLow self)
    (ConstrParsHigh self) (ConstrParsLow self) (ConstrParsValueHigh self)
    (ConstrParsValueLow self).

(** The constraint table has no setter in the class: the user assigns the
    attributes of the object. *)
Definition set_ConstrStateHigh (v : list bool) (self : ukfFMU) : ukfFMU :=
  mkUkf (n_state self) (n_state_obs self) (n_pars self) (n_outputs self)
    (augmented self) (N self) (n_points self) (alpha self) (beta self) (k self)
    (lambd self) (sqrtC self) (W_m self) (W_c self) v (ConstrStateLow self)
    (ConstrStateValueHigh self) (ConstrStateValueLow self) (ConstrParsHigh self)
    (ConstrParsLow self) (ConstrParsValueHigh self) (ConstrParsValueLow self).
Definition set_ConstrStateLow (v : list bool) (self : ukfFMU) : ukfFMU :=
  mkUkf (n_state self) (n_state_obs self) (n_pars self) (n_outputs self)
    (augmented self) (N self) (n_points self) (alpha self) (beta self) (k self)
    (lambd self) (sqrtC self) (W_m self) (W_c self) (ConstrStateHigh self) v
    (ConstrStateValueHigh self) (ConstrStateValueLow self) (ConstrParsHigh self)
    (ConstrParsLow self) (ConstrParsValueHigh self) (ConstrParsValueLow self).
Definition set_ConstrStateValueHigh (v : vec) (self : ukfFMU) : ukfFMU :=
  mkUkf (n_state self) (n_state_obs self) (n_pars self) (n_outputs self)
    (augmented self) (N self) (n_points self) (alpha self) (beta self) (k self)
    (lambd self) (sqrtC self) (W_m self) (W_c self) (ConstrStateHigh self)
    (ConstrStateLow self) v (ConstrStateValueLow self) (ConstrParsHigh self)
    (ConstrParsLow self) (ConstrParsValueHigh self) (ConstrParsValueLow self).
Definition set_ConstrStateValueLow (v : vec) (self : ukfFMU) : ukfFMU :=
  mkUkf (n_state self) (n_state_obs self) (n_pars self) (n_outputs self)
    (augmented self) (N self) (n_points self) (alpha self) (beta self) (k self)
    (lambd self) (sqrtC self) (W_m self) (W_c self) (ConstrStateHigh self)
    (ConstrStateLow self) (ConstrStateValueHigh self) v (ConstrParsHigh self)
    (ConstrParsLow self) (ConstrParsValueHigh self) (ConstrParsValueLow self).
Definition set_ConstrParsHigh (v : list bool) (self : ukfFMU) : ukfFMU :=
  mkUkf (n_state self) (n_state_obs self) (n_pars self) (n_outputs self)
    (augmented self) (N self) (n_points self) (alpha self) (beta self) (k self)
    (lambd self) (sqrtC self) (W_m self) (W_c self) (ConstrStateHigh self)
    (ConstrStateLow self) (ConstrStateValueHigh self) (ConstrStateValueLow self)
    v (ConstrParsLow self) (ConstrParsValueHigh self) (ConstrParsValueLow self).
Definition set_ConstrParsLow (v : list bool) (self : ukfFMU) : ukfFMU :=
  mkUkf (n_state self) (n_state_obs self) (n_pars self) (n_outputs self)
    (augmented self) (N self) (n_points self) (alpha self) (beta self) (k self)
    (lambd self) (sqrtC self) (W_m self) (W_c self) (ConstrStateHigh self)
    (ConstrStateLow self) (ConstrStateValueHigh self) (ConstrStateValueLow self)
    (ConstrParsHigh self) v (ConstrParsValueHigh self) (ConstrParsValueLow self).
Definition set_ConstrParsValueHigh (v : vec) (self : ukfFMU) : ukfFMU :=
  mkUkf (n_state self) (n_state_obs self) (n_pars self) (n_outputs self)
    (augmented self) (N self) (n_points self) (alpha self) (beta self) (k self)
    (lambd self) (sqrtC self) (W_m self) (W_c self) (ConstrStateHigh self)
    (ConstrStateLow self) (ConstrStateValueHigh self) (ConstrStateValueLow self)
    (ConstrParsHigh self) (ConstrParsLow self) v (ConstrParsValueLow self).
Definition set_ConstrParsValueLow (v : vec) (self : ukfFMU) : ukfFMU :=
  mkUkf (n_state self) (n_state_obs self) (n_pars self) (n_outputs self)
    (augmented self) (N self) (n_points self) (alpha self) (beta self) (k self)
    (lambd self) (sqrtC self) (W_m self) (W_c self) (ConstrStateHigh self)
    (ConstrStateLow self) (ConstrStateValueHigh self) (ConstrStateValueLow self)
    (ConstrParsHigh self) (ConstrParsLow self) (ConstrParsValueHigh self) v.

(** [self.f = v] as a statement of a method. *)
Definition assign (upd : ukfFMU -> ukfFMU) : M ukfFMU unit :=
  fun self => (Ok tt, upd self).

(** ** Weight table *)

(** [computeWeights].  [W_m] and [W_c] are arrays of shape (1+2n, 1); the
    model keeps their only column. *)
Definition computeWeights : M ukfFMU unit :=
  self <- get ;;
  let n := N self in
  assign (set_W_m (zeros (1 + 2 * n))) ;;;
  assign (set_W_c (zeros (1 + 2 * n))) ;;;
  self <- get ;;
  w <- lift (np_div (lambd self) (INR n + lambd self)) ;;
  Wm <- lift (setitem (W_m self) 0 w) ;;
  assign (set_W_m Wm) ;;;
  self <- get ;;
  w <- lift (np_div (lambd self) (INR n + lambd self)) ;;
  Wc <- lift (setitem (W_c self) 0 (w + (1 - alpha self ^ 2 + beta self))) ;;
  assign (set_W_c Wc) ;;;
  for_each (range (2 * n)) (fun i (_ : unit) =>
    self <- get ;;
    w <- lift (np_div 1 (2 * (INR n + lambd self))) ;;
    Wm <- lift (setitem (W_m self) (i + 1) w) ;;
    assign (set_W_m Wm) ;;;
    self <- get ;;
    w <- lift (np_div 1 (2 * (INR n + lambd self))) ;;
    Wc <- lift (setitem (W_c self) (i + 1) w) ;;
    assign (set_W_c Wc)) tt.

(** [setDefaultUKFparams] *)
Definition setDefaultUKFparams : M ukfFMU unit :=
  assign (set_alpha (1 / 100)) ;;;
  assign (set_k 1) ;;;
  assign (set_beta 2) ;;;
  self <- get ;;
  let n := N self in
  assign (set_lambd (alpha self ^ 2 * (INR n + k self) - INR n)) ;;;
  r <- lift (np_sqrt (INR n + k self)) ;;
  assign (set_sqrtC (alpha self * r)) ;;;
  computeWeights.

(** The default values of the arguments of [setUKFparams]. *)
Definition default_alpha : R := 1 / sqrt 3.
Definition default_beta : R := 2.

(** [setUKFparams(alpha, beta, k)]; [k = None] is the default. *)
Definition setUKFparams (alpha0 beta0 : R) (k0 : option R) : M ukfFMU unit :=
  assign (set_alpha alpha0) ;;;
  assign (set_beta beta0) ;;;
  self <- get ;;
  let n := N self in
  assign (set_k (match k0 with None => 3 - INR n | Some kv => kv end)) ;;;
  self <- get ;;
  assign (set_lambd (alpha self ^ 2 * (INR n + k self) - INR n)) ;;;
  self <- get ;;
  r <- lift (np_sqrt (k self + INR n)) ;;
  assign (set_sqrtC (alpha self * r)) ;;;
  computeWeights.

(** [getWeights] *)
Definition getWeights (self : ukfFMU) : vec * vec := (W_m self, W_c self).

(** The object as [__init__] fills it in, apart from the attributes that
    [setUKFparams] assigns (written as 0 and [[]] until then). *)
Definition blank (ns nso npa no : nat) (aug : bool) : ukfFMU :=
  let n := if aug then (nso + npa + nso + npa + no)%nat else (nso + npa)%nat in
  mkUkf ns nso npa no aug n (1 + 2 * n)
        0 0 0 0 0 [] []
        (replicate nso false) (replicate nso false) (zeros nso) (zeros nso)
        (replicate npa false) (replicate npa false) (zeros npa) (zeros npa).

(** [__init__(model, augmented)]: the four sizes are what the model reports.
    The constructor raises its own [Exception]s; a negative number of
    observed states reaches [np.zeros]/[np.empty], which raise
    [ValueError]. *)
Definition init (num_states num_obs num_pars num_outs : Z) (aug : bool) : res ukfFMU :=
  if decide (num_obs > num_states)%Z then Raise Exception_
  else if decide (num_pars < 0)%Z then Raise Exception_
  else if decide (num_outs < 0)%Z then Raise Exception_
  else if decide (num_obs < 0)%Z then Raise ValueError
  else
    let nso := Z.to_nat num_obs in
    let npa := Z.to_nat num_pars in
    let no := Z.to_nat num_outs in
    let self0 := blank (Z.to_nat num_states) nso npa no aug in
    match setUKFparams default_alpha default_beta None self0 with
    | (Ok _, self) => Ok self
    | (Raise e, _) => Raise e
    end.

(** ** Constraint clipping *)

(** [if flags[i] and X[idx] > bounds[i]: X[idx] = bounds[i]] on the array
    [X], which is the state.  [and] does not read [X[idx]] when the flag is
    false. *)
Definition clip_high (flags : list bool) (bounds : vec) (i idx : nat) : M vec unit :=
  f <- lift (getitem flags i) ;;
  if (f : bool) then
    X <- get ;;
    xi <- lift (getitem X idx) ;;
    b <- lift (getitem bounds i) ;;
    if Rgt_dec xi b then
      X' <- lift (setitem X idx b) ;; put X'
    else ret tt
  else ret tt.

(** [if flags[i] and X[idx] < bounds[i]: X[idx] = bounds[i]] *)
Definition clip_low (flags : list bool) (bounds : vec) (i idx : nat) : M vec unit :=
  f <- lift (getitem flags i) ;;
  if (f : bool) then
    X <- get ;;
    xi <- lift (getitem X idx) ;;
    b <- lift (getitem bounds i) ;;
    if Rlt_dec xi b then
      X' <- lift (setitem X idx b) ;; put X'
    else ret tt
  else ret tt.

(** [constrainedState(X)]: clips [X] in place and returns it.  The entries of
    the parameters are addressed at [n_state + i]. *)
Definition constrainedState (self : ukfFMU) : M vec vec :=
  for_each (range (n_state_obs self)) (fun i (_ : unit) =>
    clip_high (ConstrStateHigh self) (ConstrStateValueHigh self) i i ;;;
    clip_low (ConstrStateLow self) (ConstrStateValueLow self) i i) tt ;;;
  for_each (range (n_pars self)) (fun i (_ : unit) =>
    clip_high (ConstrParsHigh self) (ConstrParsValueHigh self) i (n_state self + i) ;;;
    clip_low (ConstrParsLow self) (ConstrParsValueLow self) i (n_state self + i)) tt ;;;
  get.

(** The value that [constrainedState(X)] returns, when it returns. *)
Definition constrained (self : ukfFMU) (X : vec) : res vec :=
  fst (constrainedState self X).

(** ** The correction of [ukf_step] *)

(** [np.dot(K, v)] for a matrix [K] and a column [v]. *)
Definition dot (u v : vec) : R := foldr Rplus 0 (zip_with Rmult u v).

Fixpoint matvec (K : matrix) (v : vec) : res vec :=
  match K with
  | [] => Ok []
  | r :: K' =>
      if decide (length r = length v) then
        match matvec K' v with
        | Ok t => Ok (dot r v :: t)
        | Raise e => Raise e
        end
      else Raise ValueError
  end.

(** The end of [ukf_step]:
    [X_corr = Xave + np.dot(K, z.reshape(n_outputs,1) - Zave.T).T],
    [X_corr[0,:] = self.constrainedState(X_corr[0,:])], and the value
    [X_corr[0]] that the step returns.  The projected mean [Xave], the gain
    [K] and the mean output [Zave] come from the simulator pool and from
    numpy's QR and least-squares routines; they are inputs here. *)
Definition ukf_step_correction (self : ukfFMU) (Xave : vec) (K : matrix)
    (z Zave : vec) : res vec :=
  if decide (length z = n_outputs self) then
    match bcast2 Rminus z Zave with
    | Ok innov =>
        match matvec K innov with
        | Ok dx =>
            match bcast2 Rplus Xave dx with
            | Ok X_corr => constrained self X_corr
            | Raise e => Raise e
            end
        | Raise e => Raise e
        end
    | Raise e => Raise e
    end
  else Raise ValueError.

(** ** Sigma-point generator *)

(** What [print] writes. *)
Inductive printed : Type :=
| PStr (s : string)
| PArr (v : vec)
| PStrNat (s : string) (n : nat).   (* [s + str(n)] *)

(** The local array [Xs] and the standard output. *)
Record frame : Type := mkFrame { Xs : matrix; stdout : list printed }.

Definition print (p : printed) : M frame unit :=
  fun f => (Ok tt, mkFrame (Xs f) (stdout f ++ [p])).

Definition set_Xs (m : matrix) : M frame unit :=
  fun f => (Ok tt, mkFrame m (stdout f)).

(** [Xs[i,:] = r], for a row [r] of the width of [Xs]. *)
Definition Xs_set_row (i : nat) (r : vec) : M frame unit :=
  f <- get ;;
  m <- lift (setitem (Xs f) i r) ;;
  set_Xs m.

(** [Xs[i, a:b] op= w] *)
Definition Xs_slice_op (op : R -> R -> R) (i a b : nat) (w : vec) : M frame unit :=
  f <- get ;;
  r <- lift (getitem (Xs f) i) ;;
  r' <- lift (slice_update op r a b w) ;;
  Xs_set_row i r'.

(** [Xs[i, a:] op= w] *)
Definition Xs_slice_from_op (op : R -> R -> R) (i a : nat) (w : vec) : M frame unit :=
  f <- get ;;
  r <- lift (getitem (Xs f) i) ;;
  r' <- lift (slice_update op r a (length r) w) ;;
  Xs_set_row i r'.

(** [Xs[i,:] = self.constrainedState(Xs[i,:])] *)
Definition Xs_constrain_row (self : ukfFMU) (i : nat) : M frame unit :=
  f <- get ;;
  r <- lift (getitem (Xs f) i) ;;
  r' <- lift (constrained self r) ;;
  Xs_set_row i r'.

(** [np.hstack] and [np.vstack] of two-dimensional arrays.  An array without
    rows does not record its number of columns, so [vstack] lets it pass. *)
Fixpoint hstack (ms : list matrix) : res matrix :=
  match ms with
  | [] => Ok []
  | [m] => Ok m
  | m :: rest =>
      match hstack rest with
      | Ok r => if decide (length m = length r) then Ok (zip_with app m r)
                else Raise ValueError
      | Raise e => Raise e
      end
  end.

Definition ncols (m : matrix) : nat := length (hd [] m).

Fixpoint vstack (ms : list matrix) : res matrix :=
  match ms with
  | [] => Ok []
  | m :: rest =>
      match vstack rest with
      | Ok r =>
          match m, r with
          | [], _ => Ok r
          | _, [] => Ok m
          | _, _ => if decide (ncols m = ncols r) then Ok (m ++ r)
                    else Raise ValueError
          end
      | Raise e => Raise e
      end
  end.

(** The block-diagonal factor of the augmented filter; a missing [sqrtQ] or
    [sqrtR] ([None]) cannot be stacked. *)
Definition augmented_factor (self : ukfFMU) (sqrtP : matrix)
    (sqrtQ sqrtR : option matrix) : res matrix :=
  let m := (n_state_obs self + n_pars self)%nat in
  let zero1 := zeros2 m m in
  let zero2 := zeros2 m (n_outputs self) in
  let zero3 := zeros2 m (n_outputs self) in
  let zero1T := zeros2 m m in
  let zero2T := zeros2 (n_outputs self) m in
  let zero3T := zeros2 (n_outputs self) m in
  match sqrtQ, sqrtR with
  | Some Q, Some Rr =>
      match hstack [sqrtP; zero1; zero2] with
      | Ok row1 =>
          match hstack [zero1T; Q; zero3] with
          | Ok row2 =>
              match hstack [zero2T; zero3T; Rr] with
              | Ok row3 => vstack [row1; row2; row3]
              | Raise e => Raise e
              end
          | Raise e => Raise e
          end
      | Raise e => Raise e
      end
  | _, _ => Raise ValueError
  end.

(** The body of [for row in sqrtP], from the row counter [i] on.  The [try]
    block returns [Xs] as it is when a slice does not fit. *)
Fixpoint sigma_loop (self : ukfFMU) (xs0 : vec) (rows : matrix) (i : nat)
  : M frame matrix :=
  match rows with
  | [] => f <- get ;; ret (Xs f)
  | row :: rest =>
      let Nn := N self in
      Xs_set_row i xs0 ;;;
      Xs_set_row (i + Nn) xs0 ;;;
      let nso := n_state_obs self in
      let ns := nso in
      let npa := n_pars self in
      let c := sqrtC self in
      fits <- catch_ValueError
        ((if augmented self then
            Xs_slice_op Rplus i 0 nso (scale c (slice row 0 nso)) ;;;
            Xs_slice_op Rplus i ns (ns + npa) (scale c (slice row ns (ns + npa))) ;;;
            Xs_slice_op Rplus i (ns + npa) (ns + npa + nso)
              (scale c (slice row (ns + npa) (ns + npa + nso))) ;;;
            Xs_slice_from_op Rplus i (ns + npa + nso)
              (scale c (slice_from row (ns + npa + nso))) ;;;
            Xs_slice_op Rminus (i + Nn) 0 nso (scale c (slice row 0 nso)) ;;;
            Xs_slice_op Rminus (i + Nn) ns (ns + npa)
              (scale c (slice row ns (ns + npa))) ;;;
            Xs_slice_op Rminus (i + Nn) (ns + npa) (ns + npa + nso)
              (scale c (slice row (ns + npa) (ns + npa + nso))) ;;;
            Xs_slice_from_op Rminus (i + Nn) (ns + npa + nso)
              (scale c (slice_from row (ns + npa + nso)))
          else
            Xs_slice_op Rplus i 0 nso (scale c (slice row 0 nso)) ;;;
            Xs_slice_op Rplus i ns (ns + npa) (scale c (slice_from row ns)) ;;;
            Xs_slice_op Rminus (i + Nn) 0 nso (scale c (slice row 0 nso)) ;;;
            Xs_slice_from_op Rminus (i + Nn) ns (scale c (slice_from row ns))) ;;;
         ret true)
        (print (PStr "Is not possible to generate the sigma points...") ;;;
         print (PStr "the dimensions of the sqrtP matrix and the state and parameter vectors are not compatible") ;;;
         ret false) ;;
      if (fits : bool) then
        Xs_constrain_row self i ;;;
        Xs_constrain_row self (i + Nn) ;;;
        sigma_loop self xs0 rest (i + 1)
      else
        f <- get ;; ret (Xs f)
  end.

(** [computeSigmaPoints(x, pars, sqrtP, sqrtQ, sqrtR)] with its local [Xs].
    [x] and [pars] are given by their entries: [np.squeeze] and [reshape]
    only look at how many there are.  The empty array [np.array([])] is
    [[]]. *)
Definition computeSigmaPoints_body (self : ukfFMU) (x pars : vec) (sqrtP : matrix)
    (sqrtQ sqrtR : option matrix) : M frame matrix :=
  let nso := n_state_obs self in
  let npa := n_pars self in
  if negb (length x =? nso)%nat then
    print (PStr "The vector of state variables has a wrong size") ;;;
    print (PArr x) ;;;
    print (PStrNat "It should be long: " nso) ;;;
    ret []
  else if negb (length pars =? npa)%nat then
    print (PStr "The vector of parameters has a wrong size") ;;;
    print (PArr pars) ;;;
    print (PStrNat "It should be long: " npa) ;;;
    ret []
  else
    (if augmented self then
       set_Xs (zeros2 (n_points self) (nso + npa + nso + npa + n_outputs self))
     else
       set_Xs (zeros2 (n_points self) (nso + npa))) ;;;
    pre <- (if augmented self then
              let zerosQ := zeros (nso + npa) in
              let zerosR := zeros (n_outputs self) in
              F <- lift (augmented_factor self sqrtP sqrtQ sqrtR) ;;
              ret (x ++ pars ++ zerosQ ++ zerosR, F)
            else ret (x ++ pars, sqrtP)) ;;
    Xs_set_row 0 (fst pre) ;;;
    sigma_loop self (fst pre) (snd pre) 1.

Definition computeSigmaPoints (self : ukfFMU) (x pars : vec) (sqrtP : matrix)
    (sqrtQ sqrtR : option matrix) : M (list printed) matrix :=
  fun out =>
    let r := computeSigmaPoints_body self x pars sqrtP sqrtQ sqrtR (mkFrame [] out) in
    (fst r, stdout (snd r)).

(** ** Cholesky update *)

(** The arrays of the caller live in a store; an argument of [cholUpdate] is
    a reference into it, so that two names of one array are one location. *)
Abbreviation loc := nat (only parsing).
Abbreviation store := (gmap nat (list (list R))) (only parsing).

Definition load (l : loc) : M store matrix :=
  fun h => match h !! l with
           | Some m => (Ok m, h)
           | None => (Raise NoSuchObject, h)
           end.

Definition save (l : loc) (m : matrix) : M store unit :=
  fun h => (Ok tt, <[l := m]> h).

(** [A[i,j]] and [A[i,j] = a] *)
Definition getitem2 (A : matrix) (i j : nat) : res R :=
  match getitem A i with
  | Ok r => getitem r j
  | Raise e => Raise e
  end.

Definition setitem2 (A : matrix) (i j : nat) (a : R) : res matrix :=
  match getitem A i with
  | Ok r =>
      match setitem r j a with
      | Ok r' => setitem A i r'
      | Raise e => Raise e
      end
  | Raise e => Raise e
  end.

(** [x[k:]] for the view [x = X[0:,j]]: the entries of column [j] from row
    [k] on. *)
Fixpoint column (rows : matrix) (j : nat) : res vec :=
  match rows with
  | [] => Ok []
  | r :: rows' =>
      match getitem r j, column rows' j with
      | Ok a, Ok t => Ok (a :: t)
      | Raise e, _ => Raise e
      | _, Raise e => Raise e
      end
  end.

Definition view_from (Xm : matrix) (j k : nat) : res vec := column (drop k Xm) j.

(** [x[k:] = w] through the view: the entries are written into column [j] of
    the array itself. *)
Definition view_assign_from (Xm : matrix) (j k : nat) (w : vec) : matrix :=
  take k Xm ++ zip_with (fun r a => <[j := a]> r) (drop k Xm) w.

(** One pass of the inner loop body, for column [j] and row [k]; [Lc] is the
    private copy of the factor, [X] the caller's array. *)
Definition cholUpdate_step (signs : vec) (X : loc) (j k : nat) (Lc : matrix)
  : M store matrix :=
  Lkk <- lift (getitem2 Lc k k) ;;
  sg <- lift (getitem signs 0) ;;
  Xm <- load X ;;
  xk <- lift (getitem2 Xm k j) ;;
  let rr_arg := Lkk ^ 2 + sg * xk ^ 2 in
  let rr := if Rlt_dec rr_arg 0 then 0 else sqrt rr_arg in
  c <- lift (np_div rr Lkk) ;;
  s <- lift (np_div xk Lkk) ;;
  Lc1 <- lift (setitem2 Lc k k rr) ;;
  (* L[k,k+1:] = (L[k,k+1:] + signs[0]*s*x[k+1:])/c *)
  Lrow <- lift (getitem Lc1 k) ;;
  xs <- lift (view_from Xm j (k + 1)) ;;
  t <- lift (bcast2 Rplus (slice_from Lrow (k + 1)) (scale (sg * s) xs)) ;;
  q <- lift (div_all t c) ;;
  Lrow' <- lift (slice_update (fun _ w => w) Lrow (k + 1) (length Lrow) q) ;;
  Lc2 <- lift (setitem Lc1 k Lrow') ;;
  (* x[k+1:] = c*x[k+1:] - s*L[k,k+1:] *)
  t' <- lift (bcast2 Rminus (scale c xs) (scale s (slice_from Lrow' (k + 1)))) ;;
  xs' <- lift (bcast_into (fun _ w => w) xs t') ;;
  save X (view_assign_from Xm j (k + 1) xs') ;;;
  ret Lc2.

(** [cholUpdate(L, X, W)]: [L] and [X] are references, [W] a one-dimensional
    array.  The copy [L.copy()] is a new array that only the function holds
    until it returns it. *)
Definition cholUpdate (L X : loc) (W : vec) : M store matrix :=
  Lc <- load L ;;
  let weights := map (fun w => sqrt (Rabs w)) W in
  let signs := map np_sign W in
  Xm <- load X ;;
  let row := length Xm in
  let col := ncols Xm in
  for_each (range col) (fun j Lc =>
    for_each (range row) (fun k Lc => cholUpdate_step signs X j k Lc) Lc) Lc.

(** ** Smoother *)

(** A method call with positional arguments.  Each argument is an array
    given by its rows (a vector is its single row).  The signature
    [computeSigmaPoints(self, x, pars, sqrtP, sqrtQ = None, sqrtR = None)]
    takes three to five of them; any other number is a [TypeError], raised
    before the body runs. *)
Definition call_computeSigmaPoints (self : ukfFMU) (args : list matrix)
  : M (list printed) matrix :=
  match args with
  | [x; pars; sqrtP] =>
      computeSigmaPoints self (concat x) (concat pars) sqrtP None None
  | [x; pars; sqrtP; sqrtQ] =>
      computeSigmaPoints self (concat x) (concat pars) sqrtP (Some sqrtQ) None
  | [x; pars; sqrtP; sqrtQ; sqrtR] =>
      computeSigmaPoints self (concat x) (concat pars) sqrtP (Some sqrtQ) (Some sqrtR)
  | _ => raise TypeError
  end.

Section Smoother.

(** The statements of the loop body of [smooth] after the sigma points are
    drawn (lines 786 to 847): they go through the simulator pool and
    numpy's QR and least-squares routines, which are outside this model.
    They get the step [i], the sigma points and the smoothed trajectory so
    far, and give the trajectory after the step. *)
Variable smooth_rest :
  nat -> matrix -> matrix * list matrix -> M (list printed) (matrix * list matrix).

(** One backward step of [smooth]. *)
Definition smooth_step (self : ukfFMU) (i : nat) (tr : matrix * list matrix)
  : M (list printed) (matrix * list matrix) :=
  let Xsmooth := fst tr in
  let Ssmooth := snd tr in
  x_i <- lift (getitem Xsmooth i) ;;
  S_i <- lift (getitem Ssmooth i) ;;
  Xs_i <- call_computeSigmaPoints self [[x_i]; S_i] ;;
  smooth_rest i Xs_i tr.

(** [smooth(time, Xhat, S, sqrtQ, U, m)]: [range(nTimeStep-2, -1, -1)] is
    [nTimeStep-2, ..., 0]. *)
Definition smooth (self : ukfFMU) (time : vec) (Xhat : matrix) (S : list matrix)
  : M (list printed) (matrix * list matrix) :=
  let Xsmooth := Xhat in
  let Ssmooth := S in
  let nTimeStep := length time in
  for_each (reverse (range (nTimeStep - 1))) (smooth_step self) (Xsmooth, Ssmooth).

End Smoother.

(** ** Moment algebra *)

(** [for r in X: f(r)] collected, stopping at the first exception. *)
Fixpoint map_res {A B} (f : A -> res B) (l : list A) : res (list B) :=
  match l with
  | [] => Ok []
  | a :: l' =>
      match f a, map_res f l' with
      | Ok b, Ok t => Ok (b :: t)
      | Raise e, _ => Raise e
      | _, Raise e => Raise e
      end
  end.

(** The combination [sum_i w[i] * X[i,:]] of the rows of [X], of width
    [width]: a row of [np.dot(A, X)]. *)
Definition row_comb (width : nat) (w : vec) (X : matrix) : vec :=
  foldr (fun p acc => zip_with Rplus (scale (fst p) (snd p)) acc) (zeros width) (zip w X).

(** [np.dot(A, B)] of two-dimensional arrays: every row of [A] must be as
    long as [B] has rows.  (An array without rows does not record its number
    of columns: for such an [A] the lengths are not compared.) *)
Definition np_dot (A B : matrix) : res matrix :=
  if forallb (fun r => (length r =? length B)%nat) A
  then Ok (map (fun r => row_comb (ncols B) r B) A)
  else Raise ValueError.

(** [A.T] *)
Definition transpose (A : matrix) : matrix :=
  map (fun j => map (fun r => nth j r 0) A) (seq 0 (ncols A)).

(** [np.diag(w)] *)
Definition np_diag (w : vec) : matrix :=
  imap (fun i a => <[i := a]> (zeros (length w))) w.

(** [A op B] of two-dimensional arrays with broadcasting. *)
Fixpoint zip_rows (f : R -> R -> R) (A B : matrix) : res matrix :=
  match A, B with
  | a :: A', b :: B' =>
      match bcast2 f a b, zip_rows f A' B' with
      | Ok r, Ok t => Ok (r :: t)
      | Raise e, _ => Raise e
      | _, Raise e => Raise e
      end
  | _, _ => Ok []
  end.

Definition bcast2_rows (f : R -> R -> R) (A B : matrix) : res matrix :=
  if decide (length A = length B) then zip_rows f A B
  else match A, B with
       | [a], _ => map_res (fun b => bcast2 f a b) B
       | _, [b] => map_res (fun a => bcast2 f a b) A
       | _, _ => Raise ValueError
       end.

(** [averageProj(X_proj)]: the reshape is checked and thrown away; the
    result, of shape (1, columns), is given by its row. *)
Definition averageProj (self : ukfFMU) (X_proj : matrix) : res vec :=
  if decide (n_points self = 0%nat) then Raise ValueError
  else if decide (length (concat X_proj) mod n_points self = 0)%nat then
    if decide (length (W_m self) = length X_proj)
    then Ok (row_comb (ncols X_proj) (W_m self) X_proj)
    else Raise ValueError
  else Raise ValueError.

(** [__AugStateFromFullState__] and [__newQ__] return their argument; the
    code after the [return] is never run. *)
Definition __AugStateFromFullState__ (Xfull : matrix) : matrix := Xfull.
Definition __newQ__ (Q : matrix) : matrix := Q.

(** [np.diag(self.W_c[:,0]).reshape(self.n_points, self.n_points)] *)
Definition weight_matrix (self : ukfFMU) : res matrix :=
  if decide (length (W_c self) = n_points self) then Ok (np_diag (W_c self))
  else Raise ValueError.

(** [X - a] for a matrix [X] and an array [a] of shape (1, columns), given by
    its row. *)
Definition sub_row (X : matrix) (a : vec) : res matrix :=
  map_res (fun r => bcast2 Rminus r a) X.

(** [np.dot(np.dot(Vx.T, W), Vz)] *)
Definition weighted_product (W Vx Vz : matrix) : res matrix :=
  match np_dot (transpose Vx) W with
  | Ok VW => np_dot VW Vz
  | Raise e => Raise e
  end.

(** [computeP(X_p, Xa, Q)] *)
Definition computeP (self : ukfFMU) (X_p : matrix) (Xa : vec) (Q : matrix) : res matrix :=
  match weight_matrix self with
  | Ok W =>
      match sub_row X_p Xa with
      | Ok D =>
          let V := __AugStateFromFullState__ D in
          let newQ := __newQ__ Q in
          match weighted_product W V V with
          | Ok VWV => bcast2_rows Rplus VWV newQ
          | Raise e => Raise e
          end
      | Raise e => Raise e
      end
  | Raise e => Raise e
  end.

(** [V = np.zeros(Z_p.shape)] and [for j in range(n_points): V[j,:] =
    Z_p[j,:] - Za[0]]; [Za] is given by its row [Za[0]]. *)
Definition deviations (self : ukfFMU) (Z_p : matrix) (Za0 : vec) : res matrix :=
  fst (for_each (range (n_points self)) (fun j (V : matrix) =>
         z <- lift (getitem Z_p j) ;;
         d <- lift (bcast2 Rminus z Za0) ;;
         v <- lift (getitem V j) ;;
         v' <- lift (bcast_into (fun _ w => w) v d) ;;
         lift (setitem V j v'))
       (map (fun r => zeros (length r)) Z_p) tt).

(** [computeCovZ(Z_p, Za, R)] *)
Definition computeCovZ (self : ukfFMU) (Z_p : matrix) (Za0 : vec) (Rm : matrix) : res matrix :=
  match weight_matrix self with
  | Ok W =>
      match deviations self Z_p Za0 with
      | Ok V =>
          match weighted_product W V V with
          | Ok VWV => bcast2_rows Rplus VWV Rm
          | Raise e => Raise e
          end
      | Raise e => Raise e
      end
  | Raise e => Raise e
  end.

(** [computeCovXZ(X_p, Xa, Z_p, Za)] *)
Definition computeCovXZ (self : ukfFMU) (X_p : matrix) (Xa : vec) (Z_p : matrix) (Za0 : vec)
  : res matrix :=
  match weight_matrix self with
  | Ok W =>
      match sub_row X_p Xa with
      | Ok D =>
          let Vx := __AugStateFromFullState__ D in
          match deviations self Z_p Za0 with
          | Ok Vz => weighted_product W Vx Vz
          | Raise e => Raise e
          end
      | Raise e => Raise e
      end
  | Raise e => Raise e
  end.

(** [computeCxx(X_next, X_now)] *)
Definition computeCxx (self : ukfFMU) (X_next X_now : matrix) : res matrix :=
  match weight_matrix self with
  | Ok W =>
      match averageProj self X_next with
      | Ok Xave_next =>
          match averageProj self X_now with
          | Ok Xave_now =>
              match sub_row X_next Xave_next with
              | Ok Dnext =>
                  match sub_row X_now Xave_now with
                  | Ok Dnow =>
                      weighted_product W (__AugStateFromFullState__ Dnext)
                                         (__AugStateFromFullState__ Dnow)
                  | Raise e => Raise e
                  end
              | Raise e => Raise e
              end
          | Raise e => Raise e
          end
      | Raise e => Raise e
      end
  | Raise e => Raise e
  end.

(** ** Notions used in the statements *)

(** The weights that [computeWeights] stores. *)
Definition weights_m (n : nat) (l : R) : vec :=
  (l / (INR n + l)) :: replicate (2 * n) (1 / (2 * (INR n + l))).
Definition weights_c (n : nat) (l a b : R) : vec :=
  (l / (INR n + l) + (1 - a ^ 2 + b)) :: replicate (2 * n) (1 / (2 * (INR n + l))).

(** The value of [k] that [setUKFparams] stores. *)
Definition effective_k (self : ukfFMU) (k0 : option R) : R :=
  match k0 with None => 3 - INR (N self) | Some kv => kv end.

(** The object that a successful [setUKFparams(alpha0, beta0, k0)] leaves. *)
Definition with_params (alpha0 beta0 : R) (k0 : option R) (self : ukfFMU) : ukfFMU :=
  let kv := effective_k self k0 in
  let l := alpha0 ^ 2 * (INR (N self) + kv) - INR (N self) in
  set_W_c (weights_c (N self) l alpha0 beta0)
    (set_W_m (weights_m (N self) l)
       (set_sqrtC (alpha0 * sqrt (kv + INR (N self)))
          (set_lambd l (set_k kv (set_beta beta0 (set_alpha alpha0 self)))))).

(** What [computeSigmaPoints] prints when a size is wrong: the lines about
    [x] when [x] has the wrong size, else the lines about [pars]. *)
Definition size_report (self : ukfFMU) (x pars : vec) : list printed :=
  if decide (length x = n_state_obs self) then
    [PStr "The vector of parameters has a wrong size";
     PArr pars;
     PStrNat "It should be long: " (n_pars self)]
  else
    [PStr "The vector of state variables has a wrong size";
     PArr x;
     PStrNat "It should be long: " (n_state_obs self)].

(** [m] writes to no other array than [X]. *)
Definition writes_only {A} (X : loc) (m : M store A) : Prop :=
  forall (h : store) (l : loc), l <> X -> snd (m h) !! l = h !! l.

(** The object of the examples: two states of which one is observed, one
    parameter, one output, with [setUKFparams(1, 2, 2)]. *)
Definition example_ukf : ukfFMU := with_params 1 2 (Some 2) (blank 2 1 1 1 false).

(** The arrays of the examples: the factor [[[3, 1], [0, 1]]] at location 0
    and an update [[[4], [t]]] with one column at location 1. *)
Definition example_store_at (t : R) : store :=
  <[1%nat := [[4]; [t]]]> (<[0%nat := [[3; 1]; [0; 1]]]> ∅).
Definition example_store : store := example_store_at 1.


(** No constraint is active: the table is as the constructor leaves it. *)
Definition no_constraints (self : ukfFMU) : Prop :=
  ConstrStateHigh self = replicate (n_state_obs self) false /\
  ConstrStateLow self = replicate (n_state_obs self) false /\
  ConstrParsHigh self = replicate (n_pars self) false /\
  ConstrParsLow self = replicate (n_pars self) false.

(** The table has an entry for every observed state and every parameter,
    and no active pair of bounds is empty. *)
Definition table_ok (flagsH flagsL : list bool) (valH valL : vec) (n : nat) : Prop :=
  length flagsH = n /\ length flagsL = n /\ length valH = n /\ length valL = n /\
  forall i bh bl,
    flagsH !! i = Some true -> flagsL !! i = Some true ->
    valH !! i = Some bh -> valL !! i = Some bl -> bl <= bh.

(** Entry [idx] of [X] respects the bounds of index [i] that are active. *)
Definition within (flagsH flagsL : list bool) (valH valL : vec) (i idx : nat) (X : vec) : Prop :=
  exists v, X !! idx = Some v /\
    (forall bh, flagsH !! i = Some true -> valH !! i = Some bh -> v <= bh) /\
    (forall bl, flagsL !! i = Some true -> valL !! i = Some bl -> bl <= v).

(** The flag and the bound of the table index [i]. *)
Definition flag_at (flags : list bool) (i : nat) : bool :=
  match flags !! i with Some b => b | None => false end.
Definition bound_at (vals : vec) (i : nat) : R :=
  match vals !! i with Some b => b | None => 0 end.

(** What the two tests of [constrainedState] make of an entry [v] for the
    table index [i]: clipped to the upper bound if that is active, then to
    the lower bound if that is active. *)
Definition clamp_entry (flagsH flagsL : list bool) (valH valL : vec) (i : nat) (v : R) : R :=
  let v1 := if flag_at flagsH i
            then (if Rgt_dec v (bound_at valH i) then bound_at valH i else v)
            else v in
  if flag_at flagsL i
  then (if Rlt_dec v1 (bound_at valL i) then bound_at valL i else v1)
  else v1.

(** The four arrays of a table have [n] entries. *)
Definition table_sized (flagsH flagsL : list bool) (valH valL : vec) (n : nat) : Prop :=
  length flagsH = n /\ length flagsL = n /\ length valH = n /\ length valL = n.

(** An object in which every state is observed, with the upper bound 3/2
    active on its one parameter. *)
Definition example_ukf_bounded : ukfFMU :=
  set_ConstrParsValueHigh [3 / 2]
    (set_ConstrParsHigh [true] (with_params 1 2 (Some 2) (blank 1 1 1 1 false))).

(** An object with a state that is not observed (two states, one observed),
    with the upper bound 3/2 active on its one parameter. *)
Definition example_ukf_hidden : ukfFMU :=
  set_ConstrParsValueHigh [3 / 2]
    (set_ConstrParsHigh [true] (with_params 1 2 (Some 2) (blank 2 1 1 1 false))).

(** The block-diagonal factor of the augmented filter, row by row: the rows
    of [P] with zeros behind them, the rows of [Q] between zeros, the rows of
    [Rm] behind zeros; [m] is the width of [P] and of [Q], [no] that of [Rm]. *)
Definition block_rows (m no : nat) (P Q Rm : matrix) : matrix :=
  map (fun r => r ++ zeros m ++ zeros no) P ++
  map (fun r => zeros m ++ r ++ zeros no) Q ++
  map (fun r => zeros m ++ zeros m ++ r) Rm.

(** An augmented filter: one observed state, one parameter, one output,
    with [setUKFparams(1, 2, 2)]. *)
Definition example_ukf_augmented : ukfFMU :=
  with_params 1 2 (Some 2) (blank 1 1 1 1 true).

(** [A[i,c]], zero outside the array. *)
Definition entry (A : matrix) (i c : nat) : R := nth c (nth i A []) 0.

(** [(A.T * A)[a,b]]: the sum over the rows of [A]. *)
Definition gram (A : matrix) (a b : nat) : R :=
  foldr Rplus 0 (map (fun r => nth a r 0 * nth b r 0) A).

(** Zeros to the left of the diagonal. *)
Definition upper_triangular (A : matrix) : Prop :=
  forall i c, (c < i)%nat -> entry A i c = 0.

(** The entry [a] of the update vector that step [k] still has to absorb:
    the steps before [k] have dealt with the entries before [k]. *)
Definition masked (k a : nat) (v : R) : R := if (a <? k)%nat then 0 else v.

(** * Properties *)

(** ** Running the monad *)

Lemma np_div_ok (a b : R) : b <> 0 -> np_div a b = Ok (a / b).
Proof. intros Hb. unfold np_div. destruct (Req_dec_T b 0); [contradiction | reflexivity]. Qed.

Lemma np_div_zero (a : R) : np_div a 0 = Raise NonFinite.
Proof. unfold np_div. destruct (Req_dec_T 0 0); [reflexivity | contradiction]. Qed.

Lemma np_sqrt_ok (a : R) : 0 <= a -> np_sqrt a = Ok (sqrt a).
Proof. intros Ha. unfold np_sqrt. destruct (Rlt_dec a 0); [lra | reflexivity]. Qed.

Lemma np_sqrt_neg (a : R) : a < 0 -> np_sqrt a = Raise NonFinite.
Proof. intros Ha. unfold np_sqrt. destruct (Rlt_dec a 0); [reflexivity | lra]. Qed.

Lemma getitem_ok {A} (v : list A) (i : nat) (a : A) : v !! i = Some a -> getitem v i = Ok a.
Proof. intros H. unfold getitem. rewrite H. reflexivity. Qed.

Lemma getitem_inv {A} (v : list A) (i : nat) (a : A) : getitem v i = Ok a -> v !! i = Some a.
Proof. unfold getitem. destruct (v !! i); congruence. Qed.

Lemma setitem_ok {A} (v : list A) (i : nat) (a : A) :
  (i < length v)%nat -> setitem v i a = Ok (<[i := a]> v).
Proof. intros H. unfold setitem. destruct (decide (i < length v)%nat); [reflexivity | contradiction]. Qed.

Lemma setitem_inv {A} (v v' : list A) (i : nat) (a : A) :
  setitem v i a = Ok v' -> (i < length v)%nat /\ v' = <[i := a]> v.
Proof. unfold setitem. destruct (decide (i < length v)%nat); intros H; inversion H; auto. Qed.

Lemma bind_run {S A B} (m : M S A) (f : A -> M S B) (s s' : S) (a : A) :
  m s = (Ok a, s') -> bind m f s = f a s'.
Proof. intros H. unfold bind. rewrite H. reflexivity. Qed.

Lemma for_each_ext {S A B} (l : list B) (body body' : B -> A -> M S A) :
  (forall i a s, body i a s = body' i a s) ->
  forall a s, for_each l body a s = for_each l body' a s.
Proof.
  intros Hext. induction l as [| i l IH]; intros a s; simpl; [reflexivity |].
  unfold bind. rewrite Hext. destruct (body' i a s) as [[a' | e] s']; [apply IH | reflexivity].
Qed.

(** ** Weight table *)

Lemma insert_after_prefix {A} (P : list A) (a b : A) (t : list A) :
  <[length P := b]> (P ++ a :: t) = (P ++ [b]) ++ t.
Proof.
  rewrite insert_app_r_alt by lia. rewrite Nat.sub_diag. simpl.
  rewrite <- app_assoc. reflexivity.
Qed.

Lemma weights_loop (n : nat) (len : nat) :
  forall (a : nat) (P Q : vec) (self : ukfFMU),
    INR n + lambd self <> 0 ->
    length P = S a -> length Q = S a ->
    W_m self = P ++ zeros len -> W_c self = Q ++ zeros len ->
    for_each (seq a len) (fun i (_ : unit) =>
      self <- get ;;
      w <- lift (np_div 1 (2 * (INR n + lambd self))) ;;
      Wm <- lift (setitem (W_m self) (i + 1) w) ;;
      assign (set_W_m Wm) ;;;
      self <- get ;;
      w <- lift (np_div 1 (2 * (INR n + lambd self))) ;;
      Wc <- lift (setitem (W_c self) (i + 1) w) ;;
      assign (set_W_c Wc)) tt self
    = (Ok tt,
       set_W_c (Q ++ replicate len (1 / (2 * (INR n + lambd self))))
         (set_W_m (P ++ replicate len (1 / (2 * (INR n + lambd self)))) self)).
Proof.
  induction len as [| len IH]; intros a P Q self Hl HP HQ Hm Hc.
  - unfold zeros in Hm, Hc. simpl in Hm, Hc. rewrite app_nil_r in Hm, Hc.
    simpl. unfold ret. rewrite !app_nil_r. rewrite <- Hm, <- Hc.
    destruct self; reflexivity.
  - simpl seq. simpl for_each.
    assert (H2 : 2 * (INR n + lambd self) <> 0) by lra.
    change (zeros (S len)) with (0 :: zeros len) in Hm, Hc.
    unfold bind at 1. unfold get at 1.
    unfold bind at 1. unfold lift at 1. rewrite (np_div_ok _ _ H2).
    unfold bind at 1. unfold lift at 1.
    rewrite Hm. replace (a + 1)%nat with (length P) by lia.
    rewrite setitem_ok by (rewrite length_app; simpl; lia).
    rewrite insert_after_prefix.
    unfold bind at 1. unfold assign at 1.
    unfold bind at 1. unfold get at 1.
    unfold bind at 1. unfold lift at 1.
    change (lambd (set_W_m _ self)) with (lambd self). rewrite (np_div_ok _ _ H2).
    unfold bind at 1. unfold lift at 1.
    change (W_c (set_W_m _ self)) with (W_c self).
    rewrite Hc. replace (length P) with (length Q) by lia.
    rewrite setitem_ok by (rewrite length_app; simpl; lia).
    rewrite insert_after_prefix.
    unfold bind at 1. unfold assign at 1.
    rewrite (IH (S a) (P ++ [1 / (2 * (INR n + lambd self))])
                (Q ++ [1 / (2 * (INR n + lambd self))])).
    + simpl lambd. rewrite <- !app_assoc. simpl. destruct self; reflexivity.
    + exact Hl.
    + rewrite length_app. simpl. lia.
    + rewrite length_app. simpl. lia.
    + reflexivity.
    + reflexivity.
Qed.

Lemma computeWeights_ok (self : ukfFMU) :
  INR (N self) + lambd self <> 0 ->
  computeWeights self =
  (Ok tt,
   set_W_c (weights_c (N self) (lambd self) (alpha self) (beta self))
     (set_W_m (weights_m (N self) (lambd self)) self)).
Proof.
  intros Hl. unfold computeWeights.
  unfold bind at 1. unfold get at 1.
  unfold bind at 1. unfold assign at 1.
  unfold bind at 1. unfold assign at 1.
  unfold bind at 1. unfold get at 1.
  unfold bind at 1. unfold lift at 1. simpl lambd. rewrite (np_div_ok _ _ Hl).
  unfold bind at 1. unfold lift at 1. simpl W_m.
  rewrite setitem_ok by (unfold zeros; rewrite length_replicate; lia).
  unfold bind at 1. unfold assign at 1.
  unfold bind at 1. unfold get at 1.
  unfold bind at 1. unfold lift at 1. simpl lambd. rewrite (np_div_ok _ _ Hl).
  unfold bind at 1. unfold lift at 1. simpl W_c.
  rewrite setitem_ok by (unfold zeros; rewrite length_replicate; lia).
  unfold bind at 1. unfold assign at 1.
  change (zeros (1 + 2 * N self)) with (0 :: zeros (2 * N self)).
  simpl (<[0%nat := _]> _).
  unfold range.
  rewrite (weights_loop (N self) (2 * N self) 0
             [lambd self / (INR (N self) + lambd self)]
             [lambd self / (INR (N self) + lambd self) + (1 - alpha self ^ 2 + beta self)]);
    try reflexivity.
  exact Hl.
Qed.

Lemma setUKFparams_ok (alpha0 beta0 : R) (k0 : option R) (self : ukfFMU) :
  alpha0 <> 0 -> 0 < INR (N self) + effective_k self k0 ->
  setUKFparams alpha0 beta0 k0 self = (Ok tt, with_params alpha0 beta0 k0 self).
Proof.
  intros Ha Hk. unfold setUKFparams.
  unfold bind at 1. unfold assign at 1.
  unfold bind at 1. unfold assign at 1.
  unfold bind at 1. unfold get at 1.
  unfold bind at 1. unfold assign at 1.
  unfold bind at 1. unfold get at 1.
  unfold bind at 1. unfold assign at 1.
  unfold bind at 1. unfold get at 1.
  unfold bind at 1. unfold lift at 1. simpl k. simpl N.
  fold (effective_k self k0).
  rewrite np_sqrt_ok by lra.
  unfold bind at 1. unfold assign at 1.
  rewrite computeWeights_ok.
  - unfold with_params. destruct self; reflexivity.
  - simpl. fold (effective_k self k0).
    assert (0 < alpha0 ^ 2) by nra.
    assert (0 < alpha0 ^ 2 * (INR (N self) + effective_k self k0))
      by (apply Rmult_lt_0_compat; assumption).
    lra.
Qed.

Lemma setUKFparams_breaks (alpha0 beta0 : R) (k0 : option R) (self : ukfFMU) :
  alpha0 = 0 \/ INR (N self) + effective_k self k0 <= 0 ->
  fst (setUKFparams alpha0 beta0 k0 self) = Raise NonFinite.
Proof.
  intros H. unfold setUKFparams.
  unfold bind at 1. unfold assign at 1.
  unfold bind at 1. unfold assign at 1.
  unfold bind at 1. unfold get at 1.
  unfold bind at 1. unfold assign at 1.
  unfold bind at 1. unfold get at 1.
  unfold bind at 1. unfold assign at 1.
  unfold bind at 1. unfold get at 1.
  unfold bind at 1. unfold lift at 1. simpl k. simpl N.
  fold (effective_k self k0).
  destruct (Rlt_dec (effective_k self k0 + INR (N self)) 0) as [Hneg | Hpos].
  - rewrite np_sqrt_neg by exact Hneg. reflexivity.
  - rewrite np_sqrt_ok by lra.
    unfold bind at 1. unfold assign at 1.
    unfold computeWeights.
    unfold bind at 1. unfold get at 1.
    unfold bind at 1. unfold assign at 1.
    unfold bind at 1. unfold assign at 1.
    unfold bind at 1. unfold get at 1.
    unfold bind at 1. unfold lift at 1.
    cbn [lambd alpha N set_W_c set_W_m set_sqrtC set_lambd set_k set_beta set_alpha].
    replace (INR (N self) + (alpha0 ^ 2 * (INR (N self) + effective_k self k0) - INR (N self)))
      with 0.
    + rewrite np_div_zero. reflexivity.
    + destruct H as [-> | H0].
      * ring.
      * assert (INR (N self) + effective_k self k0 = 0) as -> by lra. ring.
Qed.

Lemma sum_replicate (m : nat) (w : R) : foldr Rplus 0 (replicate m w) = INR m * w.
Proof.
  induction m as [| m IH].
  - simpl. ring.
  - rewrite S_INR. simpl. rewrite IH. ring.
Qed.

Lemma weights_m_sum (n : nat) (l : R) :
  INR n + l <> 0 -> foldr Rplus 0 (weights_m n l) = 1.
Proof.
  intros H. unfold weights_m. cbn [foldr]. rewrite sum_replicate.
  rewrite mult_INR. change (INR 2) with 2. field. exact H.
Qed.

Lemma default_alpha_sq : default_alpha ^ 2 = 1 / 3.
Proof.
  unfold default_alpha.
  assert (H3 : 0 < sqrt 3) by (apply sqrt_lt_R0; lra).
  assert (Hs : sqrt 3 * sqrt 3 = 3) by (apply sqrt_sqrt; lra).
  field_simplify; [| lra]. rewrite <- Rsqr_pow2. unfold Rsqr. rewrite Hs. lra.
Qed.

Lemma default_alpha_nonzero : default_alpha <> 0.
Proof.
  intros H. pose proof default_alpha_sq as Hsq. rewrite H in Hsq. lra.
Qed.

Lemma init_ok (ns nso npa no : nat) (aug : bool) :
  (nso <= ns)%nat ->
  init (Z.of_nat ns) (Z.of_nat nso) (Z.of_nat npa) (Z.of_nat no) aug =
  Ok (with_params default_alpha default_beta None (blank ns nso npa no aug)).
Proof.
  intros Hle. unfold init.
  destruct (decide (Z.of_nat nso > Z.of_nat ns)%Z); [lia |].
  destruct (decide (Z.of_nat npa < 0)%Z); [lia |].
  destruct (decide (Z.of_nat no < 0)%Z); [lia |].
  destruct (decide (Z.of_nat nso < 0)%Z); [lia |].
  rewrite !Nat2Z.id. rewrite setUKFparams_ok.
  - reflexivity.
  - exact default_alpha_nonzero.
  - unfold effective_k. lra.
Qed.

(** C3 (counterexample).  The claim lets every [alpha <= 0] fail with
    [InvalidUkfParameter].  On the object that the constructor builds for one
    observed state and one output, [setUKFparams(-1, 2, 1)] returns normally,
    although [-1 <= 0]. *)
Lemma setUKFparams_accepts_negative_alpha :
  exists self : ukfFMU,
    init 1 1 0 1 false = Ok self /\
    -1 <= 0 /\
    fst (setUKFparams (-1) 2 (Some 1) self) = Ok tt.
Proof.
  eexists. split; [| split].
  - exact (init_ok 1 1 0 1 false (le_n 1)).
  - lra.
  - rewrite setUKFparams_ok; [reflexivity | lra | simpl; lra].
Qed.

(** C3 (amended).  [setUKFparams] checks nothing and knows no
    [InvalidUkfParameter]: for every [alpha <> 0], negative ones too, and
    every [kappa] with [N + kappa > 0] ([kappa = 3 - N] when [k] is [None]) it
    returns normally and has recomputed
    [lambda = alpha^2 (N + kappa) - N], [sqrtC = alpha sqrt(kappa + N)],
    [W_m = [lambda/(N+lambda), 1/(2(N+lambda)), ...]] and
    [W_c = [lambda/(N+lambda) + (1 - alpha^2 + beta), 1/(2(N+lambda)), ...]]
    with [2N] equal entries after the first. *)
Theorem setUKFparams_succeeds_and_recomputes
    (alpha0 beta0 : R) (k0 : option R) (self : ukfFMU) :
  alpha0 <> 0 ->
  0 < INR (N self) + effective_k self k0 ->
  exists self' : ukfFMU,
    setUKFparams alpha0 beta0 k0 self = (Ok tt, self') /\
    alpha self' = alpha0 /\ beta self' = beta0 /\ k self' = effective_k self k0 /\
    N self' = N self /\
    lambd self' = alpha0 ^ 2 * (INR (N self) + effective_k self k0) - INR (N self) /\
    sqrtC self' = alpha0 * sqrt (effective_k self k0 + INR (N self)) /\
    W_m self' = (lambd self' / (INR (N self) + lambd self'))
                  :: replicate (2 * N self) (1 / (2 * (INR (N self) + lambd self'))) /\
    W_c self' = (lambd self' / (INR (N self) + lambd self') + (1 - alpha0 ^ 2 + beta0))
                  :: replicate (2 * N self) (1 / (2 * (INR (N self) + lambd self'))).
Proof.
  intros Ha Hk. exists (with_params alpha0 beta0 k0 self).
  split; [apply setUKFparams_ok; assumption |].
  repeat split.
Qed.

Lemma setUKFparams_succeeds_and_recomputes_witness :
  -1 <> 0 /\
  0 < INR (N (blank 1 1 0 1 false)) + effective_k (blank 1 1 0 1 false) (Some 1) /\
  exists self' : ukfFMU,
    setUKFparams (-1) 2 (Some 1) (blank 1 1 0 1 false) = (Ok tt, self') /\
    lambd self' = 1 /\ sqrtC self' = - sqrt 2.
Proof.
  split; [lra |]. split; [simpl; lra |].
  destruct (setUKFparams_succeeds_and_recomputes (-1) 2 (Some 1) (blank 1 1 0 1 false))
    as (self' & Hrun & _ & _ & _ & _ & Hl & Hs & _); [lra | simpl; lra |].
  exists self'. split; [exact Hrun |]. split.
  - rewrite Hl. simpl. lra.
  - rewrite Hs. simpl. replace (1 + 1) with 2 by lra. lra.
Defined.

(** C4.  For every valid setting of the hyperparameters ([alpha > 0] and
    [N + kappa > 0]) [setUKFparams] returns, [N + lambda <> 0], the vector
    [W_m] that [computeWeights] has stored is
    [lambda/(N+lambda)] followed by [2N] entries [1/(2(N+lambda))], and its
    entries sum to one. *)
Theorem computeWeights_mean_weights_sum_to_one
    (alpha0 beta0 : R) (k0 : option R) (self : ukfFMU) :
  0 < alpha0 ->
  0 < INR (N self) + effective_k self k0 ->
  exists self' : ukfFMU,
    setUKFparams alpha0 beta0 k0 self = (Ok tt, self') /\
    INR (N self') + lambd self' <> 0 /\
    fst (getWeights self') =
      (lambd self' / (INR (N self') + lambd self'))
        :: replicate (2 * N self') (1 / (2 * (INR (N self') + lambd self'))) /\
    foldr Rplus 0 (fst (getWeights self')) = 1.
Proof.
  intros Ha Hk. exists (with_params alpha0 beta0 k0 self).
  assert (Hnz : INR (N self) +
                (alpha0 ^ 2 * (INR (N self) + effective_k self k0) - INR (N self)) <> 0).
  { assert (0 < alpha0 ^ 2) by nra.
    assert (0 < alpha0 ^ 2 * (INR (N self) + effective_k self k0))
      by (apply Rmult_lt_0_compat; assumption).
    lra. }
  split; [apply setUKFparams_ok; [lra | exact Hk] |].
  split; [exact Hnz |]. split; [reflexivity |].
  apply weights_m_sum. exact Hnz.
Qed.

Lemma computeWeights_mean_weights_sum_to_one_witness :
  0 < 1 / 2 /\
  0 < INR (N (blank 2 1 1 1 false)) + effective_k (blank 2 1 1 1 false) None /\
  exists self' : ukfFMU,
    setUKFparams (1 / 2) 2 None (blank 2 1 1 1 false) = (Ok tt, self') /\
    foldr Rplus 0 (fst (getWeights self')) = 1.
Proof.
  split; [lra |]. split; [simpl; lra |].
  destruct (computeWeights_mean_weights_sum_to_one (1 / 2) 2 None (blank 2 1 1 1 false))
    as (self' & Hrun & _ & _ & Hsum); [lra | simpl; lra |].
  exists self'. split; assumption.
Defined.

(** ** Constraint clipping in [ukf_step] *)

(** Decides the comparisons of concrete numbers that a run meets. *)
Ltac decide_reals :=
  repeat match goal with
         | |- context [Rgt_dec ?a ?b] =>
             destruct (Rgt_dec a b); [try (exfalso; lra) | try (exfalso; lra)]
         | |- context [Rlt_dec ?a ?b] =>
             destruct (Rlt_dec a b); [try (exfalso; lra) | try (exfalso; lra)]
         | |- context [Req_dec_T ?a ?b] =>
             destruct (Req_dec_T a b); [try (exfalso; lra) | try (exfalso; lra)]
         end.

(** C1 (the code at the failing input).  Two states of which one is observed,
    two parameters, one output; the upper constraint 3/2 on parameter 0 is
    active.  With [Xave = [1; 2; 0]], [K = [[0]; [1/2]; [0]]], [z = [4]] and
    [Zave = [2]] the step returns [[1; 3; 0]]: the estimate of parameter 0,
    at index [n_state_obs + 0 = 1], is 3 and exceeds 3/2.  [constrainedState]
    compared the bound with the entry at [n_state + 0 = 2]. *)
Theorem ukf_step_correction_misses_parameter_bound :
  exists self0 : ukfFMU,
    init 2 1 2 1 false = Ok self0 /\
    let self := set_ConstrParsValueHigh [3 / 2; 0] (set_ConstrParsHigh [true; false] self0) in
    exists X_corr : vec,
      ukf_step_correction self [1; 2; 0] [[0]; [1 / 2]; [0]] [4] [2] = Ok X_corr /\
      ConstrParsHigh self !! 0%nat = Some true /\
      ConstrParsValueHigh self !! 0%nat = Some (3 / 2) /\
      X_corr !! (n_state_obs self + 0)%nat = Some 3 /\
      3 > 3 / 2.
Proof.
  eexists. split; [exact (init_ok 2 1 2 1 false (le_S 1 1 (le_n 1))) |].
  cbn zeta. exists [1; 3; 0].
  split; [| repeat split; lra].
  unfold ukf_step_correction, constrained, constrainedState. simpl.
  unfold clip_high, clip_low, bind, lift, get, put, ret, dot. simpl.
  decide_reals. simpl. repeat f_equal; lra.
Qed.

(** *** When every state is observed *)

Lemma clip_pair (flagsH flagsL : list bool) (valH valL : vec) (n i idx : nat) (X : vec) :
  table_ok flagsH flagsL valH valL n ->
  (i < n)%nat -> (idx < length X)%nat ->
  exists v',
    (clip_high flagsH valH i idx ;;; clip_low flagsL valL i idx) X
      = (Ok tt, <[idx := v']> X) /\
    within flagsH flagsL valH valL i idx (<[idx := v']> X).
Proof.
  intros (H1 & H2 & H3 & H4 & Hcons) Hi Hidx.
  destruct (lookup_lt_is_Some_2 flagsH i ltac:(lia)) as [fh Hfh].
  destruct (lookup_lt_is_Some_2 flagsL i ltac:(lia)) as [fl Hfl].
  destruct (lookup_lt_is_Some_2 valH i ltac:(lia)) as [bh Hbh].
  destruct (lookup_lt_is_Some_2 valL i ltac:(lia)) as [bl Hbl].
  destruct (lookup_lt_is_Some_2 X idx Hidx) as [v Hv].
  (* the value after the upper clip *)
  assert (Hhigh : exists v1,
             clip_high flagsH valH i idx X = (Ok tt, <[idx := v1]> X) /\
             (fh = true -> v1 <= bh) /\ (v1 = v \/ (fh = true /\ v1 = bh))).
  { unfold clip_high, bind, lift, get, put, ret.
    rewrite (getitem_ok _ _ _ Hfh). destruct fh.
    - rewrite (getitem_ok _ _ _ Hv), (getitem_ok _ _ _ Hbh).
      destruct (Rgt_dec v bh).
      + rewrite setitem_ok by exact Hidx. exists bh. split; [reflexivity |]. split; [lra | auto].
      + exists v. rewrite list_insert_id by exact Hv. split; [reflexivity |]. split; [lra | auto].
    - exists v. rewrite list_insert_id by exact Hv. split; [reflexivity |]. split; [discriminate | auto]. }
  destruct Hhigh as (v1 & Hrun1 & Hle1 & Hv1).
  assert (Hv1' : <[idx := v1]> X !! idx = Some v1) by (apply list_lookup_insert_eq; exact Hidx).
  assert (Hlow : exists v2,
             clip_low flagsL valL i idx (<[idx := v1]> X) = (Ok tt, <[idx := v2]> X) /\
             (fl = true -> bl <= v2) /\ (v2 = v1 \/ (fl = true /\ v2 = bl))).
  { unfold clip_low, bind, lift, get, put, ret.
    rewrite (getitem_ok _ _ _ Hfl). destruct fl.
    - rewrite (getitem_ok _ _ _ Hv1'), (getitem_ok _ _ _ Hbl).
      destruct (Rlt_dec v1 bl).
      + rewrite setitem_ok by (rewrite length_insert; exact Hidx).
        rewrite list_insert_insert_eq.
        exists bl. split; [reflexivity |]. split; [lra | auto].
      + exists v1. split; [reflexivity |]. split; [lra | auto].
    - exists v1. split; [reflexivity |]. split; [discriminate | auto]. }
  destruct Hlow as (v2 & Hrun2 & Hge2 & Hv2).
  exists v2. split.
  - rewrite (bind_run _ _ _ _ _ Hrun1). exact Hrun2.
  - exists v2. split; [apply list_lookup_insert_eq; exact Hidx |]. split.
    + intros bh' Hfh' Hbh'. rewrite Hfh in Hfh'. rewrite Hbh in Hbh'.
      inversion Hfh'; inversion Hbh'; subst fh bh'.
      destruct Hv2 as [-> | [-> ->]]; [auto |].
      apply (Hcons i bh bl); assumption.
    + intros bl' Hfl' Hbl'. rewrite Hfl in Hfl'. rewrite Hbl in Hbl'.
      inversion Hfl'; inversion Hbl'; subst fl bl'. auto.
Qed.

(** A clipping loop over the indices [a, ..., a + len - 1], on the entries
    [off + i] of [X]. *)
Lemma clip_loop (flagsH flagsL : list bool) (valH valL : vec) (n off len : nat) :
  table_ok flagsH flagsL valH valL n ->
  forall (a : nat) (X : vec),
    (a + len <= n)%nat -> (off + n <= length X)%nat ->
    exists X',
      for_each (seq a len) (fun i (_ : unit) =>
        clip_high flagsH valH i (off + i) ;;; clip_low flagsL valL i (off + i)) tt X
        = (Ok tt, X') /\
      length X' = length X /\
      (forall j, (j < off + a \/ off + a + len <= j)%nat -> X' !! j = X !! j) /\
      (forall i, (a <= i < a + len)%nat ->
                 within flagsH flagsL valH valL i (off + i) X').
Proof.
  intros Hok. induction len as [| len IH]; intros a X Ha Hlen.
  - exists X. simpl. repeat split; auto. intros i Hi. lia.
  - destruct (clip_pair flagsH flagsL valH valL n a (off + a) X Hok ltac:(lia) ltac:(lia))
      as (v' & Hrun & Hin).
    destruct (IH (S a) (<[(off + a)%nat := v']> X) ltac:(lia)
                ltac:(rewrite length_insert; lia))
      as (X' & Hrest & HlenX' & Hkeep & Hall).
    exists X'. cbn [seq for_each].
    split; [rewrite (bind_run _ _ _ _ _ Hrun); exact Hrest |].
    split; [rewrite HlenX'; apply length_insert |]. split.
    + intros j Hj. rewrite Hkeep by lia. apply list_lookup_insert_ne. lia.
    + intros i Hi. destruct (decide (i = a)) as [-> | Hne].
      * destruct Hin as (v & Hv & Hb). exists v. split; [| exact Hb].
        rewrite Hkeep by lia. exact Hv.
      * apply Hall. lia.
Qed.

(** When every state is observed, [n_state = n_state_obs], the parameters are
    where [constrainedState] looks for them, and what it returns respects
    every active bound. *)
Lemma constrained_respects_bounds (self : ukfFMU) (X : vec) :
  n_state self = n_state_obs self ->
  length X = (n_state_obs self + n_pars self)%nat ->
  table_ok (ConstrStateHigh self) (ConstrStateLow self)
           (ConstrStateValueHigh self) (ConstrStateValueLow self) (n_state_obs self) ->
  table_ok (ConstrParsHigh self) (ConstrParsLow self)
           (ConstrParsValueHigh self) (ConstrParsValueLow self) (n_pars self) ->
  exists X',
    constrained self X = Ok X' /\
    (forall i, (i < n_state_obs self)%nat ->
       within (ConstrStateHigh self) (ConstrStateLow self)
              (ConstrStateValueHigh self) (ConstrStateValueLow self) i i X') /\
    (forall j, (j < n_pars self)%nat ->
       within (ConstrParsHigh self) (ConstrParsLow self)
              (ConstrParsValueHigh self) (ConstrParsValueLow self) j (n_state_obs self + j) X').
Proof.
  intros Hall HX Hst Hpa.
  destruct (clip_loop _ _ _ _ (n_state_obs self) 0 (n_state_obs self) Hst 0 X
              ltac:(lia) ltac:(lia)) as (X1 & Hrun1 & Hlen1 & Hkeep1 & Hin1).
  destruct (clip_loop _ _ _ _ (n_pars self) (n_state self) (n_pars self) Hpa 0 X1
              ltac:(lia) ltac:(lia)) as (X2 & Hrun2 & Hlen2 & Hkeep2 & Hin2).
  exists X2. unfold constrained, constrainedState, range.
  split; [| split].
  - rewrite (bind_run _ _ _ _ _ Hrun1). rewrite (bind_run _ _ _ _ _ Hrun2). reflexivity.
  - intros i Hi. destruct (Hin1 i ltac:(lia)) as (v & Hv & Hb).
    exists v. split; [| exact Hb]. rewrite Hkeep2 by lia. exact Hv.
  - intros j Hj. rewrite <- Hall. apply Hin2. lia.
Qed.

(** ** Sigma-point generator *)

(** C6.  When [x] has not [n_state_obs] entries or [pars] has not [n_pars]
    entries, [computeSigmaPoints] does not raise: it prints which vector has
    the wrong size ([x] is looked at first) and returns the empty array.
    This holds in both modes and for every factor. *)
Theorem computeSigmaPoints_wrong_size_returns_empty
    (self : ukfFMU) (x pars : vec) (sqrtP : matrix) (sqrtQ sqrtR : option matrix)
    (out : list printed) :
  length x <> n_state_obs self \/ length pars <> n_pars self ->
  computeSigmaPoints self x pars sqrtP sqrtQ sqrtR out =
  (Ok [], out ++ size_report self x pars).
Proof.
  intros H. unfold computeSigmaPoints, computeSigmaPoints_body, size_report.
  destruct (decide (length x = n_state_obs self)) as [Hx | Hx].
  - destruct H as [H | Hp]; [contradiction |].
    apply Nat.eqb_eq in Hx. rewrite Hx.
    apply Nat.eqb_neq in Hp. rewrite Hp. simpl.
    unfold bind, print, ret. simpl. rewrite <- !app_assoc. reflexivity.
  - apply Nat.eqb_neq in Hx. rewrite Hx. simpl.
    unfold bind, print, ret. simpl. rewrite <- !app_assoc. reflexivity.
Qed.

Lemma computeSigmaPoints_wrong_size_returns_empty_witness :
  (length [1; 2] <> n_state_obs example_ukf \/ length [5] <> n_pars example_ukf) /\
  computeSigmaPoints example_ukf [1; 2] [5] [[1; 0]; [0; 1]] None None [] =
  (Ok [], [PStr "The vector of state variables has a wrong size";
           PArr [1; 2];
           PStrNat "It should be long: " 1]).
Proof.
  assert (H : length [1; 2] <> n_state_obs example_ukf \/ length [5] <> n_pars example_ukf).
  { left. simpl. lia. }
  split; [exact H |].
  exact (computeSigmaPoints_wrong_size_returns_empty
           example_ukf [1; 2] [5] [[1; 0]; [0; 1]] None None [] H).
Defined.

(** ** Smoother *)

Lemma reverse_range_succ (n : nat) : reverse (range (S n)) = n :: reverse (range n).
Proof.
  unfold range. rewrite seq_S. rewrite reverse_app. reflexivity.
Qed.

(** C2 (the code on every trajectory with at least two time steps).  The
    first backward step, [k = K-2], reads [Xsmooth[k]] and [Ssmooth[k]] and
    calls [computeSigmaPoints] with these two arguments only.  The call
    raises [TypeError]: no sigma point is drawn and nothing is propagated,
    whatever the rest of the loop body does. *)
Theorem smooth_raises_TypeError
    (rest : nat -> matrix -> matrix * list matrix ->
            M (list printed) (matrix * list matrix))
    (self : ukfFMU) (time : vec) (Xhat : matrix) (S : list matrix)
    (out : list printed) :
  (2 <= length time)%nat ->
  (length time - 2 < length Xhat)%nat ->
  (length time - 2 < length S)%nat ->
  smooth rest self time Xhat S out = (Raise TypeError, out).
Proof.
  intros Ht HX HS. unfold smooth.
  destruct (length time) as [| [| n]] eqn:Hlen; [lia | lia |].
  replace (Datatypes.S (Datatypes.S n) - 1)%nat with (Datatypes.S n) by lia.
  replace (Datatypes.S (Datatypes.S n) - 2)%nat with n in HX, HS by lia.
  rewrite reverse_range_succ. simpl for_each.
  destruct (lookup_lt_is_Some_2 Xhat n HX) as [x_i Hx].
  destruct (lookup_lt_is_Some_2 S n HS) as [S_i Hs].
  unfold bind at 1. unfold smooth_step.
  unfold bind at 1. unfold lift at 1. simpl fst. rewrite (getitem_ok _ _ _ Hx).
  unfold bind at 1. unfold lift at 1. simpl snd. rewrite (getitem_ok _ _ _ Hs).
  unfold bind at 1. unfold call_computeSigmaPoints, raise. reflexivity.
Qed.

(** Whatever the trajectory buffers hold, [smooth] does not return once
    there are two time steps: the first backward step raises. *)
Lemma smooth_never_returns
    (rest : nat -> matrix -> matrix * list matrix ->
            M (list printed) (matrix * list matrix))
    (self : ukfFMU) (time : vec) (Xhat : matrix) (S : list matrix)
    (out : list printed) :
  (2 <= length time)%nat ->
  exists e : exn, smooth rest self time Xhat S out = (Raise e, out).
Proof.
  intros Ht. unfold smooth.
  destruct (length time) as [| [| n]] eqn:Hlen; [lia | lia |].
  replace (Datatypes.S (Datatypes.S n) - 1)%nat with (Datatypes.S n) by lia.
  rewrite reverse_range_succ. simpl for_each.
  unfold bind at 1. unfold smooth_step.
  unfold bind at 1. unfold lift at 1. simpl fst. unfold getitem at 1.
  destruct (Xhat !! n) as [x_i |]; [| eauto].
  unfold bind at 1. unfold lift at 1. simpl snd. unfold getitem at 1.
  destruct (S !! n) as [S_i |]; [| eauto].
  unfold bind at 1. unfold call_computeSigmaPoints, raise. eauto.
Qed.

Lemma smooth_raises_TypeError_witness :
  (2 <= length [0; 1])%nat /\
  (length [0; 1] - 2 < length [[1; 2]; [1; 2]])%nat /\
  (length [0; 1] - 2 < length [[[1; 0]; [0; 1]]; [[1; 0]; [0; 1]]])%nat /\
  smooth (fun _ _ tr => ret tr) (blank 1 1 1 1 false) [0; 1]
         [[1; 2]; [1; 2]] [[[1; 0]; [0; 1]]; [[1; 0]; [0; 1]]] [] =
  (Raise TypeError, []).
Proof.
  split; [simpl; lia |]. split; [simpl; lia |]. split; [simpl; lia |].
  apply (smooth_raises_TypeError (fun _ _ tr => ret tr)); simpl; lia.
Defined.

(** ** Cholesky update *)

Lemma bind_Ok_inv {S A B} (m : M S A) (f : A -> M S B) (s s' : S) (b : B) :
  bind m f s = (Ok b, s') ->
  exists a s1, m s = (Ok a, s1) /\ f a s1 = (Ok b, s').
Proof.
  unfold bind. destruct (m s) as [[a | e] s1]; intros H; [eauto | discriminate].
Qed.

Lemma lift_Ok_inv {S A} (r : res A) (s s' : S) (a : A) :
  lift r s = (Ok a, s') -> r = Ok a /\ s' = s.
Proof. unfold lift. intros H. inversion H. auto. Qed.

Lemma load_Ok_inv (l : loc) (h h' : store) (m : matrix) :
  load l h = (Ok m, h') -> h !! l = Some m /\ h' = h.
Proof. unfold load. destruct (h !! l); intros H; inversion H; auto. Qed.

(** *** The factor is copied: the caller's [L] is not written *)

Lemma writes_only_ret {A} (X : loc) (a : A) : writes_only X (ret a).
Proof. intros h l _. reflexivity. Qed.

Lemma writes_only_lift {A} (X : loc) (r : res A) : writes_only X (lift r).
Proof. intros h l _. reflexivity. Qed.

Lemma writes_only_load (X l0 : loc) : writes_only X (load l0).
Proof. intros h l _. unfold load. destruct (h !! l0); reflexivity. Qed.

Lemma writes_only_save (X : loc) (m : matrix) : writes_only X (save X m).
Proof. intros h l Hl. unfold save. simpl. apply lookup_insert_ne. congruence. Qed.

Lemma writes_only_bind {A B} (X : loc) (m : M store A) (f : A -> M store B) :
  writes_only X m -> (forall a, writes_only X (f a)) -> writes_only X (bind m f).
Proof.
  intros Hm Hf h l Hl. unfold bind.
  specialize (Hm h l Hl). destruct (m h) as [[a | e] h1]; simpl in *.
  - rewrite (Hf a h1 l Hl). exact Hm.
  - exact Hm.
Qed.

Lemma writes_only_for_each {A B} (X : loc) (l : list B) (body : B -> A -> M store A) :
  (forall i a, writes_only X (body i a)) ->
  forall a, writes_only X (for_each l body a).
Proof.
  intros Hb. induction l as [| i l IH]; intros a; simpl.
  - apply writes_only_ret.
  - apply writes_only_bind; [apply Hb | exact IH].
Qed.

Create HintDb frame.
#[local] Hint Resolve writes_only_ret writes_only_lift writes_only_load
  writes_only_save : frame.

Ltac frame_step :=
  repeat (apply writes_only_bind; [auto with frame | intros ?]); auto with frame.

Lemma cholUpdate_step_writes_only (signs : vec) (X : loc) (j k : nat) (Lc : matrix) :
  writes_only X (cholUpdate_step signs X j k Lc).
Proof. unfold cholUpdate_step. frame_step. Qed.

Lemma cholUpdate_writes_only (L X : loc) (W : vec) : writes_only X (cholUpdate L X W).
Proof.
  unfold cholUpdate. frame_step.
  apply writes_only_for_each. intros j Lc.
  apply writes_only_for_each. intros k0 Lc'.
  apply cholUpdate_step_writes_only.
Qed.

(** C7.  [cholUpdate(L, X, W)] works on the copy [L.copy()]: the array that
    the caller passed as [L] is the same after the call as before, whether
    the call returns or raises.  [L] and [X] are two arrays. *)
Theorem cholUpdate_leaves_L_unchanged (L X : loc) (W : vec) (h : store) :
  L <> X ->
  snd (cholUpdate L X W h) !! L = h !! L.
Proof. intros Hne. apply cholUpdate_writes_only. exact Hne. Qed.

(** *** One sign for all steps *)

Lemma cholUpdate_step_sign (signs signs' : vec) (X : loc) (j k : nat) (Lc : matrix)
    (h : store) :
  getitem signs 0 = getitem signs' 0 ->
  cholUpdate_step signs X j k Lc h = cholUpdate_step signs' X j k Lc h.
Proof. intros H. unfold cholUpdate_step. rewrite H. reflexivity. Qed.

(** C8.  The result of [cholUpdate(L, X, W)], the state of the arrays it
    leaves included, depends on [W] through [sign(W[0])] only: two sign
    vectors whose first entries have the same sign (or which are both empty)
    give the same outcome; their other entries, and their lengths, play no
    role.  Every step of every column reads [signs[0]]. *)
Theorem cholUpdate_depends_on_first_sign (L X : loc) (W W' : vec) (h : store) :
  np_sign <$> (W !! 0%nat) = np_sign <$> (W' !! 0%nat) ->
  cholUpdate L X W h = cholUpdate L X W' h.
Proof.
  intros H.
  assert (Hs : getitem (map np_sign W) 0 = getitem (map np_sign W') 0).
  { destruct W as [| w W], W' as [| w' W']; simpl in *; try discriminate; try reflexivity.
    unfold getitem. simpl. inversion H. reflexivity. }
  unfold cholUpdate. unfold bind.
  destruct (load L h) as [[Lc | e] h1]; [| reflexivity].
  destruct (load X h1) as [[Xm | e] h2]; [| reflexivity].
  apply for_each_ext. intros j Lc' s.
  apply for_each_ext. intros k0 Lc'' s'.
  apply cholUpdate_step_sign. exact Hs.
Qed.

Lemma cholUpdate_leaves_L_unchanged_witness :
  (0 <> 1)%nat /\
  snd (cholUpdate 0%nat 1%nat [1] example_store) !! 0%nat = Some [[3; 1]; [0; 1]].
Proof.
  split; [lia |].
  rewrite (cholUpdate_leaves_L_unchanged 0%nat 1%nat [1] example_store); [| lia].
  reflexivity.
Defined.

Lemma cholUpdate_depends_on_first_sign_witness :
  np_sign <$> ([-1; -1; -1] !! 0%nat) = np_sign <$> ([-5] !! 0%nat) /\
  cholUpdate 0%nat 1%nat [-1; -1; -1] example_store =
  cholUpdate 0%nat 1%nat [-5] example_store.
Proof.
  assert (H : np_sign <$> ([-1; -1; -1] !! 0%nat) = np_sign <$> ([-5] !! 0%nat)).
  { simpl. unfold np_sign. decide_reals. reflexivity. }
  split; [exact H |].
  exact (cholUpdate_depends_on_first_sign 0%nat 1%nat [-1; -1; -1] [-5] example_store H).
Defined.

(** *** The diagonal of the result *)

Lemma getitem2_lookup (A : matrix) (i j : nat) (d : R) :
  getitem2 A i j = Ok d <-> exists r, A !! i = Some r /\ r !! j = Some d.
Proof.
  unfold getitem2, getitem. split.
  - destruct (A !! i) as [r |]; simpl; [| discriminate].
    destruct (r !! j) eqn:E; intros H; inversion H; subst. eauto.
  - intros (r & -> & ->). reflexivity.
Qed.

Lemma setitem2_inv (A A' : matrix) (i j : nat) (a : R) :
  setitem2 A i j a = Ok A' ->
  exists r, A !! i = Some r /\ (j < length r)%nat /\ A' = <[i := <[j := a]> r]> A.
Proof.
  unfold setitem2, getitem. destruct (A !! i) as [r |] eqn:E; simpl; [| discriminate].
  destruct (setitem r j a) as [r' | e] eqn:Er; simpl; [| discriminate].
  apply setitem_inv in Er as [Hj ->]. intros H. apply setitem_inv in H as [_ ->].
  eauto.
Qed.

Lemma slice_update_inv (f : R -> R -> R) (v v' : vec) (a b : nat) (w : vec) :
  slice_update f v a b w = Ok v' ->
  exists t, v' = take a v ++ t ++ drop (a + length t) v.
Proof.
  unfold slice_update. destruct (bcast_into f (slice v a b) w) as [t | e]; [| discriminate].
  intros H. inversion H. eauto.
Qed.

Lemma sqrt_clamped_nonneg (a : R) : 0 <= (if Rlt_dec a 0 then 0 else sqrt a).
Proof. destruct (Rlt_dec a 0); [lra | apply sqrt_pos]. Qed.

(** A step stores a non-negative number at [[k,k]] and leaves the other rows
    of the factor as they are. *)
Lemma cholUpdate_step_diag (signs : vec) (X : loc) (j k : nat) (Lc Lc' : matrix)
    (h h' : store) :
  cholUpdate_step signs X j k Lc h = (Ok Lc', h') ->
  (exists rr, 0 <= rr /\ getitem2 Lc' k k = Ok rr) /\
  (forall k', k' <> k -> Lc' !! k' = Lc !! k').
Proof.
  unfold cholUpdate_step. intros H.
  apply bind_Ok_inv in H as (Lkk & h1 & E1 & H). apply lift_Ok_inv in E1 as [E1 ->].
  apply bind_Ok_inv in H as (sg & h1 & E2 & H). apply lift_Ok_inv in E2 as [E2 ->].
  apply bind_Ok_inv in H as (Xm & h1 & E3 & H). apply load_Ok_inv in E3 as [E3 ->].
  apply bind_Ok_inv in H as (xk & h1 & E4 & H). apply lift_Ok_inv in E4 as [E4 ->].
  cbn zeta in H.
  set (rr := if Rlt_dec (Lkk ^ 2 + sg * xk ^ 2) 0 then 0 else sqrt (Lkk ^ 2 + sg * xk ^ 2)) in H.
  apply bind_Ok_inv in H as (c & h1 & E5 & H). apply lift_Ok_inv in E5 as [E5 ->].
  apply bind_Ok_inv in H as (s & h1 & E6 & H). apply lift_Ok_inv in E6 as [E6 ->].
  apply bind_Ok_inv in H as (Lc1 & h1 & E7 & H). apply lift_Ok_inv in E7 as [E7 ->].
  apply bind_Ok_inv in H as (Lrow & h1 & E8 & H). apply lift_Ok_inv in E8 as [E8 ->].
  apply bind_Ok_inv in H as (xs & h1 & E9 & H). apply lift_Ok_inv in E9 as [E9 ->].
  apply bind_Ok_inv in H as (t & h1 & E10 & H). apply lift_Ok_inv in E10 as [E10 ->].
  apply bind_Ok_inv in H as (q & h1 & E11 & H). apply lift_Ok_inv in E11 as [E11 ->].
  apply bind_Ok_inv in H as (Lrow' & h1 & E12 & H). apply lift_Ok_inv in E12 as [E12 ->].
  apply bind_Ok_inv in H as (Lc2 & h1 & E13 & H). apply lift_Ok_inv in E13 as [E13 ->].
  apply bind_Ok_inv in H as (t' & h1 & E14 & H). apply lift_Ok_inv in E14 as [E14 ->].
  apply bind_Ok_inv in H as (xs' & h1 & E15 & H). apply lift_Ok_inv in E15 as [E15 ->].
  apply bind_Ok_inv in H as (u & h1 & E16 & H).
  unfold ret in H. inversion H; subst Lc' h'. clear H.
  apply setitem2_inv in E7 as (r & Hr & Hk & ->).
  apply getitem_inv in E8. rewrite list_lookup_insert_eq in E8 by (eapply lookup_lt_Some; eauto).
  inversion E8; subst Lrow. clear E8.
  apply slice_update_inv in E12 as (t0 & ->).
  apply setitem_inv in E13 as [Hlen ->].
  split.
  - exists rr. split; [apply sqrt_clamped_nonneg |].
    apply getitem2_lookup. eexists. split.
    + apply list_lookup_insert_eq. exact Hlen.
    + rewrite lookup_app_l by (rewrite length_take, length_insert; lia).
      rewrite lookup_take_lt by lia. apply list_lookup_insert_eq. exact Hk.
  - intros k' Hk'. rewrite !list_lookup_insert_ne by congruence. reflexivity.
Qed.





(** *** A run on two arrays *)

Lemma np_sign_pos (a : R) : 0 < a -> np_sign a = 1.
Proof. intros H. unfold np_sign. decide_reals. reflexivity. Qed.

Ltac decide_nats :=
  match goal with
  | |- context [decide ?P] =>
      destruct (decide P) as [? | ?];
      [try (exfalso; simpl in *; lia) | try (exfalso; simpl in *; lia)]
  end.

Lemma sqrt_25 : sqrt (3 * (3 * 1) + 1 * (4 * (4 * 1))) = 5.
Proof.
  replace (3 * (3 * 1) + 1 * (4 * (4 * 1))) with (5 * 5) by lra.
  apply sqrt_square. lra.
Qed.

Ltac decide_reals_nl :=
  repeat match goal with
         | |- context [Rlt_dec ?a ?b] =>
             destruct (Rlt_dec a b); [try (exfalso; nra) | try (exfalso; nra)]
         | |- context [Req_dec_T ?a ?b] =>
             destruct (Req_dec_T a b); [try (exfalso; nra) | try (exfalso; nra)]
         end.

Ltac run_store :=
  repeat first
    [ rewrite lookup_insert_eq
    | rewrite lookup_insert_ne by lia
    | rewrite sqrt_25
    | progress cbn
    | progress unfold np_div
    | progress decide_reals_nl
    | decide_nats ].

(** [cholUpdate] on [L = [[3, 1], [0, 1]]], [X = [[4], [t]]] and [W = [1]].
    Step [k = 0]: [rr = 5], [c = 5/3], [s = 4/3],
    [L[0,1] = (1 + 4/3 t) / (5/3) = 3/5 + 4/5 t] and
    [x[1] = 5/3 t - 4/3 (3/5 + 4/5 t) = 3/5 t - 4/5], written into [X].
    Step [k = 1]: [rr = sqrt(1 + x[1]^2)]; the slices are empty. *)
Lemma cholUpdate_example_family (t : R) :
  cholUpdate 0%nat 1%nat [1] (example_store_at t) =
  (Ok [[5; 3 / 5 + 4 / 5 * t]; [0; sqrt (1 + (3 / 5 * t - 4 / 5) ^ 2)]],
   <[1%nat := [[4]; [3 / 5 * t - 4 / 5]]]> (example_store_at t)).
Proof.
  unfold cholUpdate, example_store_at, bind, load, save, lift, ret.
  rewrite lookup_insert_ne by lia. rewrite lookup_insert_eq.
  rewrite lookup_insert_eq.
  cbn [length ncols hd range seq map for_each].
  rewrite np_sign_pos by lra.
  unfold cholUpdate_step, bind, load, save, lift, ret.
  unfold getitem2, getitem, setitem2, setitem, np_div, view_from, slice_update,
    bcast_into, bcast2, slice_from, slice, scale.
  run_store.
  rewrite !insert_insert_eq.
  repeat first [reflexivity | lra | progress f_equal].
Qed.

Lemma cholUpdate_example :
  cholUpdate 0%nat 1%nat [1] example_store =
  (Ok [[5; 7 / 5]; [0; sqrt (26 / 25)]],
   <[1%nat := [[4]; [-1 / 5]]]> example_store).
Proof.
  unfold example_store. rewrite cholUpdate_example_family.
  repeat first [reflexivity | lra | progress f_equal].
Qed.


(** C10.  [cholUpdate] writes into the array that the caller passed as [X]:
    the columns [x = X[0:,j]] are views, and [x[k+1:] = ...] stores into [X]
    itself.  For [L = [[3, 1], [0, 1]]], [X = [[4], [t]]] and [W = [1]] the
    call returns and leaves [[[4], [3/5 t - 4/5]]] in the caller's [X]: for
    every [t] but [-2] the array differs from what it was before the call.
    The caller's [L] is as before. *)
Theorem cholUpdate_mutates_X_in_place (t : R) :
  t <> -2 ->
  exists S Xafter : list (list R),
    example_store_at t !! 1%nat = Some [[4]; [t]] /\
    cholUpdate 0%nat 1%nat [1] (example_store_at t) =
      (Ok S, <[1%nat := Xafter]> (example_store_at t)) /\
    snd (cholUpdate 0%nat 1%nat [1] (example_store_at t)) !! 1%nat = Some Xafter /\
    Xafter = [[4]; [3 / 5 * t - 4 / 5]] /\
    Xafter <> [[4]; [t]] /\
    snd (cholUpdate 0%nat 1%nat [1] (example_store_at t)) !! 0%nat =
      example_store_at t !! 0%nat.
Proof.
  intros Ht. eexists. exists [[4]; [3 / 5 * t - 4 / 5]].
  rewrite cholUpdate_example_family. cbn [snd].
  split; [reflexivity |].
  split; [reflexivity |].
  split; [apply lookup_insert_eq |].
  split; [reflexivity |].
  split; [intros H; inversion H; lra |].
  apply lookup_insert_ne. lia.
Qed.

Lemma cholUpdate_mutates_X_in_place_witness :
  1 <> -2 /\
  snd (cholUpdate 0%nat 1%nat [1] (example_store_at 1)) !! 1%nat
    = Some [[4]; [3 / 5 * 1 - 4 / 5]] /\
  [[4]; [3 / 5 * 1 - 4 / 5]] <> [[4]; [1]].
Proof.
  assert (H : 1 <> -2) by lra.
  destruct (cholUpdate_mutates_X_in_place 1 H)
    as (S & Xafter & _ & _ & Hafter & HX & Hne & _).
  subst Xafter. split; [exact H |]. split; [exact Hafter | exact Hne].
Defined.

(** ** Sigma points without constraints *)

Lemma for_each_noop {S B} (l : list B) (body : B -> unit -> M S unit) (s : S) :
  (forall i, i ∈ l -> forall s, body i tt s = (Ok tt, s)) ->
  for_each l body tt s = (Ok tt, s).
Proof.
  induction l as [| i l IH]; intros H; simpl.
  - reflexivity.
  - rewrite (bind_run _ _ _ _ _ (H i (list_elem_of_here i l) s)).
    apply IH. intros i' Hi'. apply H. apply list_elem_of_further. exact Hi'.
Qed.

Lemma clip_high_inactive (n : nat) (bounds : vec) (i idx : nat) (X : vec) :
  (i < n)%nat -> clip_high (replicate n false) bounds i idx X = (Ok tt, X).
Proof.
  intros Hi. unfold clip_high.
  rewrite (bind_run _ _ _ X false); [reflexivity |].
  unfold lift. rewrite (getitem_ok _ _ false); [reflexivity |].
  apply lookup_replicate_2. exact Hi.
Qed.

Lemma clip_low_inactive (n : nat) (bounds : vec) (i idx : nat) (X : vec) :
  (i < n)%nat -> clip_low (replicate n false) bounds i idx X = (Ok tt, X).
Proof.
  intros Hi. unfold clip_low.
  rewrite (bind_run _ _ _ X false); [reflexivity |].
  unfold lift. rewrite (getitem_ok _ _ false); [reflexivity |].
  apply lookup_replicate_2. exact Hi.
Qed.

Lemma constrained_inactive (self : ukfFMU) (X : vec) :
  no_constraints self -> constrained self X = Ok X.
Proof.
  intros (H1 & H2 & H3 & H4). unfold constrained, constrainedState.
  rewrite H1, H2, H3, H4.
  rewrite (bind_run _ _ _ X tt).
  - rewrite (bind_run _ _ _ X tt); [reflexivity |].
    apply for_each_noop. intros i Hi s. unfold range in Hi. apply elem_of_seq in Hi.
    rewrite (bind_run _ _ _ s tt); [| apply clip_high_inactive; lia].
    apply clip_low_inactive. lia.
  - apply for_each_noop. intros i Hi s. unfold range in Hi. apply elem_of_seq in Hi.
    rewrite (bind_run _ _ _ s tt); [| apply clip_high_inactive; lia].
    apply clip_low_inactive. lia.
Qed.

Lemma bcast_into_same (f : R -> R -> R) (t w : vec) :
  length w = length t -> bcast_into f t w = Ok (zip_with f t w).
Proof.
  intros H. unfold bcast_into.
  destruct (decide (length w = length t)); [reflexivity | contradiction].
Qed.

Lemma slice_update_parts (f : R -> R -> R) (v1 v2 v3 w : vec) (b : nat) :
  length w = length v2 ->
  take (b - length v1) (v2 ++ v3) = v2 ->
  slice_update f (v1 ++ v2 ++ v3) (length v1) b w = Ok (v1 ++ zip_with f v2 w ++ v3).
Proof.
  intros Hw Hb. unfold slice_update, slice.
  rewrite drop_app_length. rewrite Hb. rewrite bcast_into_same by exact Hw.
  rewrite take_app_length. rewrite length_zip_with. rewrite Hw, Nat.min_id.
  rewrite drop_app_add'; [| reflexivity]. rewrite drop_app_length. reflexivity.
Qed.

(** The two slice updates of a row, in the two forms of the source. *)
Lemma row_updates (f : R -> R -> R) (c : R) (x pars row : vec) :
  length row = (length x + length pars)%nat ->
  exists v1 : vec,
    slice_update f (x ++ pars) 0 (length x) (scale c (slice row 0 (length x))) = Ok v1 /\
    slice_update f v1 (length x) (length x + length pars)
      (scale c (slice_from row (length x))) = Ok (zip_with f (x ++ pars) (scale c row)) /\
    slice_update f v1 (length x) (length v1)
      (scale c (slice_from row (length x))) = Ok (zip_with f (x ++ pars) (scale c row)).
Proof.
  intros Hrow.
  assert (Hr : row = take (length x) row ++ drop (length x) row)
    by (symmetry; apply take_drop).
  set (r1 := take (length x) row) in *. set (r2 := drop (length x) row) in *.
  assert (Hr1 : length r1 = length x) by (unfold r1; rewrite length_take; lia).
  assert (Hr2 : length r2 = length pars) by (unfold r2; rewrite length_drop; lia).
  assert (Hz : length (zip_with f x (scale c r1)) = length x).
  { rewrite length_zip_with. unfold scale. rewrite length_map. lia. }
  exists (zip_with f x (scale c r1) ++ pars).
  assert (Hfull : zip_with f (x ++ pars) (scale c row) =
                  zip_with f x (scale c r1) ++ zip_with f pars (scale c r2)).
  { rewrite Hr. unfold scale. rewrite map_app. rewrite zip_with_app; [reflexivity |].
    rewrite length_map. lia. }
  split; [| split].
  - unfold slice. rewrite Nat.sub_0_r, drop_0. fold r1.
    apply (slice_update_parts f [] x pars (scale c r1) (length x)).
    + unfold scale. rewrite length_map. exact Hr1.
    + simpl. rewrite Nat.sub_0_r. apply take_app_length.
  - rewrite Hfull. unfold slice_from. fold r2. rewrite <- Hz.
    rewrite <- (app_nil_r (zip_with f pars (scale c r2))).
    rewrite <- (app_nil_r pars) at 1.
    apply slice_update_parts.
    + unfold scale. rewrite length_map. exact Hr2.
    + rewrite app_nil_r. apply take_ge. lia.
  - rewrite Hfull. unfold slice_from. fold r2.
    rewrite length_app. rewrite <- Hz at 1.
    rewrite <- (app_nil_r (zip_with f pars (scale c r2))).
    rewrite <- (app_nil_r pars) at 1.
    apply slice_update_parts.
    + unfold scale. rewrite length_map. exact Hr2.
    + rewrite app_nil_r. apply take_ge. rewrite Hz. lia.
Qed.

Lemma Xs_set_row_run (i : nat) (r : vec) (f : frame) :
  (i < length (Xs f))%nat ->
  Xs_set_row i r f = (Ok tt, mkFrame (<[i := r]> (Xs f)) (stdout f)).
Proof.
  intros Hi. unfold Xs_set_row.
  rewrite (bind_run _ _ _ f f) by reflexivity.
  rewrite (bind_run _ _ _ f (<[i := r]> (Xs f)));
    [reflexivity | unfold lift; rewrite setitem_ok by exact Hi; reflexivity].
Qed.

Lemma Xs_slice_op_run (op : R -> R -> R) (i a b : nat) (w r r' : vec) (f : frame) :
  Xs f !! i = Some r ->
  slice_update op r a b w = Ok r' ->
  Xs_slice_op op i a b w f = (Ok tt, mkFrame (<[i := r']> (Xs f)) (stdout f)).
Proof.
  intros Hr Hu. unfold Xs_slice_op.
  rewrite (bind_run _ _ _ f f) by reflexivity.
  rewrite (bind_run _ _ _ f r) by (unfold lift; rewrite (getitem_ok _ _ _ Hr); reflexivity).
  rewrite (bind_run _ _ _ f r') by (unfold lift; rewrite Hu; reflexivity).
  apply Xs_set_row_run. eapply lookup_lt_Some. exact Hr.
Qed.

Lemma Xs_slice_from_op_run (op : R -> R -> R) (i a : nat) (w r r' : vec) (f : frame) :
  Xs f !! i = Some r ->
  slice_update op r a (length r) w = Ok r' ->
  Xs_slice_from_op op i a w f = (Ok tt, mkFrame (<[i := r']> (Xs f)) (stdout f)).
Proof.
  intros Hr Hu. unfold Xs_slice_from_op.
  rewrite (bind_run _ _ _ f f) by reflexivity.
  rewrite (bind_run _ _ _ f r) by (unfold lift; rewrite (getitem_ok _ _ _ Hr); reflexivity).
  rewrite (bind_run _ _ _ f r') by (unfold lift; rewrite Hu; reflexivity).
  apply Xs_set_row_run. eapply lookup_lt_Some. exact Hr.
Qed.

Lemma Xs_constrain_row_run (self : ukfFMU) (i : nat) (r : vec) (f : frame) :
  no_constraints self ->
  Xs f !! i = Some r ->
  Xs_constrain_row self i f = (Ok tt, mkFrame (<[i := r]> (Xs f)) (stdout f)).
Proof.
  intros Hc Hr. unfold Xs_constrain_row.
  rewrite (bind_run _ _ _ f f) by reflexivity.
  rewrite (bind_run _ _ _ f r) by (unfold lift; rewrite (getitem_ok _ _ _ Hr); reflexivity).
  rewrite (bind_run _ _ _ f r)
    by (unfold lift; rewrite (constrained_inactive _ _ Hc); reflexivity).
  apply Xs_set_row_run. eapply lookup_lt_Some. exact Hr.
Qed.

Lemma catch_ValueError_ok {S A} (m h : M S A) (s s' : S) (a : A) :
  m s = (Ok a, s') -> catch_ValueError m h s = (Ok a, s').
Proof. intros H. unfold catch_ValueError. rewrite H. reflexivity. Qed.

(** Reads through writes of rows. *)
Ltac rows :=
  repeat first
    [ rewrite list_lookup_insert_eq by (rewrite ?length_insert; lia)
    | rewrite list_lookup_insert_ne by lia ].

Section SigmaPoints.

Variable self : ukfFMU.
Variables x pars : vec.

Hypothesis Hmode : augmented self = false.
Hypothesis HN : N self = (n_state_obs self + n_pars self)%nat.
Hypothesis Hfree : no_constraints self.
Hypothesis Hx : length x = n_state_obs self.
Hypothesis Hpars : length pars = n_pars self.

(** One pass of the loop body writes the two rows of [row] and goes on. *)
Lemma sigma_loop_step (row : vec) (rest : list (list R)) (i : nat) (f : frame) :
  length row = N self ->
  (0 < N self)%nat ->
  (i + N self < length (Xs f))%nat ->
  sigma_loop self (x ++ pars) (row :: rest) i f =
  sigma_loop self (x ++ pars) rest (i + 1)
    (mkFrame (<[(i + N self)%nat := zip_with Rminus (x ++ pars) (scale (sqrtC self) row)]>
                (<[i := zip_with Rplus (x ++ pars) (scale (sqrtC self) row)]> (Xs f)))
             (stdout f)).
Proof.
  intros Hrow HNpos Hi.
  assert (Hrow' : length row = (length x + length pars)%nat) by lia.
  destruct (row_updates Rplus (sqrtC self) x pars row Hrow') as (p1 & Hp1 & Hp2 & _).
  destruct (row_updates Rminus (sqrtC self) x pars row Hrow') as (m1 & Hm1 & _ & Hm2).
  rewrite Hx in Hp1, Hp2, Hm1, Hm2. rewrite Hpars in Hp2.
  set (plus := zip_with Rplus (x ++ pars) (scale (sqrtC self) row)) in *.
  set (minus := zip_with Rminus (x ++ pars) (scale (sqrtC self) row)) in *.
  cbn [sigma_loop]. cbn zeta. rewrite Hmode.
  erewrite bind_run; [| apply Xs_set_row_run; lia].
  erewrite bind_run; [| apply Xs_set_row_run; cbn [Xs]; rewrite length_insert; lia].
  erewrite bind_run.
  2:{ apply catch_ValueError_ok.
      erewrite bind_run.
      2:{ erewrite bind_run;
            [| eapply Xs_slice_op_run; [cbn [Xs]; rows; reflexivity | exact Hp1]].
          erewrite bind_run;
            [| eapply Xs_slice_op_run; [cbn [Xs]; rows; reflexivity | exact Hp2]].
          erewrite bind_run;
            [| eapply Xs_slice_op_run; [cbn [Xs]; rows; reflexivity | exact Hm1]].
          eapply Xs_slice_from_op_run; [cbn [Xs]; rows; reflexivity | exact Hm2]. }
      reflexivity. }
  cbn iota.
  erewrite bind_run;
    [| eapply Xs_constrain_row_run; [exact Hfree | cbn [Xs]; rows; reflexivity]].
  erewrite bind_run;
    [| eapply Xs_constrain_row_run; [exact Hfree | cbn [Xs]; rows; reflexivity]].
  cbn [Xs stdout]. f_equal. f_equal.
  apply list_eq. intros j.
  destruct (decide (j = (i + N self)%nat)) as [-> | Hj1]; [rows; reflexivity |].
  destruct (decide (j = i)) as [-> | Hj2]; rows; reflexivity.
Qed.

Lemma length_plus_minus_row (f : R -> R -> R) (row : vec) :
  length row = N self ->
  length (zip_with f (x ++ pars) (scale (sqrtC self) row)) = N self.
Proof.
  intros Hrow. rewrite length_zip_with, length_app. unfold scale. rewrite length_map. lia.
Qed.

(** The loop from the row counter [1 + d] on: the rows that are still to come
    are written at [1 + d + t] and [1 + d + t + N], the others stay. *)
Lemma sigma_loop_ok (rest : list (list R)) :
  forall (d : nat) (f : frame),
    (d + length rest = N self)%nat ->
    Forall (fun r => length r = N self) rest ->
    length (Xs f) = (1 + 2 * N self)%nat ->
    exists M' : list (list R),
      sigma_loop self (x ++ pars) rest (1 + d) f = (Ok M', mkFrame M' (stdout f)) /\
      length M' = (1 + 2 * N self)%nat /\
      (Forall (fun r => length r = N self) (Xs f) ->
       Forall (fun r => length r = N self) M') /\
      (forall j, (j <= d \/ (N self < j /\ j <= N self + d))%nat -> M' !! j = Xs f !! j) /\
      (forall t row, rest !! t = Some row ->
         M' !! (1 + d + t)%nat = Some (zip_with Rplus (x ++ pars) (scale (sqrtC self) row)) /\
         M' !! (1 + d + t + N self)%nat =
           Some (zip_with Rminus (x ++ pars) (scale (sqrtC self) row))).
Proof.
  induction rest as [| row rest IH]; intros d f Hd Hrows Hlen.
  - exists (Xs f). cbn [sigma_loop]. split; [destruct f; reflexivity |].
    split; [exact Hlen |]. split; [auto |]. split; [reflexivity |].
    intros t row Ht. rewrite lookup_nil in Ht. discriminate.
  - cbn [length] in Hd. apply Forall_cons in Hrows as [Hrow Hrows].
    rewrite sigma_loop_step by (try exact Hrow; lia).
    replace (1 + d + 1)%nat with (1 + S d)%nat by lia.
    set (plus := zip_with Rplus (x ++ pars) (scale (sqrtC self) row)).
    set (minus := zip_with Rminus (x ++ pars) (scale (sqrtC self) row)).
    destruct (IH (S d) (mkFrame (<[(1 + d + N self)%nat := minus]>
                                   (<[(1 + d)%nat := plus]> (Xs f))) (stdout f)))
      as (M' & Hrun & HlenM & Hall & Hkeep & Hnew).
    + lia.
    + exact Hrows.
    + cbn [Xs]. rewrite !length_insert. exact Hlen.
    + exists M'. cbn [Xs stdout] in *.
      split; [exact Hrun |]. split; [exact HlenM |]. split; [| split].
      * intros HXs. apply Hall.
        apply Forall_insert; [apply Forall_insert; [exact HXs |] |];
          apply length_plus_minus_row; exact Hrow.
      * intros j Hj. rewrite Hkeep by lia. rows. reflexivity.
      * intros t row' Ht. destruct t as [| t].
        -- cbn in Ht. inversion Ht; subst row'.
           rewrite !Nat.add_0_r. rewrite !Hkeep by lia.
           split; rows; reflexivity.
        -- cbn in Ht. destruct (Hnew t row' Ht) as [Hp Hm].
           replace (1 + d + S t)%nat with (1 + S d + t)%nat by lia.
           split; assumption.
Qed.

End SigmaPoints.

(** C5.  Not augmented, no constraint active, [x] of length [n_state_obs],
    [pars] of length [n_pars], [sqrtP] with [N = n_state_obs + n_pars] rows of
    length [N]: [computeSigmaPoints] prints nothing and returns a matrix of
    [1 + 2N] rows of length [N]; row 0 is [x] followed by [pars]; for
    [1 <= i <= N], with [F] the [i]-th row of [sqrtP] (index [i - 1]), row [i]
    is row 0 plus [sqrtC * F] and row [i + N] is row 0 minus [sqrtC * F],
    entry by entry. *)
Theorem computeSigmaPoints_rows
    (self : ukfFMU) (x pars : vec) (sqrtP : list (list R))
    (sqrtQ sqrtR : option (list (list R))) (out : list printed) :
  augmented self = false ->
  N self = (n_state_obs self + n_pars self)%nat ->
  n_points self = (1 + 2 * N self)%nat ->
  no_constraints self ->
  length x = n_state_obs self ->
  length pars = n_pars self ->
  length sqrtP = N self ->
  Forall (fun r => length r = N self) sqrtP ->
  exists S : list (list R),
    computeSigmaPoints self x pars sqrtP sqrtQ sqrtR out = (Ok S, out) /\
    length S = (1 + 2 * N self)%nat /\
    Forall (fun r => length r = N self) S /\
    S !! 0%nat = Some (x ++ pars) /\
    (forall (i : nat) (F : vec),
        (1 <= i <= N self)%nat ->
        sqrtP !! (i - 1)%nat = Some F ->
        S !! i = Some (zip_with Rplus (x ++ pars) (scale (sqrtC self) F)) /\
        S !! (i + N self)%nat = Some (zip_with Rminus (x ++ pars) (scale (sqrtC self) F))).
Proof.
  intros Hmode HN Hpoints Hfree Hx Hpars HP Hrows.
  unfold computeSigmaPoints, computeSigmaPoints_body.
  rewrite (proj2 (Nat.eqb_eq _ _) Hx), (proj2 (Nat.eqb_eq _ _) Hpars). cbn [negb].
  rewrite Hmode, Hpoints, <- HN.
  erewrite bind_run; [| reflexivity].
  erewrite bind_run; [| reflexivity].
  cbn [fst snd].
  erewrite bind_run;
    [| apply Xs_set_row_run; cbn [Xs]; unfold zeros2; rewrite length_replicate; lia].
  cbn [Xs stdout].
  destruct (sigma_loop_ok self x pars Hmode HN Hfree Hx Hpars sqrtP 0
              (mkFrame (<[0%nat := x ++ pars]> (zeros2 (1 + 2 * N self) (N self))) out))
    as (S & Hrun & HlenS & Hall & Hkeep & Hnew).
  - lia.
  - exact Hrows.
  - cbn [Xs]. rewrite length_insert. unfold zeros2. rewrite length_replicate. reflexivity.
  - exists S. cbn [Xs stdout] in *. change (1 + 0)%nat with 1%nat in Hrun.
    rewrite Hrun. cbn [fst snd stdout].
    split; [reflexivity |]. split; [exact HlenS |]. split; [| split].
    + apply Hall. apply Forall_insert.
      * unfold zeros2. apply Forall_replicate. unfold zeros. apply length_replicate.
      * rewrite length_app. lia.
    + rewrite Hkeep by lia. apply list_lookup_insert_eq.
      unfold zeros2. rewrite length_replicate. lia.
    + intros i F Hi HF. destruct (Hnew (i - 1)%nat F HF) as [Hp Hm].
      replace (1 + 0 + (i - 1))%nat with i in Hp, Hm by lia.
      split; assumption.
Qed.

Lemma computeSigmaPoints_rows_witness :
  augmented example_ukf = false /\
  N example_ukf = (n_state_obs example_ukf + n_pars example_ukf)%nat /\
  n_points example_ukf = (1 + 2 * N example_ukf)%nat /\
  no_constraints example_ukf /\
  length [1] = n_state_obs example_ukf /\
  length [2] = n_pars example_ukf /\
  length [[3; 0]; [4; 5]] = N example_ukf /\
  Forall (fun r : list R => length r = N example_ukf) [[3; 0]; [4; 5]] /\
  exists S : list (list R),
    computeSigmaPoints example_ukf [1] [2] [[3; 0]; [4; 5]] None None [] = (Ok S, []) /\
    S !! 0%nat = Some [1; 2] /\
    S !! 2%nat = Some (zip_with Rplus [1; 2] (scale (sqrtC example_ukf) [4; 5])) /\
    S !! 4%nat = Some (zip_with Rminus [1; 2] (scale (sqrtC example_ukf) [4; 5])).
Proof.
  assert (H1 : augmented example_ukf = false) by reflexivity.
  assert (H2 : N example_ukf = (n_state_obs example_ukf + n_pars example_ukf)%nat)
    by reflexivity.
  assert (H3 : n_points example_ukf = (1 + 2 * N example_ukf)%nat) by reflexivity.
  assert (H4 : no_constraints example_ukf) by (repeat split).
  assert (H5 : length [1] = n_state_obs example_ukf) by reflexivity.
  assert (H6 : length [2] = n_pars example_ukf) by reflexivity.
  assert (H7 : length [[3; 0]; [4; 5]] = N example_ukf) by reflexivity.
  assert (H8 : Forall (fun r : list R => length r = N example_ukf) [[3; 0]; [4; 5]])
    by (repeat constructor).
  repeat (split; [assumption |]).
  destruct (computeSigmaPoints_rows example_ukf [1] [2] [[3; 0]; [4; 5]] None None []
              H1 H2 H3 H4 H5 H6 H7 H8) as (S & Hrun & _ & _ & H0 & Hrow).
  exists S. split; [exact Hrun |]. split; [exact H0 |].
  apply (Hrow 2%nat [4; 5]); [simpl; lia | reflexivity].
Defined.

(** * Further properties *)

(** ** The constructor and the weight table *)

Lemma sqrtC_default (n : nat) : default_alpha * sqrt (3 - INR n + INR n) = 1.
Proof.
  replace (3 - INR n + INR n) with 3 by lra. unfold default_alpha.
  assert (H3 : 0 < sqrt 3) by (apply sqrt_lt_R0; lra).
  field. lra.
Qed.

(** X1.  The constructor returns an object exactly when the sizes are sound:
    [0 <= n_state_obs <= n_state], [n_pars >= 0], [n_outputs >= 0].  The
    default hyperparameters never make the weight table fail. *)
Theorem init_succeeds_iff (num_states num_obs num_pars num_outs : Z) (aug : bool) :
  (exists self, init num_states num_obs num_pars num_outs aug = Ok self) <->
  (0 <= num_obs <= num_states /\ 0 <= num_pars /\ 0 <= num_outs)%Z.
Proof.
  split.
  - intros [self H]. unfold init in H.
    destruct (decide (num_obs > num_states)%Z); [discriminate |].
    destruct (decide (num_pars < 0)%Z); [discriminate |].
    destruct (decide (num_outs < 0)%Z); [discriminate |].
    destruct (decide (num_obs < 0)%Z); [discriminate |]. lia.
  - intros (Hobs & Hpars & Houts).
    exists (with_params default_alpha default_beta None
              (blank (Z.to_nat num_states) (Z.to_nat num_obs) (Z.to_nat num_pars)
                     (Z.to_nat num_outs) aug)).
    rewrite <- (init_ok (Z.to_nat num_states) (Z.to_nat num_obs) (Z.to_nat num_pars)
                        (Z.to_nat num_outs) aug) by lia.
    rewrite !Z2Nat.id by lia. reflexivity.
Qed.

(** X2.  The object that the constructor builds: [N] counts the observed states
    and the parameters (twice, and the outputs, when augmented), there are
    [1 + 2N] sigma points, the defaults give [k = 3 - N], [lambda = 1 - N],
    [sqrtC = 1], the weights [W_m = [1 - N, 1/2, ..., 1/2]] and
    [W_c = [1 - N + 8/3, 1/2, ..., 1/2]], and no constraint is active. *)
Theorem init_defaults (ns nso npa no : nat) (aug : bool) :
  (nso <= ns)%nat ->
  exists self,
    init (Z.of_nat ns) (Z.of_nat nso) (Z.of_nat npa) (Z.of_nat no) aug = Ok self /\
    n_state self = ns /\ n_state_obs self = nso /\ n_pars self = npa /\
    n_outputs self = no /\ augmented self = aug /\
    N self = (if aug then nso + npa + nso + npa + no else nso + npa)%nat /\
    n_points self = (1 + 2 * N self)%nat /\
    k self = 3 - INR (N self) /\
    lambd self = 1 - INR (N self) /\
    sqrtC self = 1 /\
    W_m self = (1 - INR (N self)) :: replicate (2 * N self) (1 / 2) /\
    W_c self = (1 - INR (N self) + 8 / 3) :: replicate (2 * N self) (1 / 2) /\
    no_constraints self.
Proof.
  intros Hle. eexists. split; [apply init_ok; exact Hle |].
  set (n := if aug then (nso + npa + nso + npa + no)%nat else (nso + npa)%nat).
  assert (Hl : default_alpha ^ 2 * (INR n + (3 - INR n)) - INR n = 1 - INR n).
  { rewrite default_alpha_sq. lra. }
  do 7 (split; [reflexivity |]).
  unfold with_params, effective_k.
  cbn -[default_alpha default_beta INR sqrt Nat.mul pow replicate weights_m weights_c].
  fold n. rewrite Hl.
  split; [reflexivity |]. split; [reflexivity |].
  split; [apply sqrtC_default |].
  split; [| split; [| repeat split]].
  - unfold weights_m. f_equal; [field; lra | f_equal; field; lra].
  - unfold weights_c. rewrite default_alpha_sq. unfold default_beta.
    f_equal; [field; lra | f_equal; field; lra].
Qed.

Lemma init_defaults_witness :
  (1 <= 2)%nat /\
  exists self,
    init 2 1 1 1 false = Ok self /\ N self = 2%nat /\ lambd self = -1 /\
    W_m self = [-1; 1 / 2; 1 / 2; 1 / 2; 1 / 2].
Proof.
  split; [lia |].
  destruct (init_defaults 2 1 1 1 false) as
    (self & Hinit & _ & _ & _ & _ & _ & HN & _ & _ & Hl & _ & Hm & _); [lia |].
  exists self. cbn in HN. split; [exact Hinit |]. split; [exact HN |].
  rewrite Hl, Hm, HN. split; [simpl; lra |].
  simpl. f_equal. lra.
Defined.

Lemma weights_c_sum (n : nat) (l a b : R) :
  INR n + l <> 0 -> foldr Rplus 0 (weights_c n l a b) = 1 + (1 - a ^ 2 + b).
Proof.
  intros H. unfold weights_c. cbn [foldr]. rewrite sum_replicate.
  rewrite mult_INR. change (INR 2) with 2. field. exact H.
Qed.

(** X3.  After a successful [setUKFparams] the two weight vectors have one entry
    per sigma point ([1 + 2N]), they differ in the first entry only, by
    [1 - alpha^2 + beta], and the covariance weights sum to
    [1 + (1 - alpha^2 + beta)]. *)
Theorem covariance_weights (alpha0 beta0 : R) (k0 : option R) (self self' : ukfFMU) :
  setUKFparams alpha0 beta0 k0 self = (Ok tt, self') ->
  length (W_m self') = (1 + 2 * N self)%nat /\
  length (W_c self') = (1 + 2 * N self)%nat /\
  (forall i, (1 <= i)%nat -> W_c self' !! i = W_m self' !! i) /\
  (forall wm wc, W_m self' !! 0%nat = Some wm -> W_c self' !! 0%nat = Some wc ->
                 wc = wm + (1 - alpha0 ^ 2 + beta0)) /\
  foldr Rplus 0 (W_c self') = 1 + (1 - alpha0 ^ 2 + beta0).
Proof.
  intros Hrun.
  destruct (Req_dec_T alpha0 0) as [Ha | Ha].
  { pose proof (setUKFparams_breaks alpha0 beta0 k0 self (or_introl Ha)) as Hb.
    rewrite Hrun in Hb. discriminate. }
  destruct (Rle_dec (INR (N self) + effective_k self k0) 0) as [Hk | Hk].
  { pose proof (setUKFparams_breaks alpha0 beta0 k0 self (or_intror Hk)) as Hb.
    rewrite Hrun in Hb. discriminate. }
  rewrite setUKFparams_ok in Hrun by lra. inversion Hrun; subst self'. clear Hrun.
  assert (Hnz : INR (N self) +
                (alpha0 ^ 2 * (INR (N self) + effective_k self k0) - INR (N self)) <> 0).
  { assert (0 < alpha0 ^ 2) by nra.
    assert (0 < alpha0 ^ 2 * (INR (N self) + effective_k self k0))
      by (apply Rmult_lt_0_compat; lra).
    lra. }
  unfold with_params. cbn [W_m W_c set_W_c set_W_m].
  split; [unfold weights_m; cbn [length]; rewrite length_replicate; lia |].
  split; [unfold weights_c; cbn [length]; rewrite length_replicate; lia |].
  split; [| split].
  - intros i Hi. destruct i as [| i]; [lia |]. reflexivity.
  - intros wm wc Hm Hc. unfold weights_m in Hm. unfold weights_c in Hc.
    cbn in Hm, Hc. inversion Hm. inversion Hc. reflexivity.
  - apply weights_c_sum. exact Hnz.
Qed.

Lemma covariance_weights_witness :
  setUKFparams 1 2 (Some 2) (blank 2 1 1 1 false) = (Ok tt, example_ukf) /\
  foldr Rplus 0 (W_c example_ukf) = 1 + (1 - 1 ^ 2 + 2).
Proof.
  assert (H : setUKFparams 1 2 (Some 2) (blank 2 1 1 1 false) = (Ok tt, example_ukf)).
  { apply setUKFparams_ok; [lra | simpl; lra]. }
  split; [exact H |].
  apply (covariance_weights 1 2 (Some 2) (blank 2 1 1 1 false) example_ukf H).
Defined.

(** X4.  [setUKFparams] runs through exactly when [alpha <> 0] and [N + kappa > 0];
    otherwise the computation leaves the real numbers: it takes the square
    root of [N + kappa < 0] or divides by [N + lambda = 0]. *)
Theorem setUKFparams_succeeds_iff (alpha0 beta0 : R) (k0 : option R) (self : ukfFMU) :
  (fst (setUKFparams alpha0 beta0 k0 self) = Ok tt <->
   alpha0 <> 0 /\ 0 < INR (N self) + effective_k self k0) /\
  (fst (setUKFparams alpha0 beta0 k0 self) <> Ok tt ->
   fst (setUKFparams alpha0 beta0 k0 self) = Raise NonFinite).
Proof.
  assert (Hcases : (alpha0 <> 0 /\ 0 < INR (N self) + effective_k self k0) \/
                   (alpha0 = 0 \/ INR (N self) + effective_k self k0 <= 0)).
  { destruct (Req_dec_T alpha0 0); [right; left; assumption |].
    destruct (Rle_dec (INR (N self) + effective_k self k0) 0); [right; right; assumption |].
    left. split; [assumption | lra]. }
  destruct Hcases as [[Ha Hk] | Hbad].
  - rewrite setUKFparams_ok by assumption. cbn [fst].
    split; [split; auto | intros H; contradiction].
  - rewrite (setUKFparams_breaks _ _ _ _ Hbad).
    split; [| reflexivity].
    split; [discriminate |]. intros [Ha Hk]. destruct Hbad; [contradiction | lra].
Qed.

Lemma setDefaultUKFparams_ok (self : ukfFMU) :
  let l := (1 / 100) ^ 2 * (INR (N self) + 1) - INR (N self) in
  setDefaultUKFparams self =
  (Ok tt,
   set_W_c (weights_c (N self) l (1 / 100) 2)
     (set_W_m (weights_m (N self) l)
        (set_sqrtC (1 / 100 * sqrt (INR (N self) + 1))
           (set_lambd l (set_beta 2 (set_k 1 (set_alpha (1 / 100) self))))))).
Proof.
  intros l. unfold setDefaultUKFparams.
  unfold bind at 1. unfold assign at 1.
  unfold bind at 1. unfold assign at 1.
  unfold bind at 1. unfold assign at 1.
  unfold bind at 1. unfold get at 1.
  unfold bind at 1. unfold assign at 1.
  unfold bind at 1. unfold lift at 1.
  cbn [alpha k N set_alpha set_k set_beta].
  pose proof (pos_INR (N self)) as Hn.
  rewrite np_sqrt_ok by lra.
  unfold bind at 1. unfold assign at 1.
  rewrite computeWeights_ok; [reflexivity |].
  cbn [lambd N set_sqrtC set_lambd set_alpha set_k set_beta]. lra.
Qed.

(** X5.  [setDefaultUKFparams] ([alpha = 0.01], [k = 1], [beta = 2]) always runs
    through.  The mean weights sum to one, and as soon as there is a state or
    a parameter ([N >= 1]) the weights of the centre point, [W_m[0]] and
    [W_c[0]], are negative. *)
Theorem setDefaultUKFparams_centre_weights_negative (self : ukfFMU) :
  (1 <= N self)%nat ->
  exists self' wm wc,
    setDefaultUKFparams self = (Ok tt, self') /\
    foldr Rplus 0 (W_m self') = 1 /\
    W_m self' !! 0%nat = Some wm /\ wm < 0 /\
    W_c self' !! 0%nat = Some wc /\ wc < 0.
Proof.
  intros HN. rewrite setDefaultUKFparams_ok. cbn zeta.
  set (n := INR (N self)).
  assert (Hn : 1 <= n) by (unfold n; replace 1 with (INR 1) by reflexivity; apply le_INR; exact HN).
  set (l := (1 / 100) ^ 2 * (n + 1) - n).
  assert (Hnl : n + l = (n + 1) / 10000) by (unfold l; field).
  assert (Hwm : l / (n + l) < -4000).
  { rewrite Hnl. unfold l.
    apply (Rmult_lt_reg_r ((n + 1) / 10000)); [lra |].
    unfold Rdiv at 1. rewrite Rmult_assoc, Rinv_l by lra. lra. }
  eexists. exists (l / (n + l)), (l / (n + l) + (1 - (1 / 100) ^ 2 + 2)).
  split; [reflexivity |]. cbn [W_m W_c set_W_c set_W_m].
  split; [apply weights_m_sum; fold n; fold l; rewrite Hnl; lra |].
  split; [reflexivity |]. split; [lra |]. split; [reflexivity |]. lra.
Qed.

Lemma setDefaultUKFparams_centre_weights_negative_witness :
  (1 <= N (blank 2 1 1 1 false))%nat /\
  exists self' wm, setDefaultUKFparams (blank 2 1 1 1 false) = (Ok tt, self') /\
                   W_m self' !! 0%nat = Some wm /\ wm < 0.
Proof.
  assert (H : (1 <= N (blank 2 1 1 1 false))%nat) by (simpl; lia).
  split; [exact H |].
  destruct (setDefaultUKFparams_centre_weights_negative (blank 2 1 1 1 false) H)
    as (self' & wm & wc & Hrun & _ & Hm & Hneg & _).
  exists self', wm. auto.
Defined.

(** ** Constraint clipping *)

(** X6.  With the constraint table as the constructor leaves it,
    [constrainedState] returns every vector as it is, whatever its length. *)
Theorem constrainedState_inactive_identity (self : ukfFMU) (X : vec) :
  no_constraints self ->
  constrainedState self X = (Ok X, X).
Proof.
  intros Hfree. pose proof (constrained_inactive self X Hfree) as H.
  unfold constrained in H. destruct (constrainedState self X) as [r X'] eqn:E.
  cbn in H. subst r. f_equal.
  assert (Hst : snd (constrainedState self X) = X').
  { rewrite E. reflexivity. }
  unfold constrainedState in E.
  apply bind_Ok_inv in E as (u1 & X1 & _ & E).
  apply bind_Ok_inv in E as (u2 & X2 & _ & E).
  unfold get in E. inversion E. reflexivity.
Qed.

Lemma constrainedState_inactive_identity_witness :
  no_constraints example_ukf /\
  constrainedState example_ukf [7; -3; 12] = (Ok [7; -3; 12], [7; -3; 12]).
Proof.
  assert (H : no_constraints example_ukf) by (repeat split).
  split; [exact H |]. apply constrainedState_inactive_identity. exact H.
Defined.


Lemma clip_pair_exact (flagsH flagsL : list bool) (valH valL : vec) (n i idx : nat)
    (X : vec) (v : R) :
  table_sized flagsH flagsL valH valL n ->
  (i < n)%nat -> X !! idx = Some v ->
  (clip_high flagsH valH i idx ;;; clip_low flagsL valL i idx) X
  = (Ok tt, <[idx := clamp_entry flagsH flagsL valH valL i v]> X).
Proof.
  intros (H1 & H2 & H3 & H4) Hi Hv.
  assert (Hidx : (idx < length X)%nat) by (eapply lookup_lt_Some; exact Hv).
  destruct (lookup_lt_is_Some_2 flagsH i ltac:(lia)) as [fh Hfh].
  destruct (lookup_lt_is_Some_2 flagsL i ltac:(lia)) as [fl Hfl].
  destruct (lookup_lt_is_Some_2 valH i ltac:(lia)) as [bh Hbh].
  destruct (lookup_lt_is_Some_2 valL i ltac:(lia)) as [bl Hbl].
  unfold clamp_entry, flag_at, bound_at. rewrite Hfh, Hfl, Hbh, Hbl.
  set (v1 := if fh then (if Rgt_dec v bh then bh else v) else v).
  assert (Hhigh : clip_high flagsH valH i idx X = (Ok tt, <[idx := v1]> X)).
  { unfold clip_high, bind, lift, get, put, ret, v1.
    rewrite (getitem_ok _ _ _ Hfh). destruct fh.
    - rewrite (getitem_ok _ _ _ Hv), (getitem_ok _ _ _ Hbh).
      destruct (Rgt_dec v bh).
      + rewrite setitem_ok by exact Hidx. reflexivity.
      + rewrite list_insert_id by exact Hv. reflexivity.
    - rewrite list_insert_id by exact Hv. reflexivity. }
  rewrite (bind_run _ _ _ _ _ Hhigh).
  assert (Hv1 : <[idx := v1]> X !! idx = Some v1)
    by (apply list_lookup_insert_eq; exact Hidx).
  unfold clip_low, bind, lift, get, put, ret.
  rewrite (getitem_ok _ _ _ Hfl). destruct fl.
  - rewrite (getitem_ok _ _ _ Hv1), (getitem_ok _ _ _ Hbl).
    destruct (Rlt_dec v1 bl).
    + rewrite setitem_ok by (rewrite length_insert; exact Hidx).
      rewrite list_insert_insert_eq. reflexivity.
    + reflexivity.
  - reflexivity.
Qed.

Lemma clip_loop_exact (flagsH flagsL : list bool) (valH valL : vec) (n off len : nat) :
  table_sized flagsH flagsL valH valL n ->
  forall (a : nat) (X : vec),
    (a + len <= n)%nat -> (off + a + len <= length X)%nat ->
    exists X',
      for_each (seq a len) (fun i (_ : unit) =>
        clip_high flagsH valH i (off + i) ;;; clip_low flagsL valL i (off + i)) tt X
        = (Ok tt, X') /\
      length X' = length X /\
      (forall j, (j < off + a \/ off + a + len <= j)%nat -> X' !! j = X !! j) /\
      (forall i, (a <= i < a + len)%nat ->
         X' !! (off + i)%nat = clamp_entry flagsH flagsL valH valL i <$> X !! (off + i)%nat).
Proof.
  intros Hok. induction len as [| len IH]; intros a X Ha Hlen.
  - exists X. simpl. repeat split; auto. intros i Hi. lia.
  - destruct (lookup_lt_is_Some_2 X (off + a)%nat ltac:(lia)) as [v Hv].
    pose proof (clip_pair_exact flagsH flagsL valH valL n a (off + a) X v Hok ltac:(lia) Hv)
      as Hrun.
    destruct (IH (S a) (<[(off + a)%nat := clamp_entry flagsH flagsL valH valL a v]> X)
                ltac:(lia) ltac:(rewrite length_insert; lia))
      as (X' & Hrest & HlenX' & Hkeep & Hall).
    exists X'. cbn [seq for_each].
    split; [rewrite (bind_run _ _ _ _ _ Hrun); exact Hrest |].
    split; [rewrite HlenX'; apply length_insert |]. split.
    + intros j Hj. rewrite Hkeep by lia. apply list_lookup_insert_ne. lia.
    + intros i Hi. destruct (decide (i = a)) as [-> | Hne].
      * rewrite Hkeep by lia. rewrite Hv. cbn.
        apply list_lookup_insert_eq. lia.
      * rewrite Hall by lia. rewrite list_lookup_insert_ne by lia. reflexivity.
Qed.

(** What [constrainedState] returns when the parameters lie where it looks
    for them: every entry clipped on its own. *)
Lemma constrained_exact (self : ukfFMU) (X : vec) :
  n_state self = n_state_obs self ->
  length X = (n_state_obs self + n_pars self)%nat ->
  table_sized (ConstrStateHigh self) (ConstrStateLow self)
              (ConstrStateValueHigh self) (ConstrStateValueLow self) (n_state_obs self) ->
  table_sized (ConstrParsHigh self) (ConstrParsLow self)
              (ConstrParsValueHigh self) (ConstrParsValueLow self) (n_pars self) ->
  exists X',
    constrained self X = Ok X' /\
    length X' = length X /\
    (forall i, (i < n_state_obs self)%nat ->
       X' !! i = clamp_entry (ConstrStateHigh self) (ConstrStateLow self)
                   (ConstrStateValueHigh self) (ConstrStateValueLow self) i <$> X !! i) /\
    (forall j, (j < n_pars self)%nat ->
       X' !! (n_state_obs self + j)%nat =
       clamp_entry (ConstrParsHigh self) (ConstrParsLow self)
         (ConstrParsValueHigh self) (ConstrParsValueLow self) j
         <$> X !! (n_state_obs self + j)%nat).
Proof.
  intros Hall HX Hst Hpa.
  destruct (clip_loop_exact _ _ _ _ (n_state_obs self) 0 (n_state_obs self) Hst 0 X
              ltac:(lia) ltac:(lia)) as (X1 & Hrun1 & Hlen1 & Hkeep1 & Hin1).
  destruct (clip_loop_exact _ _ _ _ (n_pars self) (n_state self) (n_pars self) Hpa 0 X1
              ltac:(lia) ltac:(lia)) as (X2 & Hrun2 & Hlen2 & Hkeep2 & Hin2).
  exists X2. unfold constrained, constrainedState, range.
  split; [| split; [| split]].
  - rewrite (bind_run _ _ _ _ _ Hrun1). rewrite (bind_run _ _ _ _ _ Hrun2). reflexivity.
  - lia.
  - intros i Hi. rewrite Hkeep2 by lia. apply (Hin1 i). lia.
  - intros j Hj. rewrite <- Hall. rewrite Hin2 by lia. rewrite Hkeep1 by lia. reflexivity.
Qed.

Lemma clamp_entry_idem (flagsH flagsL : list bool) (valH valL : vec) (i : nat) (v : R) :
  clamp_entry flagsH flagsL valH valL i (clamp_entry flagsH flagsL valH valL i v)
  = clamp_entry flagsH flagsL valH valL i v.
Proof.
  unfold clamp_entry.
  destruct (flag_at flagsH i), (flag_at flagsL i);
    repeat match goal with
           | |- context [Rgt_dec ?a ?b] => destruct (Rgt_dec a b)
           | |- context [Rlt_dec ?a ?b] => destruct (Rlt_dec a b)
           end; try reflexivity; try lra.
Qed.

(** X7.  Clipping twice is clipping once: when every state is observed, the
    vector that [constrainedState] returns is returned unchanged by a second
    call, also where an upper bound lies below the lower one. *)
Theorem constrainedState_idempotent (self : ukfFMU) (X X' : vec) :
  n_state self = n_state_obs self ->
  length X = (n_state_obs self + n_pars self)%nat ->
  table_sized (ConstrStateHigh self) (ConstrStateLow self)
              (ConstrStateValueHigh self) (ConstrStateValueLow self) (n_state_obs self) ->
  table_sized (ConstrParsHigh self) (ConstrParsLow self)
              (ConstrParsValueHigh self) (ConstrParsValueLow self) (n_pars self) ->
  constrained self X = Ok X' ->
  constrained self X' = Ok X'.
Proof.
  intros Hall HX Hst Hpa Hrun.
  destruct (constrained_exact self X Hall HX Hst Hpa) as (X1 & Hrun1 & Hlen1 & Hs1 & Hp1).
  rewrite Hrun in Hrun1. inversion Hrun1; subst X1. clear Hrun1.
  destruct (constrained_exact self X' Hall ltac:(lia) Hst Hpa)
    as (X2 & Hrun2 & Hlen2 & Hs2 & Hp2).
  rewrite Hrun2. f_equal. apply list_eq. intros j.
  destruct (decide (j < n_state_obs self)%nat) as [Hj | Hj].
  - rewrite Hs2 by exact Hj. rewrite Hs1 by exact Hj.
    destruct (X !! j); cbn; [| reflexivity]. rewrite clamp_entry_idem. reflexivity.
  - destruct (decide (j < n_state_obs self + n_pars self)%nat) as [Hj' | Hj'].
    + replace j with (n_state_obs self + (j - n_state_obs self))%nat by lia.
      rewrite Hp2 by lia. rewrite Hp1 by lia.
      destruct (X !! (n_state_obs self + (j - n_state_obs self))%nat); cbn; [| reflexivity].
      rewrite clamp_entry_idem. reflexivity.
    + rewrite !lookup_ge_None_2 by lia. reflexivity.
Qed.

Lemma table_ok_sized (flagsH flagsL : list bool) (valH valL : vec) (n : nat) :
  table_ok flagsH flagsL valH valL n -> table_sized flagsH flagsL valH valL n.
Proof. intros (H1 & H2 & H3 & H4 & _). repeat split; assumption. Qed.

Lemma clamp_entry_fix (flagsH flagsL : list bool) (valH valL : vec) (n i idx : nat)
    (X : vec) (v : R) :
  table_sized flagsH flagsL valH valL n -> (i < n)%nat ->
  X !! idx = Some v ->
  within flagsH flagsL valH valL i idx X ->
  clamp_entry flagsH flagsL valH valL i v = v.
Proof.
  intros (L1 & L2 & L3 & L4) Hi Hv (v' & Hv' & Hh & Hl).
  rewrite Hv in Hv'. inversion Hv'; subst v'. clear Hv'.
  destruct (lookup_lt_is_Some_2 valH i ltac:(lia)) as [bh Ebh].
  destruct (lookup_lt_is_Some_2 valL i ltac:(lia)) as [bl Ebl].
  unfold clamp_entry, flag_at, bound_at. rewrite Ebh, Ebl.
  destruct (flagsH !! i) as [[|] |] eqn:Efh; destruct (flagsL !! i) as [[|] |] eqn:Efl;
    try (pose proof (Hh bh eq_refl Ebh)); try (pose proof (Hl bl eq_refl Ebl));
    repeat match goal with
           | |- context [Rgt_dec ?a ?b] => destruct (Rgt_dec a b)
           | |- context [Rlt_dec ?a ?b] => destruct (Rlt_dec a b)
           end; try reflexivity; try lra.
Qed.

(** X8.  When every state is observed ([n_state = n_state_obs]) and no active
    pair of bounds is empty, [constrainedState] returns a vector of the same
    length in which every observed state and every parameter respects its
    active bounds; an entry that respected them already is not changed. *)
Theorem constrainedState_respects_bounds (self : ukfFMU) (X : vec) :
  n_state self = n_state_obs self ->
  length X = (n_state_obs self + n_pars self)%nat ->
  table_ok (ConstrStateHigh self) (ConstrStateLow self)
           (ConstrStateValueHigh self) (ConstrStateValueLow self) (n_state_obs self) ->
  table_ok (ConstrParsHigh self) (ConstrParsLow self)
           (ConstrParsValueHigh self) (ConstrParsValueLow self) (n_pars self) ->
  exists X',
    constrained self X = Ok X' /\
    length X' = length X /\
    (forall i, (i < n_state_obs self)%nat ->
       within (ConstrStateHigh self) (ConstrStateLow self)
              (ConstrStateValueHigh self) (ConstrStateValueLow self) i i X' /\
       (within (ConstrStateHigh self) (ConstrStateLow self)
               (ConstrStateValueHigh self) (ConstrStateValueLow self) i i X ->
        X' !! i = X !! i)) /\
    (forall j, (j < n_pars self)%nat ->
       within (ConstrParsHigh self) (ConstrParsLow self)
              (ConstrParsValueHigh self) (ConstrParsValueLow self) j
              (n_state_obs self + j) X' /\
       (within (ConstrParsHigh self) (ConstrParsLow self)
               (ConstrParsValueHigh self) (ConstrParsValueLow self) j
               (n_state_obs self + j) X ->
        X' !! (n_state_obs self + j)%nat = X !! (n_state_obs self + j)%nat)).
Proof.
  intros Hall HX Hst Hpa.
  destruct (constrained_respects_bounds self X Hall HX Hst Hpa) as (X1 & Hrun1 & Hs1 & Hp1).
  destruct (constrained_exact self X Hall HX (table_ok_sized _ _ _ _ _ Hst)
              (table_ok_sized _ _ _ _ _ Hpa)) as (X' & Hrun & Hlen & Hs & Hp).
  rewrite Hrun in Hrun1. inversion Hrun1; subst X1. clear Hrun1.
  exists X'. split; [exact Hrun |]. split; [exact Hlen |]. split.
  - intros i Hi. split; [apply Hs1; exact Hi |].
    intros Hw. rewrite Hs by exact Hi. destruct Hw as (v & Hv & Hw).
    rewrite Hv. cbn. f_equal.
    apply (clamp_entry_fix _ _ _ _ (n_state_obs self) i i X v (table_ok_sized _ _ _ _ _ Hst) Hi Hv). exists v. auto.
  - intros j Hj. split; [apply Hp1; exact Hj |].
    intros Hw. rewrite Hp by exact Hj. destruct Hw as (v & Hv & Hw).
    rewrite Hv. cbn. f_equal.
    apply (clamp_entry_fix _ _ _ _ (n_pars self) j (n_state_obs self + j)%nat X v (table_ok_sized _ _ _ _ _ Hpa) Hj Hv). exists v. auto.
Qed.

Lemma example_ukf_bounded_tables :
  table_ok (ConstrStateHigh example_ukf_bounded) (ConstrStateLow example_ukf_bounded)
           (ConstrStateValueHigh example_ukf_bounded)
           (ConstrStateValueLow example_ukf_bounded) (n_state_obs example_ukf_bounded) /\
  table_ok (ConstrParsHigh example_ukf_bounded) (ConstrParsLow example_ukf_bounded)
           (ConstrParsValueHigh example_ukf_bounded)
           (ConstrParsValueLow example_ukf_bounded) (n_pars example_ukf_bounded).
Proof.
  split; (repeat split; intros [| i] bh bl Hh Hl; cbn in Hh, Hl; discriminate).
Qed.

Lemma constrainedState_respects_bounds_witness :
  n_state example_ukf_bounded = n_state_obs example_ukf_bounded /\
  length [0; 3] = (n_state_obs example_ukf_bounded + n_pars example_ukf_bounded)%nat /\
  exists X', constrained example_ukf_bounded [0; 3] = Ok X' /\ length X' = 2%nat /\
             within (ConstrParsHigh example_ukf_bounded) (ConstrParsLow example_ukf_bounded)
                    (ConstrParsValueHigh example_ukf_bounded)
                    (ConstrParsValueLow example_ukf_bounded) 0 1 X'.
Proof.
  split; [reflexivity |]. split; [reflexivity |].
  destruct example_ukf_bounded_tables as [Hst Hpa].
  destruct (constrainedState_respects_bounds example_ukf_bounded [0; 3]
              eq_refl eq_refl Hst Hpa) as (X' & Hrun & Hlen & _ & Hp).
  exists X'. split; [exact Hrun |]. split; [exact Hlen |].
  apply (Hp 0%nat). cbn. lia.
Defined.

Lemma constrainedState_idempotent_witness :
  n_state example_ukf_bounded = n_state_obs example_ukf_bounded /\
  length [0; 3] = (n_state_obs example_ukf_bounded + n_pars example_ukf_bounded)%nat /\
  constrained example_ukf_bounded [0; 3] = Ok [0; 3 / 2] /\
  constrained example_ukf_bounded [0; 3 / 2] = Ok [0; 3 / 2].
Proof.
  split; [reflexivity |]. split; [reflexivity |].
  assert (Hrun : constrained example_ukf_bounded [0; 3] = Ok [0; 3 / 2]).
  { unfold constrained, constrainedState. simpl.
    unfold clip_high, clip_low, bind, lift, get, put, ret. simpl.
    decide_reals. reflexivity. }
  split; [exact Hrun |].
  destruct example_ukf_bounded_tables as [Hst Hpa].
  exact (constrainedState_idempotent example_ukf_bounded [0; 3] [0; 3 / 2]
           eq_refl eq_refl (table_ok_sized _ _ _ _ _ Hst) (table_ok_sized _ _ _ _ _ Hpa) Hrun).
Defined.

Lemma clip_pair_cases (flagsH flagsL : list bool) (valH valL : vec) (n i idx : nat)
    (X : vec) :
  table_sized flagsH flagsL valH valL n -> (i < n)%nat ->
  (idx < length X)%nat \/ (flag_at flagsH i = false /\ flag_at flagsL i = false) ->
  exists X', (clip_high flagsH valH i idx ;;; clip_low flagsL valL i idx) X = (Ok tt, X') /\
             length X' = length X.
Proof.
  intros Hok Hi [Hidx | [Hh Hl]].
  - destruct (lookup_lt_is_Some_2 X idx Hidx) as [v Hv].
    eexists. split; [eapply clip_pair_exact; eauto |]. apply length_insert.
  - exists X. split; [| reflexivity].
    destruct Hok as (H1 & H2 & _).
    destruct (lookup_lt_is_Some_2 flagsH i ltac:(lia)) as [fh Hfh].
    destruct (lookup_lt_is_Some_2 flagsL i ltac:(lia)) as [fl Hfl].
    unfold flag_at in Hh, Hl. rewrite Hfh in Hh. rewrite Hfl in Hl. subst fh fl.
    unfold clip_high, clip_low, bind, lift, ret.
    rewrite (getitem_ok _ _ _ Hfh), (getitem_ok _ _ _ Hfl). reflexivity.
Qed.

Lemma clip_pair_out_of_range (flagsH flagsL : list bool) (valH valL : vec) (n i idx : nat)
    (X : vec) :
  table_sized flagsH flagsL valH valL n -> (i < n)%nat ->
  (length X <= idx)%nat ->
  flag_at flagsH i = true \/ flag_at flagsL i = true ->
  (clip_high flagsH valH i idx ;;; clip_low flagsL valL i idx) X = (Raise IndexError, X).
Proof.
  intros (H1 & H2 & _) Hi Hidx Hact.
  destruct (lookup_lt_is_Some_2 flagsH i ltac:(lia)) as [fh Hfh].
  destruct (lookup_lt_is_Some_2 flagsL i ltac:(lia)) as [fl Hfl].
  unfold flag_at in Hact. rewrite Hfh, Hfl in Hact.
  assert (Hnone : X !! idx = None) by (apply lookup_ge_None_2; exact Hidx).
  unfold clip_high, clip_low, bind, lift, get, ret, getitem.
  rewrite Hfh, Hfl.
  destruct fh; [rewrite Hnone; reflexivity |].
  destruct fl; [rewrite Hnone; reflexivity |].
  destruct Hact; discriminate.
Qed.

Lemma clip_loop_out_of_range (flagsH flagsL : list bool) (valH valL : vec) (n off j : nat) :
  table_sized flagsH flagsL valH valL n ->
  flag_at flagsH j = true \/ flag_at flagsL j = true ->
  forall (len a : nat) (X : vec),
    (a <= j < a + len)%nat -> (a + len <= n)%nat -> (length X <= off + j)%nat ->
    exists X',
      for_each (seq a len) (fun i (_ : unit) =>
        clip_high flagsH valH i (off + i) ;;; clip_low flagsL valL i (off + i)) tt X
      = (Raise IndexError, X') /\ length X' = length X.
Proof.
  intros Hok Hact. induction len as [| len IH]; intros a X Hj Hn Hlen; [lia |].
  cbn [seq for_each].
  destruct (decide (length X <= off + a)%nat) as [Hout | Hin].
  - destruct (flag_at flagsH a) eqn:Efh; [| destruct (flag_at flagsL a) eqn:Efl].
    + exists X. split; [| reflexivity]. unfold bind at 1.
      rewrite (clip_pair_out_of_range flagsH flagsL valH valL n a (off + a) X Hok
                 ltac:(lia) Hout (or_introl Efh)). reflexivity.
    + exists X. split; [| reflexivity]. unfold bind at 1.
      rewrite (clip_pair_out_of_range flagsH flagsL valH valL n a (off + a) X Hok
                 ltac:(lia) Hout (or_intror Efl)). reflexivity.
    + assert (Hne : a <> j) by (intros ->; destruct Hact; congruence).
      destruct (clip_pair_cases flagsH flagsL valH valL n a (off + a) X Hok ltac:(lia)
                  (or_intror (conj Efh Efl))) as (X1 & Hrun & Hlen1).
      destruct (IH (S a) X1 ltac:(lia) ltac:(lia) ltac:(lia)) as (X' & Hrest & Hlen').
      exists X'. split; [| lia]. rewrite (bind_run _ _ _ _ _ Hrun). exact Hrest.
  - assert (Hne : a <> j) by lia.
    assert (Hin' : (off + a < length X)%nat) by lia.
    destruct (clip_pair_cases flagsH flagsL valH valL n a (off + a) X Hok ltac:(lia)
                (or_introl Hin')) as (X1 & Hrun & Hlen1).
    destruct (IH (S a) X1 ltac:(lia) ltac:(lia) ltac:(lia)) as (X' & Hrest & Hlen').
    exists X'. split; [| lia]. rewrite (bind_run _ _ _ _ _ Hrun). exact Hrest.
Qed.

(** X9.  The parameters are looked for at [n_state + j], not where the sigma
    points keep them ([n_state_obs + j]).  As soon as an active bound of a
    parameter is looked for beyond the end of the vector, which a vector of
    [n_state_obs + n_pars] entries allows when some state is not observed,
    [constrainedState] raises [IndexError]. *)
Theorem constrainedState_raises_IndexError (self : ukfFMU) (X : vec) (j : nat) :
  table_sized (ConstrStateHigh self) (ConstrStateLow self)
              (ConstrStateValueHigh self) (ConstrStateValueLow self) (n_state_obs self) ->
  table_sized (ConstrParsHigh self) (ConstrParsLow self)
              (ConstrParsValueHigh self) (ConstrParsValueLow self) (n_pars self) ->
  (n_state_obs self <= length X)%nat ->
  (j < n_pars self)%nat ->
  ConstrParsHigh self !! j = Some true \/ ConstrParsLow self !! j = Some true ->
  (length X <= n_state self + j)%nat ->
  constrained self X = Raise IndexError.
Proof.
  intros Hst Hpa HX Hj Hact Hout.
  destruct (clip_loop_exact _ _ _ _ (n_state_obs self) 0 (n_state_obs self) Hst 0 X
              ltac:(lia) ltac:(lia)) as (X1 & Hrun1 & Hlen1 & _).
  assert (Hact' : flag_at (ConstrParsHigh self) j = true \/
                  flag_at (ConstrParsLow self) j = true).
  { unfold flag_at. destruct Hact as [-> | ->]; auto. }
  destruct (clip_loop_out_of_range _ _ _ _ (n_pars self) (n_state self) j Hpa Hact'
              (n_pars self) 0%nat X1 ltac:(lia) ltac:(lia) ltac:(lia))
    as (X2 & Hrun2 & _).
  unfold constrained, constrainedState, range.
  rewrite (bind_run _ _ _ _ _ Hrun1).
  unfold bind at 1. rewrite Hrun2. reflexivity.
Qed.

Lemma constrainedState_raises_IndexError_witness :
  (n_state_obs example_ukf_hidden <= length [0; 3])%nat /\
  (0 < n_pars example_ukf_hidden)%nat /\
  (length [0; 3] <= n_state example_ukf_hidden + 0)%nat /\
  constrained example_ukf_hidden [0; 3] = Raise IndexError.
Proof.
  assert (H1 : (n_state_obs example_ukf_hidden <= length [0; 3])%nat) by (simpl; lia).
  assert (H2 : (0 < n_pars example_ukf_hidden)%nat) by (simpl; lia).
  assert (H3 : (length [0; 3] <= n_state example_ukf_hidden + 0)%nat) by (simpl; lia).
  split; [exact H1 |]. split; [exact H2 |]. split; [exact H3 |].
  apply (constrainedState_raises_IndexError example_ukf_hidden [0; 3] 0%nat);
    [repeat split | repeat split | exact H1 | exact H2 | left; reflexivity | exact H3].
Defined.

(** ** The smoother on short trajectories *)

(** X10.  [smooth] runs to its end exactly when there are fewer than two time
    steps.  The loop body is then never entered: nothing is printed and the
    buffers [Xsmooth] and [Ssmooth] are the copies of [Xhat] and [S]. *)
Theorem smooth_completes_iff
    (rest : nat -> matrix -> matrix * list matrix ->
            M (list printed) (matrix * list matrix))
    (self : ukfFMU) (time : vec) (Xhat : matrix) (S : list matrix)
    (out : list printed) :
  (fst (smooth rest self time Xhat S out) = Ok (Xhat, S) /\
   snd (smooth rest self time Xhat S out) = out <-> (length time < 2)%nat) /\
  ((exists r, fst (smooth rest self time Xhat S out) = Ok r) <-> (length time < 2)%nat).
Proof.
  assert (Hshort : (length time < 2)%nat -> smooth rest self time Xhat S out = (Ok (Xhat, S), out)).
  { intros Hlt. unfold smooth.
    replace (length time - 1)%nat with 0%nat by lia. reflexivity. }
  assert (Hlong : forall r, fst (smooth rest self time Xhat S out) = Ok r -> (length time < 2)%nat).
  { intros r Hr. destruct (le_lt_dec 2 (length time)) as [Hge | Hlt]; [| exact Hlt].
    destruct (smooth_never_returns rest self time Xhat S out Hge) as [e He].
    rewrite He in Hr. discriminate. }
  split; split.
  - intros [Hr _]. exact (Hlong _ Hr).
  - intros Hlt. rewrite (Hshort Hlt). split; reflexivity.
  - intros [r Hr]. exact (Hlong _ Hr).
  - intros Hlt. rewrite (Hshort Hlt). eexists. reflexivity.
Qed.

(** ** The correction of [ukf_step], every state observed *)

Lemma zip_with_minus_self (z : vec) : zip_with Rminus z z = zeros (length z).
Proof.
  induction z as [| a z IH]; [reflexivity |].
  cbn. rewrite IH. f_equal. lra.
Qed.

Lemma dot_zeros (r : vec) (n : nat) : dot r (zeros n) = 0.
Proof.
  unfold dot, zeros. revert n. induction r as [| a r IH]; intros [| n]; cbn; try reflexivity.
  rewrite IH. lra.
Qed.

Lemma matvec_zeros (K : matrix) (n : nat) :
  Forall (fun r => length r = n) K -> matvec K (zeros n) = Ok (zeros (length K)).
Proof.
  induction 1 as [| r K Hr _ IH]; [reflexivity |].
  cbn [matvec].
  assert (Hl : length (zeros n) = n) by apply length_replicate.
  rewrite Hl.
  destruct (decide (length r = n)) as [_ | Hne]; [| contradiction].
  rewrite IH, dot_zeros. reflexivity.
Qed.

Lemma zip_with_plus_zeros (v : vec) : zip_with Rplus v (zeros (length v)) = v.
Proof.
  induction v as [| a v IH]; [reflexivity |].
  cbn. unfold zeros in IH. rewrite IH. f_equal. lra.
Qed.

(** X11.  A measurement that equals the predicted output does not move the
    estimate: with [z = Zave], a gain [K] of one row per entry of [Xave] and
    one column per output, the correction returns what [constrainedState]
    makes of the predicted mean [Xave]. *)
Theorem ukf_step_correction_zero_innovation (self : ukfFMU) (Xave : vec) (K : matrix)
    (z : vec) :
  length z = n_outputs self ->
  length K = length Xave ->
  Forall (fun r => length r = n_outputs self) K ->
  ukf_step_correction self Xave K z z = constrained self Xave.
Proof.
  intros Hz HK Hrows. unfold ukf_step_correction.
  destruct (decide (length z = n_outputs self)) as [_ | Hne]; [| contradiction].
  unfold bcast2 at 1.
  destruct (decide (length z = length z)) as [_ | Hne]; [| contradiction].
  rewrite zip_with_minus_self, Hz, (matvec_zeros K _ Hrows).
  unfold bcast2.
  assert (Hl : length (zeros (length K)) = length K) by apply length_replicate.
  rewrite Hl.
  destruct (decide (length Xave = length K)) as [_ | Hne]; [| congruence].
  rewrite HK, zip_with_plus_zeros. reflexivity.
Qed.

Lemma ukf_step_correction_zero_innovation_witness :
  length [5] = n_outputs example_ukf_bounded /\
  length [[1]; [1 / 2]] = length [0; 3] /\
  ukf_step_correction example_ukf_bounded [0; 3] [[1]; [1 / 2]] [5] [5] = Ok [0; 3 / 2].
Proof.
  split; [reflexivity |]. split; [reflexivity |].
  rewrite (ukf_step_correction_zero_innovation example_ukf_bounded [0; 3] [[1]; [1 / 2]] [5]
             eq_refl eq_refl ltac:(repeat constructor)).
  unfold constrained, constrainedState. simpl.
  unfold clip_high, clip_low, bind, lift, get, put, ret. simpl.
  decide_reals. reflexivity.
Defined.

Lemma matvec_ok (K : matrix) (v : vec) :
  Forall (fun r => length r = length v) K ->
  matvec K v = Ok (map (fun r => dot r v) K).
Proof.
  induction 1 as [| r K Hr _ IH]; [reflexivity |].
  cbn [matvec map]. rewrite IH.
  destruct (decide (length r = length v)) as [_ | Hne]; [reflexivity | contradiction].
Qed.

(** X12.  When every state is observed, the correction of [ukf_step] keeps its
    promise: for a gain [K] with a row per entry of the estimate and a column
    per output, and a constraint table without an empty pair of bounds, the
    corrected estimate is returned and each of its observed states and
    parameters respects its active bounds. *)
Theorem ukf_step_correction_respects_bounds (self : ukfFMU) (Xave : vec) (K : matrix)
    (z Zave : vec) :
  n_state self = n_state_obs self ->
  table_ok (ConstrStateHigh self) (ConstrStateLow self)
           (ConstrStateValueHigh self) (ConstrStateValueLow self) (n_state_obs self) ->
  table_ok (ConstrParsHigh self) (ConstrParsLow self)
           (ConstrParsValueHigh self) (ConstrParsValueLow self) (n_pars self) ->
  length Xave = (n_state_obs self + n_pars self)%nat ->
  length K = length Xave ->
  Forall (fun r => length r = n_outputs self) K ->
  length z = n_outputs self ->
  length Zave = n_outputs self ->
  exists X_corr : vec,
    ukf_step_correction self Xave K z Zave = Ok X_corr /\
    (forall i, (i < n_state_obs self)%nat ->
       within (ConstrStateHigh self) (ConstrStateLow self)
              (ConstrStateValueHigh self) (ConstrStateValueLow self) i i X_corr) /\
    (forall j, (j < n_pars self)%nat ->
       within (ConstrParsHigh self) (ConstrParsLow self)
              (ConstrParsValueHigh self) (ConstrParsValueLow self) j
              (n_state_obs self + j) X_corr).
Proof.
  intros Hall Hst Hpa HX HK Hrows Hz HZ. unfold ukf_step_correction.
  destruct (decide (length z = n_outputs self)) as [_ | Hne]; [| contradiction].
  unfold bcast2 at 1.
  destruct (decide (length z = length Zave)) as [_ | Hne]; [| lia].
  rewrite matvec_ok
    by (rewrite length_zip_with, Hz, HZ, Nat.min_id; exact Hrows).
  unfold bcast2.
  destruct (decide (length Xave = length (map (fun r => dot r (zip_with Rminus z Zave)) K)))
    as [_ | Hne]; [| rewrite length_map in Hne; lia].
  apply constrained_respects_bounds; [exact Hall | | exact Hst | exact Hpa].
  rewrite length_zip_with, length_map. lia.
Qed.

Lemma ukf_step_correction_respects_bounds_witness :
  n_state example_ukf_bounded = n_state_obs example_ukf_bounded /\
  length [1; 2] = (n_state_obs example_ukf_bounded + n_pars example_ukf_bounded)%nat /\
  length [[0]; [1 / 2]] = length [1; 2] /\
  exists X_corr : vec,
    ukf_step_correction example_ukf_bounded [1; 2] [[0]; [1 / 2]] [4] [2] = Ok X_corr /\
    within (ConstrParsHigh example_ukf_bounded) (ConstrParsLow example_ukf_bounded)
           (ConstrParsValueHigh example_ukf_bounded)
           (ConstrParsValueLow example_ukf_bounded) 0 1 X_corr.
Proof.
  split; [reflexivity |]. split; [reflexivity |]. split; [reflexivity |].
  destruct example_ukf_bounded_tables as [Hst Hpa].
  destruct (ukf_step_correction_respects_bounds example_ukf_bounded [1; 2] [[0]; [1 / 2]]
              [4] [2] eq_refl Hst Hpa eq_refl eq_refl ltac:(repeat constructor)
              eq_refl eq_refl) as (X_corr & Hrun & _ & Hp).
  exists X_corr. split; [exact Hrun |]. apply (Hp 0%nat). simpl. lia.
Defined.

(** ** What [cholUpdate] leaves in place *)

Lemma bcast_into_length (f : R -> R -> R) (t w t' : vec) :
  bcast_into f t w = Ok t' -> length t' = length t.
Proof.
  unfold bcast_into. destruct (decide (length w = length t)) as [Hl | Hl].
  - intros H. inversion H. rewrite length_zip_with. lia.
  - destruct w as [| b [| b' w]]; intros H; inversion H. apply length_map.
Qed.

Lemma column_length (rows : matrix) (j : nat) (v : vec) :
  column rows j = Ok v -> length v = length rows.
Proof.
  revert v. induction rows as [| r rows IH]; intros v H; cbn in H.
  - inversion H. reflexivity.
  - destruct (getitem r j) as [a | e]; [| discriminate].
    destruct (column rows j) as [t | e]; [| discriminate].
    inversion H. cbn. f_equal. apply IH. reflexivity.
Qed.

Lemma view_assign_from_shape (Xm : matrix) (j k : nat) (w : vec) :
  length w = length (drop k Xm) ->
  map length (view_assign_from Xm j k w) = map length Xm /\
  take k (view_assign_from Xm j k w) = take k Xm.
Proof.
  intros Hw. unfold view_assign_from. split.
  - rewrite <- (take_drop k Xm) at 3. rewrite !map_app. f_equal.
    revert w Hw. generalize (drop k Xm). intros rows.
    induction rows as [| r rows IH]; intros [| a w] Hw; cbn in *; try discriminate.
    + reflexivity.
    + rewrite length_insert. f_equal. apply IH. lia.
  - destruct (decide (k <= length Xm)%nat) as [Hk | Hk].
    + rewrite take_app_le by (rewrite length_take; lia).
      rewrite take_take. f_equal. lia.
    + rewrite drop_ge by lia. cbn. rewrite app_nil_r. rewrite take_take. f_equal. lia.
Qed.

(** What a step that returns has done: it has rewritten row [k] of the factor
    from the diagonal on, and the rows of [X] below row [k]. *)
Lemma cholUpdate_step_inv (signs : vec) (X : loc) (j k : nat) (Lc Lc' : matrix)
    (h h' : store) :
  cholUpdate_step signs X j k Lc h = (Ok Lc', h') ->
  exists (r row' : vec) (Xm Xm' : matrix),
    Lc !! k = Some r /\ (k < length r)%nat /\
    Lc' = <[k := row']> Lc /\ length row' = length r /\
    (forall c, (c < k)%nat -> row' !! c = r !! c) /\
    h !! X = Some Xm /\ h' = <[X := Xm']> h /\
    map length Xm' = map length Xm /\
    take (k + 1) Xm' = take (k + 1) Xm.
Proof.
  unfold cholUpdate_step. intros H.
  apply bind_Ok_inv in H as (Lkk & h1 & E1 & H). apply lift_Ok_inv in E1 as [E1 ->].
  apply bind_Ok_inv in H as (sg & h1 & E2 & H). apply lift_Ok_inv in E2 as [E2 ->].
  apply bind_Ok_inv in H as (Xm & h1 & E3 & H). apply load_Ok_inv in E3 as [E3 ->].
  apply bind_Ok_inv in H as (xk & h1 & E4 & H). apply lift_Ok_inv in E4 as [E4 ->].
  cbn zeta in H.
  set (rr := if Rlt_dec (Lkk ^ 2 + sg * xk ^ 2) 0 then 0 else sqrt (Lkk ^ 2 + sg * xk ^ 2)) in H.
  apply bind_Ok_inv in H as (c & h1 & E5 & H). apply lift_Ok_inv in E5 as [E5 ->].
  apply bind_Ok_inv in H as (s & h1 & E6 & H). apply lift_Ok_inv in E6 as [E6 ->].
  apply bind_Ok_inv in H as (Lc1 & h1 & E7 & H). apply lift_Ok_inv in E7 as [E7 ->].
  apply bind_Ok_inv in H as (Lrow & h1 & E8 & H). apply lift_Ok_inv in E8 as [E8 ->].
  apply bind_Ok_inv in H as (xs & h1 & E9 & H). apply lift_Ok_inv in E9 as [E9 ->].
  apply bind_Ok_inv in H as (t & h1 & E10 & H). apply lift_Ok_inv in E10 as [E10 ->].
  apply bind_Ok_inv in H as (q & h1 & E11 & H). apply lift_Ok_inv in E11 as [E11 ->].
  apply bind_Ok_inv in H as (Lrow' & h1 & E12 & H). apply lift_Ok_inv in E12 as [E12 ->].
  apply bind_Ok_inv in H as (Lc2 & h1 & E13 & H). apply lift_Ok_inv in E13 as [E13 ->].
  apply bind_Ok_inv in H as (t' & h1 & E14 & H). apply lift_Ok_inv in E14 as [E14 ->].
  apply bind_Ok_inv in H as (xs' & h1 & E15 & H). apply lift_Ok_inv in E15 as [E15 ->].
  apply bind_Ok_inv in H as (u & h1 & E16 & H).
  unfold ret in H. inversion H; subst Lc' h1. clear H.
  unfold save in E16. inversion E16; subst h'. clear E16.
  apply setitem2_inv in E7 as (r & Hr & Hk & ->).
  assert (HkL : (k < length Lc)%nat) by (eapply lookup_lt_Some; exact Hr).
  apply getitem_inv in E8. rewrite list_lookup_insert_eq in E8 by exact HkL.
  inversion E8; subst Lrow. clear E8.
  unfold slice_update in E12.
  destruct (bcast_into (fun _ w : R => w)
              (slice (<[k := rr]> r) (k + 1) (length (<[k := rr]> r))) q)
    as [t0 | e] eqn:Et0; [| discriminate].
  inversion E12; subst Lrow'. clear E12.
  apply bcast_into_length in Et0. unfold slice in Et0.
  rewrite length_take, length_drop, length_insert in Et0.
  apply setitem_inv in E13 as [_ ->].
  apply bcast_into_length in E15. unfold view_from in E9.
  apply column_length in E9.
  destruct (view_assign_from_shape Xm j (k + 1) xs' ltac:(lia)) as [Hshape Htake].
  exists r, (take (k + 1) (<[k := rr]> r) ++ t0 ++
             drop (k + 1 + length t0) (<[k := rr]> r)), Xm,
         (view_assign_from Xm j (k + 1) xs').
  split; [exact Hr |]. split; [exact Hk |].
  split; [apply list_insert_insert_eq |].
  split; [rewrite !length_app, length_take, length_drop, length_insert; lia |].
  split; [| auto].
  intros c0 Hc. rewrite lookup_app_l by (rewrite length_take, length_insert; lia).
  rewrite lookup_take_lt by lia. apply list_lookup_insert_ne. lia.
Qed.

Lemma bind_Raise_inv {S A B} (m : M S A) (f : A -> M S B) (s s' : S) (e : exn) :
  bind m f s = (Raise e, s') ->
  m s = (Raise e, s') \/ exists a s1, m s = (Ok a, s1) /\ f a s1 = (Raise e, s').
Proof.
  unfold bind. destruct (m s) as [[a | e0] s1]; intros H; [right; eauto |].
  left. inversion H. reflexivity.
Qed.

(** A step that raises has not written anything. *)
Lemma cholUpdate_step_raises (signs : vec) (X : loc) (j k : nat) (Lc : matrix)
    (h h' : store) (e : exn) :
  cholUpdate_step signs X j k Lc h = (Raise e, h') -> h' = h.
Proof.
  unfold cholUpdate_step. intros H.
  repeat match type of H with
         | bind (lift _) _ _ = (Raise _, _) =>
             apply bind_Raise_inv in H as [H | (? & ? & E & H)];
             [unfold lift in H; inversion H; reflexivity
             | apply lift_Ok_inv in E as [_ ->]]
         | bind (load _) _ _ = (Raise _, _) =>
             apply bind_Raise_inv in H as [H | (? & ? & E & H)];
             [unfold load in H; destruct (_ !! _); inversion H; reflexivity
             | apply load_Ok_inv in E as [_ ->]]
         | _ => progress cbn zeta in H
         end.
  apply bind_Raise_inv in H as [H | (? & ? & _ & H)];
    [unfold save in H | unfold ret in H]; discriminate.
Qed.

Lemma same_shape_length (A B : matrix) : map length A = map length B -> length A = length B.
Proof. intros H. rewrite <- (length_map length A), H. apply length_map. Qed.

Lemma cholUpdate_rows_inv (signs : vec) (X : loc) (j : nat) (ks : list nat) :
  forall (Lc Lc' : matrix) (h h' : store),
    for_each ks (fun k Lc => cholUpdate_step signs X j k Lc) Lc h = (Ok Lc', h') ->
    map length Lc' = map length Lc /\
    (forall i c, (c < i)%nat -> getitem2 Lc' i c = getitem2 Lc i c).
Proof.
  induction ks as [| k ks IH]; intros Lc Lc' h h' Hrun.
  - cbn in Hrun. unfold ret in Hrun. inversion Hrun. auto.
  - cbn in Hrun. apply bind_Ok_inv in Hrun as (Lc1 & h1 & Hstep & Hrun).
    apply cholUpdate_step_inv in Hstep
      as (r & row' & Xm & Xm' & Hr & Hk & -> & Hlen & Hleft & _).
    apply IH in Hrun as [Hshape Hlow].
    assert (HkL : (k < length Lc)%nat) by (eapply lookup_lt_Some; exact Hr).
    split.
    + rewrite Hshape. rewrite list_fmap_insert, Hlen.
      apply list_insert_id. rewrite list_lookup_fmap, Hr. reflexivity.
    + intros i c Hc. rewrite (Hlow i c Hc). unfold getitem2, getitem.
      destruct (decide (i = k)) as [-> | Hne].
      * rewrite list_lookup_insert_eq by exact HkL. rewrite Hr. cbn.
        rewrite (Hleft c Hc). reflexivity.
      * rewrite list_lookup_insert_ne by congruence. reflexivity.
Qed.

Lemma cholUpdate_columns_inv (signs : vec) (X : loc) (row : nat) (js : list nat) :
  forall (Lc Lc' : matrix) (h h' : store),
    for_each js (fun j Lc =>
      for_each (range row) (fun k Lc => cholUpdate_step signs X j k Lc) Lc) Lc h
    = (Ok Lc', h') ->
    map length Lc' = map length Lc /\
    (forall i c, (c < i)%nat -> getitem2 Lc' i c = getitem2 Lc i c).
Proof.
  induction js as [| j js IH]; intros Lc Lc' h h' Hrun.
  - cbn in Hrun. unfold ret in Hrun. inversion Hrun. auto.
  - cbn in Hrun. apply bind_Ok_inv in Hrun as (Lc1 & h1 & Hrows & Hrun).
    apply cholUpdate_rows_inv in Hrows as [Hshape1 Hlow1].
    apply IH in Hrun as [Hshape Hlow].
    split; [congruence |].
    intros i c Hc. rewrite (Hlow i c Hc). apply Hlow1. exact Hc.
Qed.

(** X13.  The factor that [cholUpdate] returns has the shape of [L], and below the
    diagonal it has the entries of [L]: a step writes row [k] from the
    diagonal on.  A factor that is upper triangular stays so. *)
Theorem cholUpdate_keeps_lower_part (L X : loc) (W : vec) (h h' : store)
    (Lm S : matrix) :
  h !! L = Some Lm ->
  cholUpdate L X W h = (Ok S, h') ->
  map length S = map length Lm /\
  (forall i c, (c < i)%nat -> getitem2 S i c = getitem2 Lm i c).
Proof.
  intros HL Hrun. unfold cholUpdate in Hrun.
  apply bind_Ok_inv in Hrun as (Lc & h1 & E1 & Hrun). apply load_Ok_inv in E1 as [E1 ->].
  apply bind_Ok_inv in Hrun as (Xm & h1 & E2 & Hrun). apply load_Ok_inv in E2 as [E2 ->].
  rewrite HL in E1. inversion E1; subst Lc. cbn zeta in Hrun.
  exact (cholUpdate_columns_inv _ _ _ _ _ _ _ _ Hrun).
Qed.

Lemma cholUpdate_keeps_lower_part_witness :
  example_store !! 0%nat = Some [[3; 1]; [0; 1]] /\
  map length [[5; 7 / 5]; [0; sqrt (26 / 25)]] = map length [[3; 1]; [0; 1]] /\
  getitem2 [[5; 7 / 5]; [0; sqrt (26 / 25)]] 1 0 = getitem2 [[3; 1]; [0; 1]] 1 0.
Proof.
  assert (H0 : example_store !! 0%nat = Some [[3; 1]; [0; 1]]) by reflexivity.
  split; [exact H0 |].
  destruct (cholUpdate_keeps_lower_part 0%nat 1%nat [1] example_store _ _ _
              H0 cholUpdate_example) as [Hshape Hlow].
  split; [exact Hshape |]. apply Hlow. lia.
Defined.

Lemma take_succ_lookup_0 {A} (k : nat) (l l' : list A) :
  take (k + 1) l' = take (k + 1) l -> l' !! 0%nat = l !! 0%nat.
Proof.
  intros H. rewrite <- (lookup_take_lt l' (k + 1) 0) by lia.
  rewrite <- (lookup_take_lt l (k + 1) 0) by lia. rewrite H. reflexivity.
Qed.

Lemma cholUpdate_rows_X (signs : vec) (X : loc) (j : nat) (Xm : matrix) (ks : list nat) :
  forall (Lc : matrix) (h : store),
    (exists X0, h !! X = Some X0 /\ map length X0 = map length Xm /\
                X0 !! 0%nat = Xm !! 0%nat) ->
    exists X1, snd (for_each ks (fun k Lc => cholUpdate_step signs X j k Lc) Lc h) !! X
               = Some X1 /\
               map length X1 = map length Xm /\ X1 !! 0%nat = Xm !! 0%nat.
Proof.
  induction ks as [| k ks IH]; intros Lc h Hinv; [exact Hinv |].
  cbn [for_each]. unfold bind.
  destruct (cholUpdate_step signs X j k Lc h) as [[Lc1 | e] h1] eqn:Estep.
  - apply IH.
    apply cholUpdate_step_inv in Estep
      as (r & row' & X0' & X1 & _ & _ & _ & _ & _ & HX0 & -> & Hshape & Htake).
    destruct Hinv as (X0 & HX & Hs & Hrow0). rewrite HX in HX0. inversion HX0; subst X0'.
    exists X1. split; [apply lookup_insert_eq |]. split; [congruence |].
    rewrite (take_succ_lookup_0 k X0 X1 Htake). exact Hrow0.
  - apply cholUpdate_step_raises in Estep. subst h1. exact Hinv.
Qed.

Lemma cholUpdate_columns_X (signs : vec) (X : loc) (row : nat) (Xm : matrix)
    (js : list nat) :
  forall (Lc : matrix) (h : store),
    (exists X0, h !! X = Some X0 /\ map length X0 = map length Xm /\
                X0 !! 0%nat = Xm !! 0%nat) ->
    exists X1,
      snd (for_each js (fun j Lc =>
             for_each (range row) (fun k Lc => cholUpdate_step signs X j k Lc) Lc) Lc h)
        !! X = Some X1 /\
      map length X1 = map length Xm /\ X1 !! 0%nat = Xm !! 0%nat.
Proof.
  induction js as [| j js IH]; intros Lc h Hinv; [exact Hinv |].
  cbn [for_each]. unfold bind.
  pose proof (cholUpdate_rows_X signs X j Xm (range row) Lc h Hinv) as Hrows.
  destruct (for_each (range row) (fun k Lc0 => cholUpdate_step signs X j k Lc0) Lc h)
    as [[Lc1 | e] h1].
  - apply IH. exact Hrows.
  - exact Hrows.
Qed.

(** X14.  Whether [cholUpdate] returns or raises, the caller's [X] keeps its shape
    and its first row: a step writes the rows of [X] below row [k] only. *)
Theorem cholUpdate_keeps_first_row_of_X (L X : loc) (W : vec) (h : store) (Xm : matrix) :
  h !! X = Some Xm ->
  exists Xafter,
    snd (cholUpdate L X W h) !! X = Some Xafter /\
    map length Xafter = map length Xm /\
    Xafter !! 0%nat = Xm !! 0%nat.
Proof.
  intros HX. unfold cholUpdate, bind.
  destruct (load L h) as [[Lc | e] h1] eqn:EL.
  - apply load_Ok_inv in EL as [_ ->].
    unfold load at 1. rewrite HX.
    apply cholUpdate_columns_X. exists Xm. auto.
  - unfold load in EL. destruct (h !! L); inversion EL; subst h1.
    exists Xm. auto.
Qed.

Lemma cholUpdate_keeps_first_row_of_X_witness :
  example_store !! 1%nat = Some [[4]; [1]] /\
  exists Xafter,
    snd (cholUpdate 0%nat 1%nat [1] example_store) !! 1%nat = Some Xafter /\
    map length Xafter = [1%nat; 1%nat] /\ Xafter !! 0%nat = Some [4].
Proof.
  assert (H1 : example_store !! 1%nat = Some [[4]; [1]]) by reflexivity.
  split; [exact H1 |].
  exact (cholUpdate_keeps_first_row_of_X 0%nat 1%nat [1] example_store [[4]; [1]] H1).
Defined.

Lemma cholUpdate_rows_overrun (signs : vec) (X : loc) (j : nat) (len : nat) :
  forall (a : nat) (Lc : matrix) (h : store),
    (a <= length Lc < a + len)%nat ->
    exists e, fst (for_each (seq a len) (fun k Lc => cholUpdate_step signs X j k Lc) Lc h)
              = Raise e.
Proof.
  induction len as [| len IH]; intros a Lc h Ha; [lia |].
  cbn [seq for_each]. unfold bind.
  destruct (cholUpdate_step signs X j a Lc h) as [[Lc1 | e] h1] eqn:Estep.
  - apply cholUpdate_step_inv in Estep as (r & row' & _ & _ & Hr & _ & -> & _).
    apply lookup_lt_Some in Hr.
    apply IH. rewrite length_insert. lia.
  - exists e. reflexivity.
Qed.

(** X15.  [cholUpdate] does not return when [X] has more rows than [L] (and a
    column): the step for the first row without a diagonal entry in [L]
    raises, if no step before it did. *)
Theorem cholUpdate_too_many_rows (L X : loc) (W : vec) (h : store) (Lm Xm : matrix) :
  h !! L = Some Lm ->
  h !! X = Some Xm ->
  (length Lm < length Xm)%nat ->
  (0 < ncols Xm)%nat ->
  exists e, fst (cholUpdate L X W h) = Raise e.
Proof.
  intros HL HX Hrows Hcols. unfold cholUpdate, bind, load. rewrite HL, HX.
  destruct (ncols Xm) as [| n] eqn:En; [lia |].
  unfold range at 1. cbn [seq for_each]. unfold bind.
  destruct (cholUpdate_rows_overrun (map np_sign W) X 0 (length Xm) 0 Lm h ltac:(lia))
    as [e He].
  unfold range.
  destruct (for_each (seq 0 (length Xm))
              (fun k Lc => cholUpdate_step (map np_sign W) X 0 k Lc) Lm h)
    as [[Lc1 | e1] h1]; [discriminate |].
  exists e1. reflexivity.
Qed.

Lemma cholUpdate_too_many_rows_witness :
  example_store !! 1%nat = Some [[4]; [1]] /\
  <[0%nat := [[3]]]> example_store !! 0%nat = Some [[3]] /\
  (length [[3%R]] < length [[4%R]; [1%R]])%nat /\
  exists e, fst (cholUpdate 0%nat 1%nat [1] (<[0%nat := [[3]]]> example_store)) = Raise e.
Proof.
  assert (H1 : <[0%nat := [[3]]]> example_store !! 1%nat = Some [[4]; [1]]) by reflexivity.
  assert (H0 : <[0%nat := [[3]]]> example_store !! 0%nat = Some [[3]]) by reflexivity.
  assert (Hr : (length [[3%R]] < length [[4%R]; [1%R]])%nat) by (simpl; lia).
  split; [reflexivity |]. split; [exact H0 |]. split; [exact Hr |].
  apply (cholUpdate_too_many_rows 0%nat 1%nat [1] _ [[3]] [[4]; [1]] H0 H1 Hr).
  unfold ncols. simpl. lia.
Defined.

(** ** [cholUpdate] at the edges *)

(** X16.  Without a column in [X] there is nothing to update: [cholUpdate] returns
    the copy of [L] and no array is written.  [W] is not looked at. *)
Theorem cholUpdate_without_columns (L X : loc) (W : vec) (h : store) (Lm Xm : matrix) :
  h !! L = Some Lm ->
  h !! X = Some Xm ->
  ncols Xm = 0%nat ->
  cholUpdate L X W h = (Ok Lm, h).
Proof.
  intros HL HX Hcols. unfold cholUpdate, bind, load. rewrite HL, HX, Hcols. reflexivity.
Qed.

Lemma cholUpdate_without_columns_witness :
  <[1%nat := [[]; []]]> example_store !! 0%nat = Some [[3; 1]; [0; 1]] /\
  <[1%nat := [[]; []]]> example_store !! 1%nat = Some [[]; []] /\
  cholUpdate 0%nat 1%nat [] (<[1%nat := [[]; []]]> example_store)
  = (Ok [[3; 1]; [0; 1]], <[1%nat := [[]; []]]> example_store).
Proof.
  assert (H0 : <[1%nat := [[]; []]]> example_store !! 0%nat = Some [[3; 1]; [0; 1]])
    by reflexivity.
  assert (H1 : <[1%nat := [[]; []]]> example_store !! 1%nat = Some [[]; []])
    by reflexivity.
  split; [exact H0 |]. split; [exact H1 |].
  exact (cholUpdate_without_columns 0%nat 1%nat [] _ _ _ H0 H1 eq_refl).
Defined.

(** X17.  With an empty [W] there is no [signs[0]]: as soon as [X] has an entry,
    the first step raises [IndexError], and no array has been written. *)
Theorem cholUpdate_empty_W (L X : loc) (h : store) (Lm Xm : matrix) :
  h !! L = Some Lm ->
  h !! X = Some Xm ->
  (0 < length Xm)%nat ->
  (0 < ncols Xm)%nat ->
  cholUpdate L X [] h = (Raise IndexError, h).
Proof.
  intros HL HX Hrows Hcols. unfold cholUpdate, bind, load. rewrite HL, HX.
  destruct (ncols Xm) as [| n]; [lia |]. destruct (length Xm) as [| m]; [lia |].
  unfold range. cbn [seq for_each map]. unfold bind.
  unfold cholUpdate_step at 1. unfold bind at 1. unfold lift at 1.
  destruct (getitem2 Lm 0 0) as [Lkk | e] eqn:E.
  - unfold bind at 1. unfold lift at 1. reflexivity.
  - unfold getitem2, getitem in E.
    destruct (Lm !! 0%nat) as [r |]; [destruct (r !! 0%nat) |]; inversion E; reflexivity.
Qed.

Lemma cholUpdate_empty_W_witness :
  example_store !! 0%nat = Some [[3; 1]; [0; 1]] /\
  example_store !! 1%nat = Some [[4]; [1]] /\
  cholUpdate 0%nat 1%nat [] example_store = (Raise IndexError, example_store).
Proof.
  assert (H0 : example_store !! 0%nat = Some [[3; 1]; [0; 1]]) by reflexivity.
  assert (H1 : example_store !! 1%nat = Some [[4]; [1]]) by reflexivity.
  split; [exact H0 |]. split; [exact H1 |].
  apply (cholUpdate_empty_W 0%nat 1%nat example_store _ _ H0 H1).
  - simpl. lia.
  - unfold ncols. simpl. lia.
Defined.

(** X18.  On one-by-one arrays [cholUpdate] is the scalar update: from the factor
    [l] and the entry [x] it returns the non-negative [r] with
    [r^2 = l^2 + sign(W[0]) * x^2], or [0] where that number is negative.
    [X] is left as it was. *)
Theorem cholUpdate_scalar (L X : loc) (w : R) (W : vec) (h : store) (l x : R) :
  h !! L = Some [[l]] ->
  h !! X = Some [[x]] ->
  l <> 0 ->
  exists r,
    cholUpdate L X (w :: W) h = (Ok [[r]], h) /\
    0 <= r /\
    (0 <= l ^ 2 + np_sign w * x ^ 2 -> r ^ 2 = l ^ 2 + np_sign w * x ^ 2) /\
    (l ^ 2 + np_sign w * x ^ 2 < 0 -> r = 0).
Proof.
  intros HL HX Hl.
  exists (if Rlt_dec (l ^ 2 + np_sign w * x ^ 2) 0 then 0
          else sqrt (l ^ 2 + np_sign w * x ^ 2)).
  split; [| split; [apply sqrt_clamped_nonneg | split]].
  - unfold cholUpdate, bind, load. rewrite HL, HX.
    unfold ncols, range. cbn [hd length seq for_each map]. unfold bind.
    unfold cholUpdate_step, bind, lift, load, save, ret. rewrite HX.
    unfold getitem2, getitem, setitem2, setitem, view_from, slice_update, slice_from, slice.
    cbn. unfold np_div. destruct (Req_dec_T l 0) as [E | _]; [contradiction |].
    cbn. rewrite insert_id by exact HX. reflexivity.
  - intros Hpos. destruct (Rlt_dec (l ^ 2 + np_sign w * x ^ 2) 0) as [Hneg | _]; [lra |].
    rewrite <- (sqrt_def _ Hpos) at 2. ring.
  - intros Hneg. destruct (Rlt_dec (l ^ 2 + np_sign w * x ^ 2) 0) as [_ | Hpos];
      [reflexivity | lra].
Qed.

Lemma cholUpdate_scalar_witness :
  <[1%nat := [[4]]]> (<[0%nat := [[3]]]> example_store) !! 0%nat = Some [[3]] /\
  <[1%nat := [[4]]]> (<[0%nat := [[3]]]> example_store) !! 1%nat = Some [[4]] /\
  3 <> 0 /\
  exists r,
    cholUpdate 0%nat 1%nat [-1] (<[1%nat := [[4]]]> (<[0%nat := [[3]]]> example_store))
    = (Ok [[r]], <[1%nat := [[4]]]> (<[0%nat := [[3]]]> example_store)) /\
    r = 0.
Proof.
  assert (H0 : <[1%nat := [[4]]]> (<[0%nat := [[3]]]> example_store) !! 0%nat = Some [[3]])
    by reflexivity.
  assert (H1 : <[1%nat := [[4]]]> (<[0%nat := [[3]]]> example_store) !! 1%nat = Some [[4]])
    by reflexivity.
  assert (H3 : 3 <> 0) by lra.
  split; [exact H0 |]. split; [exact H1 |]. split; [exact H3 |].
  destruct (cholUpdate_scalar 0%nat 1%nat (-1) []
              (<[1%nat := [[4]]]> (<[0%nat := [[3]]]> example_store)) 3 4
              H0 H1 H3) as (r & Hrun & _ & _ & Hzero).
  exists r. split; [exact Hrun |]. apply Hzero.
  unfold np_sign. decide_reals. lra.
Defined.

(** ** Sigma points from a factor of the wrong size *)

Lemma bind_raise_run {S A B} (m : M S A) (f : A -> M S B) (s s' : S) (e : exn) :
  m s = (Raise e, s') -> bind m f s = (Raise e, s').
Proof. intros H. unfold bind. rewrite H. reflexivity. Qed.

Lemma catch_ValueError_caught {S A} (m h : M S A) (s s' : S) :
  m s = (Raise ValueError, s') -> catch_ValueError m h s = h s'.
Proof. intros H. unfold catch_ValueError. rewrite H. reflexivity. Qed.

Lemma Xs_set_row_out_of_range (i : nat) (r : vec) (f : frame) :
  (length (Xs f) <= i)%nat -> Xs_set_row i r f = (Raise IndexError, f).
Proof.
  intros Hi. unfold Xs_set_row, bind, get, lift, setitem.
  destruct (decide (i < length (Xs f))%nat); [lia | reflexivity].
Qed.

Lemma Xs_slice_op_misfit (op : R -> R -> R) (i a b : nat) (w r : vec) (f : frame) :
  Xs f !! i = Some r ->
  slice_update op r a b w = Raise ValueError ->
  Xs_slice_op op i a b w f = (Raise ValueError, f).
Proof.
  intros Hr Hu. unfold Xs_slice_op.
  rewrite (bind_run _ _ _ f f) by reflexivity.
  rewrite (bind_run _ _ _ f r) by (unfold lift; rewrite (getitem_ok _ _ _ Hr); reflexivity).
  apply bind_raise_run. unfold lift. rewrite Hu. reflexivity.
Qed.

Lemma slice_update_misfit (f : R -> R -> R) (v w : vec) (a b : nat) :
  length w <> length (slice v a b) -> length w <> 1%nat ->
  slice_update f v a b w = Raise ValueError.
Proof.
  intros H1 H2. unfold slice_update, bcast_into.
  destruct (decide (length w = length (slice v a b))); [contradiction |].
  destruct w as [| b0 [| b1 w]]; cbn in *; try reflexivity. lia.
Qed.

Section SigmaPrefix.

Variable self : ukfFMU.
Variables x pars : vec.

Hypothesis Hmode : augmented self = false.
Hypothesis HN : N self = (n_state_obs self + n_pars self)%nat.
Hypothesis Hfree : no_constraints self.
Hypothesis Hx : length x = n_state_obs self.
Hypothesis Hpars : length pars = n_pars self.

(** The loop over the rows [G] that fit, with more rows [tail] behind them. *)
Lemma sigma_loop_prefix (G tail : list (list R)) :
  forall (d : nat) (f : frame),
    (d + length G <= N self)%nat ->
    Forall (fun r => length r = N self) G ->
    length (Xs f) = (1 + 2 * N self)%nat ->
    exists M' : list (list R),
      sigma_loop self (x ++ pars) (G ++ tail) (1 + d) f =
      sigma_loop self (x ++ pars) tail (1 + d + length G) (mkFrame M' (stdout f)) /\
      length M' = (1 + 2 * N self)%nat /\
      (forall j, (j <= d \/ (d + length G < j /\ j <= N self + d) \/
                  N self + d + length G < j)%nat -> M' !! j = Xs f !! j) /\
      (forall t row, G !! t = Some row ->
         M' !! (1 + d + t)%nat = Some (zip_with Rplus (x ++ pars) (scale (sqrtC self) row)) /\
         M' !! (1 + d + t + N self)%nat =
           Some (zip_with Rminus (x ++ pars) (scale (sqrtC self) row))).
Proof.
  induction G as [| row G IH]; intros d f Hd Hrows Hlen.
  - exists (Xs f). cbn [app length]. rewrite Nat.add_0_r.
    split; [destruct f; reflexivity |]. split; [exact Hlen |].
    split; [reflexivity |].
    intros t row Ht. rewrite lookup_nil in Ht. discriminate.
  - cbn [length] in Hd. apply Forall_cons in Hrows as [Hrow Hrows].
    cbn [app].
    rewrite (sigma_loop_step self x pars Hmode HN Hfree Hx Hpars) by (try exact Hrow; lia).
    replace (1 + d + 1)%nat with (1 + S d)%nat by lia.
    set (plus := zip_with Rplus (x ++ pars) (scale (sqrtC self) row)).
    set (minus := zip_with Rminus (x ++ pars) (scale (sqrtC self) row)).
    destruct (IH (S d) (mkFrame (<[(1 + d + N self)%nat := minus]>
                                   (<[(1 + d)%nat := plus]> (Xs f))) (stdout f)))
      as (M' & Hrun & HlenM & Hkeep & Hnew).
    + lia.
    + exact Hrows.
    + cbn [Xs]. rewrite !length_insert. exact Hlen.
    + exists M'. cbn [Xs stdout length] in *.
      split; [rewrite Hrun; f_equal; lia |]. split; [exact HlenM |]. split.
      * intros j Hj. rewrite Hkeep by lia. rows. reflexivity.
      * intros t row' Ht. destruct t as [| t].
        -- cbn in Ht. inversion Ht; subst row'.
           rewrite !Nat.add_0_r. rewrite !Hkeep by lia.
           split; rows; reflexivity.
        -- cbn in Ht. destruct (Hnew t row' Ht) as [Hp Hm].
           replace (1 + d + S t)%nat with (1 + S d + t)%nat by lia.
           split; assumption.
Qed.

(** A row beyond the [N]-th finds no place in [Xs]. *)
Lemma sigma_loop_overrun (row : vec) (rest : list (list R)) (f : frame) :
  length (Xs f) = (1 + 2 * N self)%nat ->
  exists f', sigma_loop self (x ++ pars) (row :: rest) (1 + N self) f = (Raise IndexError, f') /\
             stdout f' = stdout f.
Proof.
  intros Hlen. cbn [sigma_loop]. cbn zeta.
  destruct (decide (N self = 0)%nat) as [H0 | H0].
  - exists f. split; [| reflexivity].
    apply bind_raise_run. apply Xs_set_row_out_of_range. lia.
  - eexists. split.
    + erewrite bind_run; [| apply Xs_set_row_run; lia].
      apply bind_raise_run. apply Xs_set_row_out_of_range.
      cbn [Xs]. rewrite length_insert. lia.
    + reflexivity.
Qed.

(** A row that is too long: the states of row [i] are moved, then the slice
    of the parameters does not fit, and the loop ends with what [Xs] holds. *)
Lemma sigma_loop_misfit (row : vec) (rest : list (list R)) (i : nat) (f : frame) :
  (0 < N self)%nat ->
  (N self < length row)%nat ->
  length row <> (n_state_obs self + 1)%nat ->
  (i + N self < length (Xs f))%nat ->
  let M' := <[i := zip_with Rplus x (scale (sqrtC self) (take (n_state_obs self) row)) ++ pars]>
              (<[(i + N self)%nat := x ++ pars]> (<[i := x ++ pars]> (Xs f))) in
  sigma_loop self (x ++ pars) (row :: rest) i f =
  (Ok M',
   mkFrame M'
     (stdout f ++
      [PStr "Is not possible to generate the sigma points...";
       PStr "the dimensions of the sqrtP matrix and the state and parameter vectors are not compatible"])).
Proof.
  intros HNpos Hlong Hne Hi M'.
  assert (Hp1 : slice_update Rplus (x ++ pars) 0 (n_state_obs self)
                  (scale (sqrtC self) (slice row 0 (n_state_obs self)))
                = Ok (zip_with Rplus x (scale (sqrtC self) (take (n_state_obs self) row)) ++ pars)).
  { unfold slice. rewrite Nat.sub_0_r, drop_0.
    pose proof (slice_update_parts Rplus [] x pars
                  (scale (sqrtC self) (take (n_state_obs self) row)) (n_state_obs self)) as H.
    cbn [app length] in H. apply H.
    - unfold scale. rewrite length_map, length_take. lia.
    - rewrite Nat.sub_0_r, <- Hx. apply take_app_length. }
  set (v1 := zip_with Rplus x (scale (sqrtC self) (take (n_state_obs self) row)) ++ pars) in *.
  assert (Hv1 : length v1 = N self).
  { unfold v1. rewrite length_app, length_zip_with. unfold scale.
    rewrite length_map, length_take. lia. }
  assert (Hp2 : slice_update Rplus v1 (n_state_obs self) (n_state_obs self + n_pars self)
                  (scale (sqrtC self) (slice_from row (n_state_obs self)))
                = Raise ValueError).
  { apply slice_update_misfit; unfold scale, slice, slice_from;
      rewrite length_map, length_drop; [rewrite length_take, length_drop |]; lia. }
  cbn [sigma_loop]. cbn zeta. rewrite Hmode.
  erewrite bind_run; [| apply Xs_set_row_run; lia].
  erewrite bind_run; [| apply Xs_set_row_run; cbn [Xs]; rewrite length_insert; lia].
  erewrite bind_run.
  2:{ erewrite catch_ValueError_caught.
      2:{ apply bind_raise_run.
          erewrite bind_run;
            [| eapply Xs_slice_op_run; [cbn [Xs]; rows; reflexivity | exact Hp1]].
          apply bind_raise_run.
          eapply Xs_slice_op_misfit; [cbn [Xs]; rows; reflexivity | exact Hp2]. }
      reflexivity. }
  cbn iota. cbn [Xs stdout]. unfold bind, get, ret, print. cbn [Xs stdout].
  rewrite <- app_assoc. reflexivity.
Qed.

End SigmaPrefix.

Lemma computeSigmaPoints_start (self : ukfFMU) (x pars : vec) (sqrtP : list (list R))
    (sqrtQ sqrtR : option (list (list R))) (out : list printed) :
  augmented self = false ->
  N self = (n_state_obs self + n_pars self)%nat ->
  n_points self = (1 + 2 * N self)%nat ->
  length x = n_state_obs self ->
  length pars = n_pars self ->
  computeSigmaPoints self x pars sqrtP sqrtQ sqrtR out =
  (let r := sigma_loop self (x ++ pars) sqrtP 1
              (mkFrame (<[0%nat := x ++ pars]> (zeros2 (1 + 2 * N self) (N self))) out) in
   (fst r, stdout (snd r))).
Proof.
  intros Hmode HN Hpoints Hx Hpars.
  unfold computeSigmaPoints, computeSigmaPoints_body.
  rewrite (proj2 (Nat.eqb_eq _ _) Hx), (proj2 (Nat.eqb_eq _ _) Hpars). cbn [negb].
  rewrite Hmode, Hpoints, <- HN.
  erewrite bind_run; [| reflexivity].
  erewrite bind_run; [| reflexivity].
  cbn [fst snd].
  erewrite bind_run;
    [| apply Xs_set_row_run; cbn [Xs]; unfold zeros2; rewrite length_replicate; lia].
  reflexivity.
Qed.

Lemma zeros2_start_length (n m : nat) (r : vec) :
  length (<[0%nat := r]> (zeros2 (1 + 2 * n) m)) = (1 + 2 * n)%nat.
Proof. rewrite length_insert. unfold zeros2. apply length_replicate. Qed.

(** X19.  A factor with more than [N] rows: the first [N] rows fill [Xs], the next
    one is to be written at the row [1 + 2N], which [Xs] does not have.
    [computeSigmaPoints] raises [IndexError]; nothing has been printed. *)
Theorem computeSigmaPoints_too_many_rows
    (self : ukfFMU) (x pars : vec) (sqrtP : list (list R))
    (sqrtQ sqrtR : option (list (list R))) (out : list printed) :
  augmented self = false ->
  N self = (n_state_obs self + n_pars self)%nat ->
  n_points self = (1 + 2 * N self)%nat ->
  no_constraints self ->
  length x = n_state_obs self ->
  length pars = n_pars self ->
  (N self < length sqrtP)%nat ->
  Forall (fun r => length r = N self) (take (N self) sqrtP) ->
  computeSigmaPoints self x pars sqrtP sqrtQ sqrtR out = (Raise IndexError, out).
Proof.
  intros Hmode HN Hpoints Hfree Hx Hpars HP Hrows.
  rewrite computeSigmaPoints_start by assumption. cbn zeta.
  rewrite <- (take_drop (N self) sqrtP) at 1 2.
  destruct (drop (N self) sqrtP) as [| row rest] eqn:Edrop.
  { apply (f_equal length) in Edrop. rewrite length_drop in Edrop. cbn in Edrop. lia. }
  assert (HlenG : length (take (N self) sqrtP) = N self) by (rewrite length_take; lia).
  destruct (sigma_loop_prefix self x pars Hmode HN Hfree Hx Hpars
              (take (N self) sqrtP) (row :: rest) 0
              (mkFrame (<[0%nat := x ++ pars]> (zeros2 (1 + 2 * N self) (N self))) out))
    as (M' & Hrun & HlenM & _).
  - lia.
  - exact Hrows.
  - apply zeros2_start_length.
  - change (1 + 0)%nat with 1%nat in Hrun. rewrite Hrun. rewrite HlenG. cbn [stdout].
    destruct (sigma_loop_overrun self x pars HN Hx Hpars row rest (mkFrame M' out) HlenM)
      as (f' & Hover & Hout).
    replace (1 + 0 + N self)%nat with (1 + N self)%nat by lia.
    rewrite Hover. cbn [fst snd]. rewrite Hout. reflexivity.
Qed.

Lemma computeSigmaPoints_too_many_rows_witness :
  (N example_ukf < length [[3; 0]; [4; 5]; [6; 7]])%nat /\
  computeSigmaPoints example_ukf [1] [2] [[3; 0]; [4; 5]; [6; 7]] None None []
  = (Raise IndexError, []).
Proof.
  assert (H : (N example_ukf < length [[3; 0]; [4; 5]; [6; 7]])%nat) by (simpl; lia).
  split; [exact H |].
  apply computeSigmaPoints_too_many_rows;
    [reflexivity | reflexivity | reflexivity | repeat split | reflexivity | reflexivity
    | exact H | repeat constructor].
Defined.

(** X20.  A row of the factor that is too long, after rows that fit (in a
    two-dimensional array all rows have one length, and the long row is the
    first).  The rows that fit have given their two sigma points.  For the
    long row, the states of its first point are moved already when the slice
    of the parameters turns out not to fit: the two lines are printed and
    [Xs] is returned as it is then, with the half-made point, the centre in
    place of its mirror point, and zeros for the rows behind. *)
Theorem computeSigmaPoints_row_too_long
    (self : ukfFMU) (x pars : vec) (G : list (list R)) (bad : vec) (rest : list (list R))
    (sqrtQ sqrtR : option (list (list R))) (out : list printed) :
  augmented self = false ->
  N self = (n_state_obs self + n_pars self)%nat ->
  n_points self = (1 + 2 * N self)%nat ->
  no_constraints self ->
  length x = n_state_obs self ->
  length pars = n_pars self ->
  (length G < N self)%nat ->
  Forall (fun r => length r = N self) G ->
  (N self < length bad)%nat ->
  length bad <> (n_state_obs self + 1)%nat ->
  exists S : list (list R),
    computeSigmaPoints self x pars (G ++ bad :: rest) sqrtQ sqrtR out =
    (Ok S,
     out ++
     [PStr "Is not possible to generate the sigma points...";
      PStr "the dimensions of the sqrtP matrix and the state and parameter vectors are not compatible"]) /\
    length S = (1 + 2 * N self)%nat /\
    S !! 0%nat = Some (x ++ pars) /\
    (forall (t : nat) (F : vec),
        G !! t = Some F ->
        S !! (1 + t)%nat = Some (zip_with Rplus (x ++ pars) (scale (sqrtC self) F)) /\
        S !! (1 + t + N self)%nat = Some (zip_with Rminus (x ++ pars) (scale (sqrtC self) F))) /\
    S !! (1 + length G)%nat =
      Some (zip_with Rplus x (scale (sqrtC self) (take (n_state_obs self) bad)) ++ pars) /\
    S !! (1 + length G + N self)%nat = Some (x ++ pars) /\
    (forall j, (1 + length G < j <= N self)%nat ->
       S !! j = Some (zeros (N self)) /\ S !! (j + N self)%nat = Some (zeros (N self))).
Proof.
  intros Hmode HN Hpoints Hfree Hx Hpars HG Hrows Hlong Hne.
  rewrite computeSigmaPoints_start by assumption. cbn zeta.
  destruct (sigma_loop_prefix self x pars Hmode HN Hfree Hx Hpars G (bad :: rest) 0
              (mkFrame (<[0%nat := x ++ pars]> (zeros2 (1 + 2 * N self) (N self))) out))
    as (M' & Hrun & HlenM & Hkeep & Hnew).
  - lia.
  - exact Hrows.
  - apply zeros2_start_length.
  - change (1 + 0)%nat with 1%nat in *. rewrite Hrun. cbn [Xs stdout] in *.
    rewrite (sigma_loop_misfit self x pars Hmode HN Hx Hpars bad rest (1 + length G)
               (mkFrame M' out)) by (cbn [Xs]; lia).
    cbn [Xs stdout fst snd].
    eexists. split; [reflexivity |].
    split; [rewrite !length_insert; exact HlenM |].
    assert (Hz : forall j, (1 <= j < 1 + 2 * N self)%nat ->
                 <[0%nat := x ++ pars]> (zeros2 (1 + 2 * N self) (N self)) !! j
                 = Some (zeros (N self))).
    { intros j Hj. rewrite list_lookup_insert_ne by lia.
      unfold zeros2. apply lookup_replicate_2. lia. }
    split; [| split; [| split; [| split]]].
    + rows. rewrite Hkeep by lia. apply list_lookup_insert_eq.
      unfold zeros2. rewrite length_replicate. lia.
    + intros t F Ht. pose proof (lookup_lt_Some _ _ _ Ht) as Hlt.
      destruct (Hnew t F Ht) as [Hp Hm]. split; rows; assumption.
    + rows. reflexivity.
    + rows. reflexivity.
    + intros j Hj. split; rows; rewrite Hkeep by lia; apply Hz; lia.
Qed.

Lemma computeSigmaPoints_row_too_long_witness :
  (length ([] : list (list R)) < N example_ukf)%nat /\
  (N example_ukf < length [4; 5; 6])%nat /\
  length [4; 5; 6] <> (n_state_obs example_ukf + 1)%nat /\
  exists S : list (list R),
    computeSigmaPoints example_ukf [1] [2] ([] ++ [4; 5; 6] :: [[7; 8; 9]]) None None [] =
    (Ok S,
     [] ++
     [PStr "Is not possible to generate the sigma points...";
      PStr "the dimensions of the sqrtP matrix and the state and parameter vectors are not compatible"]) /\
    S !! 1%nat = Some (zip_with Rplus [1] (scale (sqrtC example_ukf) (take 1 [4; 5; 6])) ++ [2]) /\
    S !! 3%nat = Some [1; 2] /\
    S !! 2%nat = Some [0; 0].
Proof.
  assert (H1 : (length ([] : list (list R)) < N example_ukf)%nat) by (simpl; lia).
  assert (H2 : (N example_ukf < length [4; 5; 6])%nat) by (simpl; lia).
  assert (H3 : length [4; 5; 6] <> (n_state_obs example_ukf + 1)%nat) by (simpl; lia).
  split; [exact H1 |]. split; [exact H2 |]. split; [exact H3 |].
  destruct (computeSigmaPoints_row_too_long example_ukf [1] [2] [] [4; 5; 6] [[7; 8; 9]]
              None None [] eq_refl eq_refl eq_refl ltac:(repeat split) eq_refl eq_refl
              H1 ltac:(constructor) H2 H3)
    as (S & Hrun & _ & _ & _ & Hbad & Hmirror & Hzeros).
  exists S. split; [exact Hrun |]. split; [exact Hbad |]. split; [exact Hmirror |].
  apply (Hzeros 2%nat). simpl. lia.
Defined.

(** ** The mean of the sigma points *)

(** The sigma points as one list: the centre, the points on the one side,
    the points on the other side. *)
Lemma computeSigmaPoints_explicit
    (self : ukfFMU) (x pars : vec) (sqrtP : list (list R))
    (sqrtQ sqrtR : option (list (list R))) (out : list printed) :
  augmented self = false ->
  N self = (n_state_obs self + n_pars self)%nat ->
  n_points self = (1 + 2 * N self)%nat ->
  no_constraints self ->
  length x = n_state_obs self ->
  length pars = n_pars self ->
  length sqrtP = N self ->
  Forall (fun r => length r = N self) sqrtP ->
  computeSigmaPoints self x pars sqrtP sqrtQ sqrtR out =
  (Ok ((x ++ pars) ::
       map (fun F => zip_with Rplus (x ++ pars) (scale (sqrtC self) F)) sqrtP ++
       map (fun F => zip_with Rminus (x ++ pars) (scale (sqrtC self) F)) sqrtP), out).
Proof.
  intros Hmode HN Hpoints Hfree Hx Hpars HP Hrows.
  rewrite computeSigmaPoints_start by assumption. cbn zeta.
  destruct (sigma_loop_prefix self x pars Hmode HN Hfree Hx Hpars sqrtP [] 0
              (mkFrame (<[0%nat := x ++ pars]> (zeros2 (1 + 2 * N self) (N self))) out))
    as (M' & Hrun & HlenM & Hkeep & Hnew).
  - lia.
  - exact Hrows.
  - apply zeros2_start_length.
  - rewrite app_nil_r in Hrun. change (1 + 0)%nat with 1%nat in *. rewrite Hrun.
    cbn [sigma_loop]. unfold bind, get, ret. cbn [fst snd Xs stdout].
    f_equal. f_equal. apply list_eq. intros j.
    destruct j as [| t].
    + rewrite Hkeep by lia. cbn [Xs].
      rewrite list_lookup_insert_eq by (unfold zeros2; rewrite length_replicate; lia).
      reflexivity.
    + transitivity
        ((map (fun F => zip_with Rplus (x ++ pars) (scale (sqrtC self) F)) sqrtP ++
          map (fun F => zip_with Rminus (x ++ pars) (scale (sqrtC self) F)) sqrtP) !! t);
        [| reflexivity].
      destruct (decide (t < N self)%nat) as [Ht | Ht].
      * destruct (lookup_lt_is_Some_2 sqrtP t ltac:(lia)) as [F HF].
        destruct (Hnew t F HF) as [Hp _]. change (1 + t)%nat with (S t) in Hp. rewrite Hp.
        rewrite lookup_app_l by (rewrite length_map; lia).
        rewrite list_lookup_fmap, HF. reflexivity.
      * destruct (decide (t < 2 * N self)%nat) as [Ht2 | Ht2].
        -- destruct (lookup_lt_is_Some_2 sqrtP (t - N self)%nat ltac:(lia)) as [F HF].
           destruct (Hnew (t - N self)%nat F HF) as [_ Hm].
           replace (1 + (t - N self) + N self)%nat with (S t) in Hm by lia. rewrite Hm.
           rewrite lookup_app_r by (rewrite length_map; lia).
           rewrite length_map, HP, list_lookup_fmap, HF. reflexivity.
        -- rewrite lookup_ge_None_2 by lia.
           rewrite lookup_ge_None_2; [reflexivity |].
           rewrite length_app, !length_map. lia.
Qed.

Lemma zip_with_Rplus_assoc (a b c : vec) :
  zip_with Rplus a (zip_with Rplus b c) = zip_with Rplus (zip_with Rplus a b) c.
Proof.
  revert b c. induction a as [| u a IH]; intros [| v b] [| w c]; cbn; try reflexivity.
  rewrite IH. f_equal. lra.
Qed.

Lemma zip_with_zeros_l (v : vec) : zip_with Rplus (zeros (length v)) v = v.
Proof.
  induction v as [| a v IH]; [reflexivity |].
  cbn. unfold zeros in IH. rewrite IH. f_equal. lra.
Qed.

Lemma row_comb_length (m : nat) (X : matrix) :
  Forall (fun r => length r = m) X ->
  forall w, length (row_comb m w X) = m.
Proof.
  unfold row_comb. induction 1 as [| r X Hr _ IH]; intros [| a w]; cbn;
    try apply length_replicate.
  rewrite length_zip_with, IH. unfold scale. rewrite length_map. lia.
Qed.

Lemma row_comb_app (m : nat) (X1 X2 : matrix) :
  Forall (fun r => length r = m) X2 ->
  forall w1 w2, length w1 = length X1 ->
  row_comb m (w1 ++ w2) (X1 ++ X2) =
  zip_with Rplus (row_comb m w1 X1) (row_comb m w2 X2).
Proof.
  intros H2. induction X1 as [| r X1 IH]; intros [| a w1] w2 Hlen; cbn in Hlen;
    try discriminate.
  - cbn [app]. unfold row_comb at 2. cbn.
    rewrite <- (row_comb_length m X2 H2 w2) at 2. symmetry. apply zip_with_zeros_l.
  - cbn [app]. unfold row_comb at 1 2. cbn [zip zip_with foldr fst snd].
    fold (row_comb m (w1 ++ w2) (X1 ++ X2)). fold (row_comb m w1 X1).
    rewrite IH by lia. apply zip_with_Rplus_assoc.
Qed.

Lemma minus_as_plus (u F : vec) (c : R) :
  zip_with Rminus u (scale c F) = zip_with Rplus u (scale (- c) F).
Proof.
  unfold scale. revert F. induction u as [| a u IH]; intros [| b F]; cbn; try reflexivity.
  rewrite IH. f_equal. lra.
Qed.

Lemma colsum_length (m : nat) (P : matrix) :
  Forall (fun r => length r = m) P ->
  length (foldr (zip_with Rplus) (zeros m) P) = m.
Proof.
  induction 1 as [| r P Hr _ IH]; cbn; [apply length_replicate |].
  rewrite length_zip_with, IH. lia.
Qed.

Lemma side_step (a b d : vec) (w c n' : R) :
  length a = length b -> length b = length d ->
  zip_with Rplus (scale w (zip_with Rplus a (scale c b)))
                 (zip_with Rplus (scale n' a) (scale (w * c) d))
  = zip_with Rplus (scale (n' + w) a) (scale (w * c) (zip_with Rplus b d)).
Proof.
  unfold scale. revert b d.
  induction a as [| u a IH]; intros [| v b] [| z d] H1 H2; cbn in *;
    try discriminate; try reflexivity.
  rewrite IH by lia. f_equal. lra.
Qed.

Lemma side_start (a : vec) (k : R) :
  zeros (length a) = zip_with Rplus (scale 0 a) (scale k (zeros (length a))).
Proof.
  unfold scale, zeros. induction a as [| u a IH]; [reflexivity |].
  cbn. rewrite <- IH. f_equal. lra.
Qed.

(** The weighted sum of the points on one side of the centre. *)
Lemma row_comb_side (xs : vec) (w c : R) (P : matrix) :
  Forall (fun r => length r = length xs) P ->
  row_comb (length xs) (replicate (length P) w)
           (map (fun F => zip_with Rplus xs (scale c F)) P)
  = zip_with Rplus (scale (INR (length P) * w) xs)
                   (scale (w * c) (foldr (zip_with Rplus) (zeros (length xs)) P)).
Proof.
  induction 1 as [| F P HF HP IH].
  - cbn [length map replicate]. unfold row_comb. cbn [zip zip_with foldr].
    change (INR 0) with 0. rewrite Rmult_0_l. apply side_start.
  - cbn [length map replicate]. unfold row_comb. cbn [zip zip_with foldr fst snd].
    fold (row_comb (length xs) (replicate (length P) w)
            (map (fun F => zip_with Rplus xs (scale c F)) P)).
    rewrite IH. rewrite S_INR.
    rewrite side_step by (rewrite ?colsum_length; auto).
    f_equal. f_equal. lra.
Qed.

Lemma sides_cancel (a d : vec) (w0 k e e' : R) :
  length a = length d -> w0 + 2 * k = 1 -> e + e' = 0 ->
  zip_with Rplus (scale w0 a)
    (zip_with Rplus (zip_with Rplus (scale k a) (scale e d))
                    (zip_with Rplus (scale k a) (scale e' d))) = a.
Proof.
  intros Hlen Hw He. unfold scale. revert d Hlen.
  induction a as [| u a IH]; intros [| z d] Hlen;
    cbn in *; try discriminate; try reflexivity.
  rewrite IH by lia. f_equal. nra.
Qed.

Lemma length_concat_rows (m : nat) (X : matrix) :
  Forall (fun r => length r = m) X -> length (concat X) = (length X * m)%nat.
Proof.
  induction 1 as [| r X Hr _ IH]; [reflexivity |].
  cbn. rewrite length_app, IH, Hr. reflexivity.
Qed.

(** The mean weights give back the centre of a symmetric set of points. *)
Lemma row_comb_symmetric (xs : vec) (c l : R) (P : matrix) :
  Forall (fun r => length r = length xs) P ->
  INR (length P) + l <> 0 ->
  row_comb (length xs) (weights_m (length P) l)
    (xs :: map (fun F => zip_with Rplus xs (scale c F)) P ++
           map (fun F => zip_with Rminus xs (scale c F)) P) = xs.
Proof.
  intros HP Hnz. unfold weights_m.
  replace (2 * length P)%nat with (length P + length P)%nat by lia.
  rewrite replicate_add.
  unfold row_comb at 1. cbn [zip zip_with foldr fst snd].
  match goal with
  | |- zip_with Rplus _ ?t = _ =>
      change t with
        (row_comb (length xs)
           (replicate (length P) (1 / (2 * (INR (length P) + l))) ++
            replicate (length P) (1 / (2 * (INR (length P) + l))))
           (map (fun F => zip_with Rplus xs (scale c F)) P ++
            map (fun F => zip_with Rminus xs (scale c F)) P))
  end.
  rewrite row_comb_app.
  - rewrite (map_ext (fun F => zip_with Rminus xs (scale c F))
               (fun F => zip_with Rplus xs (scale (- c) F)))
      by (intros F; apply minus_as_plus).
    rewrite !row_comb_side by exact HP.
    apply sides_cancel.
    + rewrite colsum_length by exact HP. reflexivity.
    + field. exact Hnz.
    + ring.
  - apply Forall_map. eapply Forall_impl; [exact HP |].
    intros F HF. cbn beta in *. rewrite length_zip_with. unfold scale.
    rewrite length_map. lia.
  - rewrite length_replicate, length_map. reflexivity.
Qed.

Lemma setUKFparams_inv (alpha0 beta0 : R) (k0 : option R) (self0 self : ukfFMU) :
  setUKFparams alpha0 beta0 k0 self0 = (Ok tt, self) ->
  alpha0 <> 0 /\ 0 < INR (N self0) + effective_k self0 k0 /\
  self = with_params alpha0 beta0 k0 self0.
Proof.
  intros Hrun.
  destruct (Req_dec_T alpha0 0) as [Ha | Ha].
  { pose proof (setUKFparams_breaks alpha0 beta0 k0 self0 (or_introl Ha)) as Hb.
    rewrite Hrun in Hb. discriminate. }
  destruct (Rle_dec (INR (N self0) + effective_k self0 k0) 0) as [Hk | Hk].
  { pose proof (setUKFparams_breaks alpha0 beta0 k0 self0 (or_intror Hk)) as Hb.
    rewrite Hrun in Hb. discriminate. }
  rewrite setUKFparams_ok in Hrun by lra. inversion Hrun. split; [exact Ha |].
  split; [lra | reflexivity].
Qed.

(** The mean of the points that [computeSigmaPoints] draws, with the
    weights that [setUKFparams] has computed. *)
Lemma averageProj_explicit
    (alpha0 beta0 : R) (k0 : option R) (self0 self : ukfFMU)
    (x pars : vec) (sqrtP : list (list R)) :
  setUKFparams alpha0 beta0 k0 self0 = (Ok tt, self) ->
  N self = (n_state_obs self + n_pars self)%nat ->
  n_points self = (1 + 2 * N self)%nat ->
  length x = n_state_obs self ->
  length pars = n_pars self ->
  length sqrtP = N self ->
  Forall (fun r => length r = N self) sqrtP ->
  averageProj self
    ((x ++ pars) ::
     map (fun F => zip_with Rplus (x ++ pars) (scale (sqrtC self) F)) sqrtP ++
     map (fun F => zip_with Rminus (x ++ pars) (scale (sqrtC self) F)) sqrtP)
  = Ok (x ++ pars).
Proof.
  intros Hset HN Hpoints Hx Hpars HP Hrows.
  apply setUKFparams_inv in Hset as (Ha & Hk & Hself).
  assert (HNeq : N self = N self0) by (rewrite Hself; reflexivity).
  assert (Hxs : length (x ++ pars) = N self) by (rewrite length_app; lia).
  set (l := alpha0 ^ 2 * (INR (N self0) + effective_k self0 k0) - INR (N self0)).
  assert (HWm : W_m self = weights_m (length sqrtP) l).
  { rewrite Hself, HP, HNeq. reflexivity. }
  assert (Hnz : INR (length sqrtP) + l <> 0).
  { rewrite HP, HNeq. unfold l.
    assert (0 < alpha0 ^ 2) by nra.
    assert (0 < alpha0 ^ 2 * (INR (N self0) + effective_k self0 k0))
      by (apply Rmult_lt_0_compat; lra).
    lra. }
  set (S := (x ++ pars) ::
            map (fun F => zip_with Rplus (x ++ pars) (scale (sqrtC self) F)) sqrtP ++
            map (fun F => zip_with Rminus (x ++ pars) (scale (sqrtC self) F)) sqrtP).
  assert (HlenS : length S = n_points self).
  { unfold S. cbn [length]. rewrite length_app, !length_map. lia. }
  assert (HrowsS : Forall (fun r => length r = N self) S).
  { unfold S. apply Forall_cons. split; [exact Hxs |].
    apply Forall_app. split; apply Forall_map; (eapply Forall_impl; [exact Hrows |]);
      intros F HF; cbn beta in *; rewrite length_zip_with; unfold scale;
      rewrite length_map; lia. }
  unfold averageProj.
  destruct (decide (n_points self = 0%nat)) as [H0 | _]; [lia |].
  assert (Hmod : (length (concat S) mod n_points self = 0)%nat).
  { rewrite (length_concat_rows _ _ HrowsS), HlenS.
    rewrite (Nat.mul_comm (n_points self)). apply Nat.Div0.mod_mul. }
  assert (Hlw : length (W_m self) = length S).
  { rewrite HWm, HlenS. unfold weights_m. cbn [length]. rewrite length_replicate. lia. }
  destruct (decide (length (concat S) mod n_points self = 0)%nat) as [_ | Hne];
    [| contradiction].
  destruct (decide (length (W_m self) = length S)) as [_ | Hne]; [| contradiction].
  rewrite HWm. f_equal. unfold ncols, S. cbn [hd].
  apply row_comb_symmetric; [| exact Hnz].
  rewrite Hxs. exact Hrows.
Qed.

(** X21.  The unscented transform is exact on the mean: with the weights that
    [setUKFparams] has computed, [averageProj] of the sigma points that
    [computeSigmaPoints] draws around [x], [pars] returns [x] followed by
    [pars], whatever the factor [sqrtP] is. *)
Theorem averageProj_of_sigma_points
    (alpha0 beta0 : R) (k0 : option R) (self0 self : ukfFMU)
    (x pars : vec) (sqrtP : list (list R))
    (sqrtQ sqrtR : option (list (list R))) (out : list printed) :
  setUKFparams alpha0 beta0 k0 self0 = (Ok tt, self) ->
  augmented self = false ->
  N self = (n_state_obs self + n_pars self)%nat ->
  n_points self = (1 + 2 * N self)%nat ->
  no_constraints self ->
  length x = n_state_obs self ->
  length pars = n_pars self ->
  length sqrtP = N self ->
  Forall (fun r => length r = N self) sqrtP ->
  exists S : list (list R),
    computeSigmaPoints self x pars sqrtP sqrtQ sqrtR out = (Ok S, out) /\
    averageProj self S = Ok (x ++ pars).
Proof.
  intros Hset Hmode HN Hpoints Hfree Hx Hpars HP Hrows.
  eexists. split; [apply computeSigmaPoints_explicit; assumption |].
  exact (averageProj_explicit alpha0 beta0 k0 self0 self x pars sqrtP
           Hset HN Hpoints Hx Hpars HP Hrows).
Qed.

Lemma averageProj_of_sigma_points_witness :
  setUKFparams 1 2 (Some 2) (blank 2 1 1 1 false) = (Ok tt, example_ukf) /\
  exists S : list (list R),
    computeSigmaPoints example_ukf [1] [2] [[3; 0]; [4; 5]] None None [] = (Ok S, []) /\
    averageProj example_ukf S = Ok ([1] ++ [2]).
Proof.
  assert (H : setUKFparams 1 2 (Some 2) (blank 2 1 1 1 false) = (Ok tt, example_ukf)).
  { apply setUKFparams_ok; [lra | simpl; lra]. }
  split; [exact H |].
  apply (averageProj_of_sigma_points 1 2 (Some 2) (blank 2 1 1 1 false) example_ukf
           [1] [2] [[3; 0]; [4; 5]] None None [] H);
    [reflexivity | reflexivity | reflexivity | repeat split | reflexivity | reflexivity
    | reflexivity | repeat constructor].
Defined.

(** ** Sigma points under active constraints *)

Lemma Xs_constrain_row_ok (self : ukfFMU) (i : nat) (r r' : vec) (f : frame) :
  Xs f !! i = Some r ->
  constrained self r = Ok r' ->
  Xs_constrain_row self i f = (Ok tt, mkFrame (<[i := r']> (Xs f)) (stdout f)).
Proof.
  intros Hr Hc. unfold Xs_constrain_row.
  rewrite (bind_run _ _ _ f f) by reflexivity.
  rewrite (bind_run _ _ _ f r) by (unfold lift; rewrite (getitem_ok _ _ _ Hr); reflexivity).
  rewrite (bind_run _ _ _ f r') by (unfold lift; rewrite Hc; reflexivity).
  apply Xs_set_row_run. eapply lookup_lt_Some. exact Hr.
Qed.

Section SigmaClipped.

Variable self : ukfFMU.
Variables x pars : vec.

Hypothesis Hmode : augmented self = false.
Hypothesis HN : N self = (n_state_obs self + n_pars self)%nat.
Hypothesis Hx : length x = n_state_obs self.
Hypothesis Hpars : length pars = n_pars self.

(** What the clipping of a row gives is all that is used of it. *)
Variable clipped : vec -> Prop.
Hypothesis Hclip :
  forall r, length r = N self -> exists r', constrained self r = Ok r' /\ clipped r'.

Lemma sigma_loop_step_clipped (row : vec) (rest : list (list R)) (i : nat) (f : frame) :
  length row = N self ->
  (0 < N self)%nat ->
  (i + N self < length (Xs f))%nat ->
  exists p m : vec,
    clipped p /\ clipped m /\
    sigma_loop self (x ++ pars) (row :: rest) i f =
    sigma_loop self (x ++ pars) rest (i + 1)
      (mkFrame (<[(i + N self)%nat := m]> (<[i := p]> (Xs f))) (stdout f)).
Proof.
  intros Hrow HNpos Hi.
  assert (Hrow' : length row = (length x + length pars)%nat) by lia.
  destruct (row_updates Rplus (sqrtC self) x pars row Hrow') as (p1 & Hp1 & Hp2 & _).
  destruct (row_updates Rminus (sqrtC self) x pars row Hrow') as (m1 & Hm1 & _ & Hm2).
  rewrite Hx in Hp1, Hp2, Hm1, Hm2. rewrite Hpars in Hp2.
  set (plus := zip_with Rplus (x ++ pars) (scale (sqrtC self) row)) in *.
  set (minus := zip_with Rminus (x ++ pars) (scale (sqrtC self) row)) in *.
  assert (Hlp : length plus = N self).
  { unfold plus. rewrite length_zip_with, length_app. unfold scale. rewrite length_map. lia. }
  assert (Hlm : length minus = N self).
  { unfold minus. rewrite length_zip_with, length_app. unfold scale. rewrite length_map. lia. }
  destruct (Hclip plus Hlp) as (p & Hcp & Hp).
  destruct (Hclip minus Hlm) as (m & Hcm & Hm).
  exists p, m. split; [exact Hp |]. split; [exact Hm |].
  cbn [sigma_loop]. cbn zeta. rewrite Hmode.
  erewrite bind_run; [| apply Xs_set_row_run; lia].
  erewrite bind_run; [| apply Xs_set_row_run; cbn [Xs]; rewrite length_insert; lia].
  erewrite bind_run.
  2:{ apply catch_ValueError_ok.
      erewrite bind_run.
      2:{ erewrite bind_run;
            [| eapply Xs_slice_op_run; [cbn [Xs]; rows; reflexivity | exact Hp1]].
          erewrite bind_run;
            [| eapply Xs_slice_op_run; [cbn [Xs]; rows; reflexivity | exact Hp2]].
          erewrite bind_run;
            [| eapply Xs_slice_op_run; [cbn [Xs]; rows; reflexivity | exact Hm1]].
          eapply Xs_slice_from_op_run; [cbn [Xs]; rows; reflexivity | exact Hm2]. }
      reflexivity. }
  cbn iota.
  erewrite bind_run;
    [| eapply Xs_constrain_row_ok; [cbn [Xs]; rows; reflexivity | exact Hcp]].
  erewrite bind_run;
    [| eapply Xs_constrain_row_ok; [cbn [Xs]; rows; reflexivity | exact Hcm]].
  cbn [Xs stdout]. f_equal. f_equal.
  apply list_eq. intros j.
  destruct (decide (j = (i + N self)%nat)) as [-> | Hj1]; [rows; reflexivity |].
  destruct (decide (j = i)) as [-> | Hj2]; rows; reflexivity.
Qed.

Lemma sigma_loop_clipped (rest : list (list R)) :
  forall (d : nat) (f : frame),
    (d + length rest = N self)%nat ->
    Forall (fun r => length r = N self) rest ->
    length (Xs f) = (1 + 2 * N self)%nat ->
    exists M' : list (list R),
      sigma_loop self (x ++ pars) rest (1 + d) f = (Ok M', mkFrame M' (stdout f)) /\
      length M' = (1 + 2 * N self)%nat /\
      (forall j, (j <= d \/ (N self < j /\ j <= N self + d))%nat -> M' !! j = Xs f !! j) /\
      (forall j, (d < j <= N self \/ N self + d < j <= 2 * N self)%nat ->
         exists r, M' !! j = Some r /\ clipped r).
Proof.
  induction rest as [| row rest IH]; intros d f Hd Hrows Hlen.
  - exists (Xs f). cbn [sigma_loop]. split; [destruct f; reflexivity |].
    split; [exact Hlen |]. split; [reflexivity |].
    intros j Hj. cbn [length] in Hd. lia.
  - cbn [length] in Hd. apply Forall_cons in Hrows as [Hrow Hrows].
    destruct (sigma_loop_step_clipped row rest (1 + d) f Hrow ltac:(lia) ltac:(lia))
      as (p & m & Hp & Hm & Hstep).
    rewrite Hstep.
    replace (1 + d + 1)%nat with (1 + S d)%nat by lia.
    destruct (IH (S d) (mkFrame (<[(1 + d + N self)%nat := m]>
                                   (<[(1 + d)%nat := p]> (Xs f))) (stdout f)))
      as (M' & Hrun & HlenM & Hkeep & Hnew).
    + lia.
    + exact Hrows.
    + cbn [Xs]. rewrite !length_insert. exact Hlen.
    + exists M'. cbn [Xs stdout] in *.
      split; [exact Hrun |]. split; [exact HlenM |]. split.
      * intros j Hj. rewrite Hkeep by lia. rows. reflexivity.
      * intros j Hj.
        destruct (decide (j = 1 + d)%nat) as [-> | H1].
        { exists p. split; [| exact Hp]. rewrite Hkeep by lia. rows. reflexivity. }
        destruct (decide (j = 1 + d + N self)%nat) as [-> | H2].
        { exists m. split; [| exact Hm]. rewrite Hkeep by lia. rows. reflexivity. }
        apply Hnew. lia.
Qed.

End SigmaClipped.

(** X22.  With every state observed and a constraint table without an empty pair
    of bounds, [computeSigmaPoints] returns [1 + 2N] points of which every
    one but the first respects the active bounds on the states and on the
    parameters.  The first point, the centre, is [x] followed by [pars] as
    they were passed: it is not clipped. *)
Theorem computeSigmaPoints_clips_all_but_centre
    (self : ukfFMU) (x pars : vec) (sqrtP : list (list R))
    (sqrtQ sqrtR : option (list (list R))) (out : list printed) :
  augmented self = false ->
  N self = (n_state_obs self + n_pars self)%nat ->
  n_points self = (1 + 2 * N self)%nat ->
  n_state self = n_state_obs self ->
  table_ok (ConstrStateHigh self) (ConstrStateLow self)
           (ConstrStateValueHigh self) (ConstrStateValueLow self) (n_state_obs self) ->
  table_ok (ConstrParsHigh self) (ConstrParsLow self)
           (ConstrParsValueHigh self) (ConstrParsValueLow self) (n_pars self) ->
  length x = n_state_obs self ->
  length pars = n_pars self ->
  length sqrtP = N self ->
  Forall (fun r => length r = N self) sqrtP ->
  exists S : list (list R),
    computeSigmaPoints self x pars sqrtP sqrtQ sqrtR out = (Ok S, out) /\
    length S = (1 + 2 * N self)%nat /\
    S !! 0%nat = Some (x ++ pars) /\
    (forall i, (1 <= i <= 2 * N self)%nat ->
       exists r, S !! i = Some r /\
         (forall j, (j < n_state_obs self)%nat ->
            within (ConstrStateHigh self) (ConstrStateLow self)
                   (ConstrStateValueHigh self) (ConstrStateValueLow self) j j r) /\
         (forall j, (j < n_pars self)%nat ->
            within (ConstrParsHigh self) (ConstrParsLow self)
                   (ConstrParsValueHigh self) (ConstrParsValueLow self) j
                   (n_state_obs self + j) r)).
Proof.
  intros Hmode HN Hpoints Hall Hst Hpa Hx Hpars HP Hrows.
  rewrite computeSigmaPoints_start by assumption. cbn zeta.
  destruct (sigma_loop_clipped self x pars Hmode HN Hx Hpars
              (fun r =>
                 (forall j, (j < n_state_obs self)%nat ->
                    within (ConstrStateHigh self) (ConstrStateLow self)
                           (ConstrStateValueHigh self) (ConstrStateValueLow self) j j r) /\
                 (forall j, (j < n_pars self)%nat ->
                    within (ConstrParsHigh self) (ConstrParsLow self)
                           (ConstrParsValueHigh self) (ConstrParsValueLow self) j
                           (n_state_obs self + j) r))
              ltac:(intros r Hr; apply constrained_respects_bounds; [assumption | lia | assumption | assumption])
              sqrtP 0
              (mkFrame (<[0%nat := x ++ pars]> (zeros2 (1 + 2 * N self) (N self))) out))
    as (S & Hrun & HlenS & Hkeep & Hnew).
  - lia.
  - exact Hrows.
  - apply zeros2_start_length.
  - exists S. change (1 + 0)%nat with 1%nat in Hrun. rewrite Hrun.
    cbn [fst snd stdout Xs] in *.
    split; [reflexivity |]. split; [exact HlenS |]. split.
    + rewrite Hkeep by lia. apply list_lookup_insert_eq.
      unfold zeros2. rewrite length_replicate. lia.
    + intros i Hi. apply Hnew. lia.
Qed.

Lemma computeSigmaPoints_clips_all_but_centre_witness :
  n_state example_ukf_bounded = n_state_obs example_ukf_bounded /\
  length [1] = n_state_obs example_ukf_bounded /\
  length [3] = n_pars example_ukf_bounded /\
  length [[1; 0]; [0; 1]] = N example_ukf_bounded /\
  exists S : list (list R),
    computeSigmaPoints example_ukf_bounded [1] [3] [[1; 0]; [0; 1]] None None [] = (Ok S, []) /\
    S !! 0%nat = Some ([1] ++ [3]) /\
    exists r, S !! 2%nat = Some r /\
              within (ConstrParsHigh example_ukf_bounded) (ConstrParsLow example_ukf_bounded)
                     (ConstrParsValueHigh example_ukf_bounded)
                     (ConstrParsValueLow example_ukf_bounded) 0 1 r.
Proof.
  split; [reflexivity |]. split; [reflexivity |]. split; [reflexivity |].
  split; [reflexivity |].
  destruct example_ukf_bounded_tables as [Hst Hpa].
  destruct (computeSigmaPoints_clips_all_but_centre example_ukf_bounded [1] [3]
              [[1; 0]; [0; 1]] None None [] eq_refl eq_refl eq_refl eq_refl Hst Hpa
              eq_refl eq_refl eq_refl ltac:(repeat constructor))
    as (S & Hrun & _ & H0 & Hrest).
  exists S. split; [exact Hrun |]. split; [exact H0 |].
  destruct (Hrest 2%nat ltac:(simpl; lia)) as (r & Hr & _ & Hp).
  exists r. split; [exact Hr |]. apply (Hp 0%nat). simpl. lia.
Defined.

(** ** The covariance of the sigma points *)

Lemma forallb_lengths (n : nat) (A : matrix) :
  Forall (fun r => length r = n) A -> forallb (fun r => (length r =? n)%nat) A = true.
Proof.
  induction 1 as [| r A Hr _ IH]; [reflexivity |].
  cbn. rewrite IH. rewrite (proj2 (Nat.eqb_eq _ _) Hr). reflexivity.
Qed.

Lemma np_dot_ok (A B : matrix) :
  Forall (fun r => length r = length B) A ->
  np_dot A B = Ok (map (fun r => row_comb (ncols B) r B) A).
Proof. intros H. unfold np_dot. rewrite (forallb_lengths _ _ H). reflexivity. Qed.

Lemma map_ext_Forall' {A B} (f g : A -> B) (P : A -> Prop) (l : list A) :
  (forall a, P a -> f a = g a) -> Forall P l -> map f l = map g l.
Proof.
  intros Hfg. induction 1 as [| a l Ha _ IH]; [reflexivity |].
  cbn. rewrite IH, (Hfg a Ha). reflexivity.
Qed.

Lemma sub_row_ok (X : matrix) (a : vec) :
  Forall (fun r => length r = length a) X ->
  sub_row X a = Ok (map (fun r => zip_with Rminus r a) X).
Proof.
  unfold sub_row. induction 1 as [| r X Hr _ IH]; [reflexivity |].
  cbn [map_res map]. rewrite IH. unfold bcast2.
  destruct (decide (length r = length a)) as [_ | Hne]; [reflexivity | contradiction].
Qed.

Lemma plus_minus_centre (xs F : vec) (c : R) :
  length F = length xs ->
  zip_with Rminus (zip_with Rplus xs (scale c F)) xs = scale c F.
Proof.
  unfold scale. revert F. induction xs as [| a xs IH]; intros [| b F] H; cbn in *;
    try discriminate; try reflexivity.
  rewrite IH by lia. f_equal. lra.
Qed.

Lemma minus_minus_centre (xs F : vec) (c : R) :
  length F = length xs ->
  zip_with Rminus (zip_with Rminus xs (scale c F)) xs = scale (- c) F.
Proof.
  unfold scale. revert F. induction xs as [| a xs IH]; intros [| b F] H; cbn in *;
    try discriminate; try reflexivity.
  rewrite IH by lia. f_equal. lra.
Qed.

(** The deviations of the sigma points from their centre. *)
Lemma sub_row_sigma_points (xs : vec) (c : R) (P : matrix) :
  Forall (fun r => length r = length xs) P ->
  sub_row (xs :: map (fun F => zip_with Rplus xs (scale c F)) P ++
                 map (fun F => zip_with Rminus xs (scale c F)) P) xs
  = Ok (zeros (length xs) :: map (scale c) P ++ map (scale (- c)) P).
Proof.
  intros HP. rewrite sub_row_ok.
  - cbn [map]. rewrite zip_with_minus_self. rewrite map_app, !map_map.
    f_equal. f_equal. f_equal.
    + apply (map_ext_Forall' _ _ _ _ (fun F H => plus_minus_centre xs F c H) HP).
    + apply (map_ext_Forall' _ _ _ _ (fun F H => minus_minus_centre xs F c H) HP).
  - apply Forall_cons. split; [reflexivity |].
    apply Forall_app. split; apply Forall_map; (eapply Forall_impl; [exact HP |]);
      intros F HF; cbn beta in *; rewrite !length_zip_with; unfold scale;
      rewrite length_map; lia.
Qed.

Lemma scale_zeros (k : R) (n : nat) : scale k (zeros n) = zeros n.
Proof.
  unfold scale, zeros. induction n as [| n IH]; [reflexivity |].
  cbn. rewrite IH. f_equal. lra.
Qed.

Lemma zeros_app (a b : nat) : zeros (a + b) = zeros a ++ zeros b.
Proof. unfold zeros. apply replicate_add. Qed.

Lemma insert_zeros (n k : nat) (a : R) :
  (k < n)%nat -> <[k := a]> (zeros n) = zeros k ++ a :: zeros (n - k - 1).
Proof.
  intros Hk. replace n with (k + S (n - k - 1))%nat at 1 by lia.
  rewrite zeros_app. unfold zeros at 2. cbn [replicate].
  rewrite insert_app_r_alt by (unfold zeros; rewrite length_replicate; lia).
  unfold zeros. rewrite length_replicate, Nat.sub_diag. reflexivity.
Qed.

(** A row times a diagonal matrix. *)
Lemma row_comb_diag_from (wc : vec) :
  forall (u : vec) (k n : nat),
    length u = length wc -> (k + length wc <= n)%nat ->
    row_comb n u (imap (fun i a => <[(k + i)%nat := a]> (zeros n)) wc)
    = zeros k ++ zip_with Rmult u wc ++ zeros (n - k - length wc).
Proof.
  induction wc as [| a wc IH]; intros [| b u] k n Hlen Hk; cbn in Hlen; try discriminate.
  - unfold row_comb. cbn. rewrite Nat.sub_0_r. rewrite <- zeros_app. f_equal. lia.
  - cbn [length] in Hk. cbn [imap]. unfold row_comb. cbn [zip zip_with foldr fst snd].
    fold (row_comb n u (imap ((fun i a => <[(k + i)%nat := a]> (zeros n)) ∘ S) wc)).
    rewrite (imap_ext _ (fun i a => <[(S k + i)%nat := a]> (zeros n)))
      by (intros i y _; cbn; f_equal; lia).
    rewrite IH by lia.
    rewrite Nat.add_0_r, insert_zeros by lia.
    unfold scale. rewrite map_app. cbn [map]. fold (scale b (zeros k)).
    fold (scale b (zeros (n - k - 1))). rewrite !scale_zeros.
    replace (zeros (S k)) with (zeros k ++ [0])
      by (replace (S k) with (k + 1)%nat by lia; rewrite zeros_app; reflexivity).
    rewrite <- app_assoc. cbn [app].
    rewrite zip_with_app by reflexivity. cbn [zip_with].
    f_equal.
    + rewrite <- (length_replicate k 0) at 1. apply zip_with_zeros_l.
    + f_equal; [lra |]. cbn [length].
      replace (n - k - S (length wc))%nat with (n - S k - length wc)%nat by lia.
      replace (n - k - 1)%nat
        with (length (zip_with Rmult u wc ++ zeros (n - S k - length wc))).
      * apply zip_with_zeros_l.
      * rewrite length_app, length_zip_with. unfold zeros. rewrite length_replicate. lia.
Qed.

Lemma length_np_diag (w : vec) : length (np_diag w) = length w.
Proof. unfold np_diag. apply length_imap. Qed.

Lemma ncols_np_diag (w : vec) : ncols (np_diag w) = length w.
Proof.
  unfold ncols, np_diag. destruct w as [| a w]; [reflexivity |].
  cbn [imap hd]. rewrite length_insert. apply length_replicate.
Qed.

Lemma row_comb_diag (wc u : vec) :
  length u = length wc ->
  row_comb (length wc) u (np_diag wc) = zip_with Rmult u wc.
Proof.
  intros Hlen. unfold np_diag.
  pose proof (row_comb_diag_from wc u 0 (length wc) Hlen ltac:(lia)) as H.
  cbn [Nat.add] in H. rewrite H.
  replace (length wc - 0 - length wc)%nat with 0%nat by lia.
  cbn. apply app_nil_r.
Qed.

Lemma nth_scale (c : R) (F : vec) (a : nat) : nth a (scale c F) 0 = c * nth a F 0.
Proof.
  unfold scale. revert a. induction F as [| b F IH]; intros [| a]; cbn;
    try lra; try reflexivity. apply IH.
Qed.

Lemma nth_zeros (n a : nat) : nth a (zeros n) 0 = 0.
Proof.
  unfold zeros. revert a. induction n as [| n IH]; intros [| a]; cbn; try reflexivity.
  apply IH.
Qed.

Lemma side_product_step (F R' : vec) (c f w : R) :
  length F = length R' ->
  zip_with Rplus (scale (c * f * w) (scale c F)) (scale (w * c * c) R')
  = scale (w * c * c) (zip_with Rplus (scale f F) R').
Proof.
  unfold scale. revert R'. induction F as [| b F IH]; intros [| r R'] H; cbn in *;
    try discriminate; try reflexivity.
  rewrite IH by lia. f_equal. lra.
Qed.

(** The weighted products of the points on one side. *)
Lemma row_comb_side_product (m a : nat) (c w : R) (P : matrix) :
  Forall (fun r => length r = m) P ->
  row_comb m (zip_with Rmult (map (fun F => nth a (scale c F) 0) P) (replicate (length P) w))
           (map (scale c) P)
  = scale (w * c * c) (row_comb m (map (fun F => nth a F 0) P) P).
Proof.
  induction 1 as [| F P HF HP IH].
  - unfold row_comb. cbn. symmetry. apply scale_zeros.
  - cbn [length map replicate zip_with]. unfold row_comb.
    cbn [zip zip_with foldr fst snd].
    fold (row_comb m (zip_with Rmult (map (fun F => nth a (scale c F) 0) P)
                        (replicate (length P) w)) (map (scale c) P)).
    fold (row_comb m (map (fun F => nth a F 0) P) P).
    rewrite IH, nth_scale. apply side_product_step.
    rewrite row_comb_length by exact HP. exact HF.
Qed.

Lemma sides_add (R' : vec) (z k k' : R) :
  k + k' = 1 ->
  zip_with Rplus (scale z (zeros (length R')))
    (zip_with Rplus (scale k R') (scale k' R')) = R'.
Proof.
  intros Hk. unfold scale, zeros. induction R' as [| r R' IH]; [reflexivity |].
  cbn. rewrite IH. f_equal. nra.
Qed.

Lemma ncols_square (m : nat) (P : matrix) :
  length P = m -> Forall (fun r => length r = m) P -> ncols P = m.
Proof.
  intros Hlen HP. unfold ncols. destruct HP as [| r P Hr _]; [exact Hlen | exact Hr].
Qed.

Lemma np_dot_transpose_self (m : nat) (P : matrix) :
  length P = m -> Forall (fun r => length r = m) P ->
  np_dot (transpose P) P
  = Ok (map (fun j => row_comb m (map (fun F => nth j F 0) P) P) (seq 0 m)).
Proof.
  intros Hlen HP. rewrite np_dot_ok.
  - unfold transpose. rewrite (ncols_square m P Hlen HP), map_map. reflexivity.
  - unfold transpose. apply Forall_map. apply Forall_forall. intros j _. cbn beta.
    apply length_map.
Qed.

(** The weighted product of the deviations of a symmetric set of points:
    the centre does not count, and the two sides count alike. *)
Lemma weighted_product_sigma (m : nat) (c w wc0 : R) (P : matrix) :
  length P = m -> Forall (fun r => length r = m) P ->
  2 * (w * c * c) = 1 ->
  weighted_product (np_diag (wc0 :: replicate (length P) w ++ replicate (length P) w))
    (zeros m :: map (scale c) P ++ map (scale (- c)) P)
    (zeros m :: map (scale c) P ++ map (scale (- c)) P)
  = np_dot (transpose P) P.
Proof.
  intros Hlen HP Hw.
  set (wc := wc0 :: replicate (length P) w ++ replicate (length P) w).
  set (V := zeros m :: map (scale c) P ++ map (scale (- c)) P).
  assert (HlV : length V = length wc).
  { unfold V, wc. cbn [length]. rewrite !length_app, !length_map, !length_replicate.
    reflexivity. }
  assert (HrowsV : Forall (fun r => length r = m) V).
  { unfold V. apply Forall_cons. split; [apply length_replicate |].
    apply Forall_app. split; apply Forall_map; (eapply Forall_impl; [exact HP |]);
      intros F HF; cbn beta in *; unfold scale; rewrite length_map; exact HF. }
  assert (HncV : ncols V = m) by (unfold ncols, V; cbn [hd]; apply length_replicate).
  rewrite (np_dot_transpose_self m P Hlen HP).
  unfold weighted_product. rewrite np_dot_ok.
  2:{ unfold transpose. apply Forall_map. apply Forall_forall. intros j _. cbn beta.
      rewrite length_map, length_np_diag. exact HlV. }
  rewrite ncols_np_diag. unfold transpose. rewrite HncV, map_map.
  rewrite (map_ext _ (fun j => zip_with Rmult (map (fun r => nth j r 0) V) wc))
    by (intros j; apply row_comb_diag; rewrite length_map; exact HlV).
  rewrite np_dot_ok.
  2:{ apply Forall_map. apply Forall_forall. intros j _. cbn beta.
      rewrite length_zip_with, length_map. lia. }
  rewrite HncV, map_map. f_equal. apply map_ext. intros j.
  unfold V at 1, wc. cbn [map zip_with]. rewrite map_app, !map_map.
  rewrite zip_with_app by (rewrite length_map, length_replicate; reflexivity).
  unfold V. unfold row_comb at 1. cbn [zip zip_with foldr fst snd].
  match goal with
  | |- zip_with Rplus _ (foldr _ _ (zip ?ws ?X)) = _ =>
      change (foldr (fun p acc => zip_with Rplus (scale (fst p) (snd p)) acc)
                (zeros m) (zip ws X))
        with (row_comb m ws X)
  end.
  rewrite row_comb_app.
  - rewrite !row_comb_side_product by exact HP.
    set (R' := row_comb m (map (fun F => nth j F 0) P) P).
    assert (HR : length R' = m) by (apply row_comb_length; exact HP).
    rewrite nth_zeros. replace (zeros m) with (zeros (length R')) by (rewrite HR; reflexivity).
    apply sides_add. lra.
  - apply Forall_map. eapply Forall_impl; [exact HP |].
    intros F HF. cbn beta in *. unfold scale. rewrite length_map. exact HF.
  - rewrite length_zip_with, !length_map, length_replicate. lia.
Qed.

(** The weighted product of the deviations of the sigma points from their
    centre, with the weights and the spread that [setUKFparams] has computed. *)
Lemma weighted_product_explicit
    (alpha0 beta0 : R) (k0 : option R) (self0 self : ukfFMU)
    (x pars : vec) (sqrtP : list (list R)) :
  setUKFparams alpha0 beta0 k0 self0 = (Ok tt, self) ->
  N self = (n_state_obs self + n_pars self)%nat ->
  n_points self = (1 + 2 * N self)%nat ->
  length x = n_state_obs self ->
  length pars = n_pars self ->
  length sqrtP = N self ->
  Forall (fun r => length r = N self) sqrtP ->
  weight_matrix self = Ok (np_diag (W_c self)) /\
  weighted_product (np_diag (W_c self))
    (zeros (length (x ++ pars)) :: map (scale (sqrtC self)) sqrtP ++
                                   map (scale (- sqrtC self)) sqrtP)
    (zeros (length (x ++ pars)) :: map (scale (sqrtC self)) sqrtP ++
                                   map (scale (- sqrtC self)) sqrtP)
  = np_dot (transpose sqrtP) sqrtP.
Proof.
  intros Hset HN Hpoints Hx Hpars HP Hrows.
  apply setUKFparams_inv in Hset as (Ha & Hk & Hself).
  assert (HNeq : N self = N self0) by (rewrite Hself; reflexivity).
  assert (Hxs : length (x ++ pars) = N self) by (rewrite length_app; lia).
  set (kv := effective_k self0 k0) in *.
  set (l := alpha0 ^ 2 * (INR (N self0) + kv) - INR (N self0)).
  assert (HWc : W_c self = weights_c (length sqrtP) l alpha0 beta0).
  { rewrite Hself, HP, HNeq. reflexivity. }
  assert (Hc : sqrtC self = alpha0 * sqrt (kv + INR (N self0))).
  { rewrite Hself. reflexivity. }
  assert (Hnl : INR (N self0) + l = alpha0 ^ 2 * (INR (N self0) + kv)) by (unfold l; lra).
  assert (Hpos : 0 < alpha0 ^ 2 * (INR (N self0) + kv)).
  { assert (0 < alpha0 ^ 2) by nra. apply Rmult_lt_0_compat; lra. }
  assert (Hsq : sqrt (kv + INR (N self0)) * sqrt (kv + INR (N self0)) = kv + INR (N self0))
    by (apply sqrt_sqrt; lra).
  assert (HlWc : length (W_c self) = n_points self).
  { rewrite HWc. unfold weights_c. cbn [length]. rewrite length_replicate. lia. }
  split.
  { unfold weight_matrix.
    destruct (decide (length (W_c self) = n_points self)) as [_ | Hne];
      [reflexivity | contradiction]. }
  rewrite <- Hxs in Hrows.
  rewrite HWc. unfold weights_c.
  replace (2 * length sqrtP)%nat with (length sqrtP + length sqrtP)%nat by lia.
  rewrite replicate_add.
  apply weighted_product_sigma; [lia | exact Hrows |].
  rewrite HP, HNeq, Hnl, Hc.
  transitivity ((alpha0 ^ 2 * (sqrt (kv + INR (N self0)) * sqrt (kv + INR (N self0))))
                / (alpha0 ^ 2 * (INR (N self0) + kv))).
  - field. lra.
  - rewrite Hsq. field. lra.
Qed.

(** X23.  The unscented transform is exact on the covariance: with the weights
    and the spread [sqrtC] that [setUKFparams] has computed, [computeP] of the
    sigma points drawn around [x], [pars] with the factor [sqrtP], taken
    about their centre, is [sqrtP.T * sqrtP] plus [Q]. *)
Theorem computeP_of_sigma_points
    (alpha0 beta0 : R) (k0 : option R) (self0 self : ukfFMU)
    (x pars : vec) (sqrtP : list (list R)) (Q : list (list R))
    (sqrtQ sqrtR : option (list (list R))) (out : list printed) :
  setUKFparams alpha0 beta0 k0 self0 = (Ok tt, self) ->
  augmented self = false ->
  N self = (n_state_obs self + n_pars self)%nat ->
  n_points self = (1 + 2 * N self)%nat ->
  no_constraints self ->
  length x = n_state_obs self ->
  length pars = n_pars self ->
  length sqrtP = N self ->
  Forall (fun r => length r = N self) sqrtP ->
  exists S PtP : list (list R),
    computeSigmaPoints self x pars sqrtP sqrtQ sqrtR out = (Ok S, out) /\
    np_dot (transpose sqrtP) sqrtP = Ok PtP /\
    computeP self S (x ++ pars) Q = bcast2_rows Rplus PtP Q.
Proof.
  intros Hset Hmode HN Hpoints Hfree Hx Hpars HP Hrows.
  eexists. eexists.
  split; [apply computeSigmaPoints_explicit; assumption |].
  split; [apply (np_dot_transpose_self (N self)); assumption |].
  destruct (weighted_product_explicit alpha0 beta0 k0 self0 self x pars sqrtP
              Hset HN Hpoints Hx Hpars HP Hrows) as [HW Hprod].
  assert (Hxs : length (x ++ pars) = N self) by (rewrite length_app; lia).
  unfold computeP. rewrite HW.
  rewrite sub_row_sigma_points by (rewrite Hxs; exact Hrows).
  unfold __AugStateFromFullState__, __newQ__.
  rewrite Hprod, (np_dot_transpose_self (N self)) by assumption. reflexivity.
Qed.

Lemma computeP_of_sigma_points_witness :
  setUKFparams 1 2 (Some 2) (blank 2 1 1 1 false) = (Ok tt, example_ukf) /\
  exists S PtP : list (list R),
    computeSigmaPoints example_ukf [1] [2] [[3; 0]; [4; 5]] None None [] = (Ok S, []) /\
    np_dot (transpose [[3; 0]; [4; 5]]) [[3; 0]; [4; 5]] = Ok PtP /\
    computeP example_ukf S ([1] ++ [2]) [[1; 0]; [0; 1]] = bcast2_rows Rplus PtP [[1; 0]; [0; 1]].
Proof.
  assert (H : setUKFparams 1 2 (Some 2) (blank 2 1 1 1 false) = (Ok tt, example_ukf)).
  { apply setUKFparams_ok; [lra | simpl; lra]. }
  split; [exact H |].
  apply (computeP_of_sigma_points 1 2 (Some 2) (blank 2 1 1 1 false) example_ukf
           [1] [2] [[3; 0]; [4; 5]] [[1; 0]; [0; 1]] None None [] H);
    [reflexivity | reflexivity | reflexivity | repeat split | reflexivity | reflexivity
    | reflexivity | repeat constructor].
Defined.

(** X24.  The cross covariance of the sigma points with themselves: [computeCxx]
    takes their weighted mean, which is the centre, and returns
    [sqrtP.T * sqrtP]. *)
Theorem computeCxx_of_sigma_points
    (alpha0 beta0 : R) (k0 : option R) (self0 self : ukfFMU)
    (x pars : vec) (sqrtP : list (list R))
    (sqrtQ sqrtR : option (list (list R))) (out : list printed) :
  setUKFparams alpha0 beta0 k0 self0 = (Ok tt, self) ->
  augmented self = false ->
  N self = (n_state_obs self + n_pars self)%nat ->
  n_points self = (1 + 2 * N self)%nat ->
  no_constraints self ->
  length x = n_state_obs self ->
  length pars = n_pars self ->
  length sqrtP = N self ->
  Forall (fun r => length r = N self) sqrtP ->
  exists S : list (list R),
    computeSigmaPoints self x pars sqrtP sqrtQ sqrtR out = (Ok S, out) /\
    computeCxx self S S = np_dot (transpose sqrtP) sqrtP.
Proof.
  intros Hset Hmode HN Hpoints Hfree Hx Hpars HP Hrows.
  eexists. split; [apply computeSigmaPoints_explicit; assumption |].
  destruct (weighted_product_explicit alpha0 beta0 k0 self0 self x pars sqrtP
              Hset HN Hpoints Hx Hpars HP Hrows) as [HW Hprod].
  assert (Hxs : length (x ++ pars) = N self) by (rewrite length_app; lia).
  unfold computeCxx. rewrite HW.
  rewrite (averageProj_explicit alpha0 beta0 k0 self0 self x pars sqrtP
             Hset HN Hpoints Hx Hpars HP Hrows).
  rewrite sub_row_sigma_points by (rewrite Hxs; exact Hrows).
  unfold __AugStateFromFullState__. exact Hprod.
Qed.

Lemma computeCxx_of_sigma_points_witness :
  setUKFparams 1 2 (Some 2) (blank 2 1 1 1 false) = (Ok tt, example_ukf) /\
  exists S : list (list R),
    computeSigmaPoints example_ukf [1] [2] [[3; 0]; [4; 5]] None None [] = (Ok S, []) /\
    computeCxx example_ukf S S = np_dot (transpose [[3; 0]; [4; 5]]) [[3; 0]; [4; 5]].
Proof.
  assert (H : setUKFparams 1 2 (Some 2) (blank 2 1 1 1 false) = (Ok tt, example_ukf)).
  { apply setUKFparams_ok; [lra | simpl; lra]. }
  split; [exact H |].
  apply (computeCxx_of_sigma_points 1 2 (Some 2) (blank 2 1 1 1 false) example_ukf
           [1] [2] [[3; 0]; [4; 5]] None None [] H);
    [reflexivity | reflexivity | reflexivity | repeat split | reflexivity | reflexivity
    | reflexivity | repeat constructor].
Defined.

(** ** The covariance of any set of points *)

(** [np.dot(np.dot(Vx.T, W), Vz)] for a diagonal [W], row by row. *)
Lemma weighted_product_rows (wc : vec) (Vx Vz : matrix) (mx mz : nat) :
  length Vx = length wc -> length Vz = length wc ->
  ncols Vx = mx -> ncols Vz = mz ->
  weighted_product (np_diag wc) Vx Vz
  = Ok (map (fun a => row_comb mz (zip_with Rmult (map (fun r => nth a r 0) Vx) wc) Vz)
            (seq 0 mx)).
Proof.
  intros Hx Hz Hcx Hcz. unfold weighted_product. rewrite np_dot_ok.
  2:{ unfold transpose. apply Forall_map. apply Forall_forall. intros j _. cbn beta.
      rewrite length_map, length_np_diag. exact Hx. }
  rewrite ncols_np_diag. unfold transpose. rewrite Hcx, map_map.
  rewrite (map_ext _ (fun j => zip_with Rmult (map (fun r => nth j r 0) Vx) wc))
    by (intros j; apply row_comb_diag; rewrite length_map; exact Hx).
  rewrite np_dot_ok.
  2:{ apply Forall_map. apply Forall_forall. intros j _. cbn beta.
      rewrite length_zip_with, length_map. lia. }
  rewrite Hcz, map_map. reflexivity.
Qed.

Lemma nth_zip_with_Rplus (u v : vec) (b : nat) :
  length u = length v -> nth b (zip_with Rplus u v) 0 = nth b u 0 + nth b v 0.
Proof.
  revert v b. induction u as [| a u IH]; intros [| c v] b H; cbn in *; try discriminate.
  - destruct b; lra.
  - destruct b as [| b]; [reflexivity | apply IH; lia].
Qed.

(** An entry of a combination of rows is the combination of the entries. *)
Lemma nth_row_comb (m b : nat) (V : matrix) :
  Forall (fun r => length r = m) V ->
  forall u, nth b (row_comb m u V) 0
            = foldr Rplus 0 (zip_with Rmult u (map (fun r => nth b r 0) V)).
Proof.
  induction 1 as [| r V Hr HV IH]; intros [| a u];
    try (unfold row_comb; cbn; apply nth_zeros).
  unfold row_comb. cbn [zip zip_with foldr fst snd map].
  fold (row_comb m u V). rewrite nth_zip_with_Rplus.
  - rewrite nth_scale, IH. reflexivity.
  - unfold scale. rewrite length_map, row_comb_length by exact HV. exact Hr.
Qed.

Lemma weighted_sum_symmetric (ca wc cb : vec) :
  foldr Rplus 0 (zip_with Rmult (zip_with Rmult ca wc) cb)
  = foldr Rplus 0 (zip_with Rmult (zip_with Rmult cb wc) ca).
Proof.
  revert wc cb. induction ca as [| x ca IH]; intros [| w wc] [| y cb]; cbn;
    try reflexivity.
  rewrite IH. lra.
Qed.

Lemma zip_rows_ok (f : R -> R -> R) (m : nat) (A B : matrix) :
  length A = length B ->
  Forall (fun r => length r = m) A -> Forall (fun r => length r = m) B ->
  bcast2_rows f A B = Ok (zip_with (zip_with f) A B).
Proof.
  intros Hlen HA HB. unfold bcast2_rows.
  destruct (decide (length A = length B)) as [_ | Hne]; [| contradiction].
  revert B Hlen HB. induction HA as [| a A Ha _ IH]; intros [| b B] Hlen HB;
    cbn in Hlen; try discriminate; [reflexivity |].
  apply Forall_cons in HB as [Hb HB]. cbn [zip_rows zip_with].
  rewrite IH by (lia || exact HB). unfold bcast2.
  destruct (decide (length a = length b)) as [_ | Hne]; [reflexivity | lia].
Qed.

Lemma getitem2_nth (A : matrix) (a b : nat) (r : vec) :
  A !! a = Some r -> (b < length r)%nat -> getitem2 A a b = Ok (nth b r 0).
Proof.
  intros Hr Hb. apply getitem2_lookup. exists r. split; [exact Hr |].
  destruct (lookup_lt_is_Some_2 r b Hb) as [v Hv].
  rewrite Hv. f_equal. symmetry. apply nth_lookup_Some. exact Hv.
Qed.

(** X25.  Whatever the points are, the covariance that [computeP] returns is
    symmetric when [Q] is: for [n_points] points with [m] entries each, a
    centre of [m] entries and a symmetric [Q] of [m] rows and columns,
    [computeP] returns a matrix [P] of [m] rows with [P[a,b] = P[b,a]]. *)
Theorem computeP_symmetric (self : ukfFMU) (X_p : matrix) (Xa : vec) (Q : matrix) (m : nat) :
  (0 < n_points self)%nat ->
  length (W_c self) = n_points self ->
  length X_p = n_points self ->
  Forall (fun r => length r = m) X_p ->
  length Xa = m ->
  length Q = m ->
  Forall (fun r => length r = m) Q ->
  (forall a b, (a < m)%nat -> (b < m)%nat -> getitem2 Q a b = getitem2 Q b a) ->
  exists P : matrix,
    computeP self X_p Xa Q = Ok P /\
    length P = m /\
    (forall a b, (a < m)%nat -> (b < m)%nat ->
       exists v, getitem2 P a b = Ok v /\ getitem2 P b a = Ok v).
Proof.
  intros Hpos HWc HX Hrows HXa HQ HQrows Hsym.
  unfold computeP, weight_matrix.
  destruct (decide (length (W_c self) = n_points self)) as [_ | Hne]; [| contradiction].
  rewrite sub_row_ok by (rewrite HXa; exact Hrows).
  unfold __AugStateFromFullState__, __newQ__.
  set (V := map (fun r => zip_with Rminus r Xa) X_p).
  assert (HVrows : Forall (fun r => length r = m) V).
  { unfold V. apply Forall_map. eapply Forall_impl; [exact Hrows |].
    intros r Hr. cbn beta in *. rewrite length_zip_with. lia. }
  assert (HlV : length V = length (W_c self)) by (unfold V; rewrite length_map; lia).
  assert (HncV : ncols V = m).
  { unfold ncols. destruct HVrows as [| r V' Hr _]; [cbn in HlV; lia | exact Hr]. }
  rewrite (weighted_product_rows (W_c self) V V m m HlV HlV HncV HncV).
  set (VWV := map (fun a => row_comb m (zip_with Rmult (map (fun r => nth a r 0) V)
                                          (W_c self)) V) (seq 0 m)).
  assert (HVWVrows : Forall (fun r => length r = m) VWV).
  { unfold VWV. apply Forall_map. apply Forall_forall. intros a _. cbn beta.
    apply row_comb_length. exact HVrows. }
  assert (HlVWV : length VWV = m) by (unfold VWV; rewrite length_map; apply length_seq).
  rewrite (zip_rows_ok Rplus m VWV Q) by (lia || assumption).
  eexists. split; [reflexivity |].
  split; [rewrite length_zip_with; lia |].
  assert (Hentry : forall a b, (a < m)%nat -> (b < m)%nat ->
            exists q, getitem2 Q a b = Ok q /\
            getitem2 (zip_with (zip_with Rplus) VWV Q) a b
            = Ok (foldr Rplus 0 (zip_with Rmult
                                   (zip_with Rmult (map (fun r => nth a r 0) V) (W_c self))
                                   (map (fun r => nth b r 0) V)) + q)).
  { intros a b Ha Hb.
    destruct (lookup_lt_is_Some_2 Q a ltac:(lia)) as [qa Hqa].
    assert (Hlqa : length qa = m).
    { eapply (proj1 (Forall_lookup _ _) HQrows). exact Hqa. }
    assert (Hva : VWV !! a = Some (row_comb m (zip_with Rmult (map (fun r => nth a r 0) V)
                                                 (W_c self)) V)).
    { unfold VWV. rewrite list_lookup_fmap, lookup_seq_lt by lia. reflexivity. }
    exists (nth b qa 0). split; [apply getitem2_nth; [exact Hqa | lia] |].
    set (ra := row_comb m (zip_with Rmult (map (fun r => nth a r 0) V) (W_c self)) V) in *.
    assert (Hlra : length ra = m) by (apply row_comb_length; exact HVrows).
    rewrite (getitem2_nth _ a b (zip_with Rplus ra qa)).
    - rewrite nth_zip_with_Rplus by lia. unfold ra.
      rewrite nth_row_comb by exact HVrows. reflexivity.
    - rewrite lookup_zip_with, Hva. cbn. rewrite Hqa. reflexivity.
    - rewrite length_zip_with. lia. }
  intros a b Ha Hb.
  destruct (Hentry a b Ha Hb) as (q & Hq & Hab).
  destruct (Hentry b a Hb Ha) as (q' & Hq' & Hba).
  rewrite (Hsym a b Ha Hb), Hq' in Hq. inversion Hq; subst q'.
  eexists. split; [exact Hab |]. rewrite Hba. f_equal. f_equal.
  apply weighted_sum_symmetric.
Qed.

Lemma computeP_symmetric_witness :
  (0 < n_points example_ukf)%nat /\
  length (W_c example_ukf) = n_points example_ukf /\
  length [[1; 2]; [3; 5]; [0; 1]; [2; 2]; [7; 1]] = n_points example_ukf /\
  exists P : matrix,
    computeP example_ukf [[1; 2]; [3; 5]; [0; 1]; [2; 2]; [7; 1]] [2; 3] [[1; 4]; [4; 9]] = Ok P /\
    exists v, getitem2 P 0 1 = Ok v /\ getitem2 P 1 0 = Ok v.
Proof.
  assert (H1 : (0 < n_points example_ukf)%nat) by (simpl; lia).
  assert (H2 : length (W_c example_ukf) = n_points example_ukf) by reflexivity.
  assert (H3 : length [[1; 2]; [3; 5]; [0; 1]; [2; 2]; [7; 1]] = n_points example_ukf)
    by reflexivity.
  split; [exact H1 |]. split; [exact H2 |]. split; [exact H3 |].
  destruct (computeP_symmetric example_ukf [[1; 2]; [3; 5]; [0; 1]; [2; 2]; [7; 1]] [2; 3]
              [[1; 4]; [4; 9]] 2 H1 H2 H3 ltac:(repeat constructor) eq_refl eq_refl
              ltac:(repeat constructor)) as (P & Hrun & _ & Hsym).
  - intros [| [| a]] [| [| b]] Ha Hb; try lia; reflexivity.
  - exists P. split; [exact Hrun |]. apply Hsym; lia.
Defined.

(** ** The three covariance functions on the same points *)

Lemma zip_with_keep_new (t d : vec) :
  length d = length t -> zip_with (fun _ w : R => w) t d = d.
Proof.
  revert d. induction t as [| a t IH]; intros [| b d] H; cbn in *; try discriminate;
    [reflexivity |].
  rewrite IH by lia. reflexivity.
Qed.

(** The loop [V[j,:] = Z_p[j,:] - Za[0]] from row [a] on. *)
Lemma deviations_loop (Z_p : matrix) (Za0 : vec) (len : nat) :
  Forall (fun r => length r = length Za0) Z_p ->
  forall (a : nat) (V : matrix),
    (a + len = length Z_p)%nat ->
    length V = length Z_p ->
    (forall i, (i < a)%nat -> V !! i = (fun r => zip_with Rminus r Za0) <$> Z_p !! i) ->
    (forall i, (a <= i)%nat -> V !! i = (fun r => zeros (length r)) <$> Z_p !! i) ->
    for_each (seq a len) (fun j (V : matrix) =>
        z <- lift (getitem Z_p j) ;;
        d <- lift (bcast2 Rminus z Za0) ;;
        v <- lift (getitem V j) ;;
        v' <- lift (bcast_into (fun _ w => w) v d) ;;
        lift (setitem V j v')) V tt
    = (Ok (map (fun r => zip_with Rminus r Za0) Z_p), tt).
Proof.
  intros Hrows. induction len as [| len IH]; intros a V Ha HlV Hdone Htodo.
  - cbn. unfold ret. f_equal. f_equal. apply list_eq. intros i.
    rewrite list_lookup_fmap.
    destruct (decide (i < a)%nat) as [Hi | Hi]; [apply Hdone; exact Hi |].
    rewrite !lookup_ge_None_2 by lia. reflexivity.
  - cbn [seq for_each].
    destruct (lookup_lt_is_Some_2 Z_p a ltac:(lia)) as [z Hz].
    assert (Hlz : length z = length Za0).
    { eapply (proj1 (Forall_lookup _ _) Hrows). exact Hz. }
    assert (Hv : V !! a = Some (zeros (length z))).
    { rewrite Htodo by lia. rewrite Hz. reflexivity. }
    erewrite bind_run.
    2:{ erewrite bind_run; [| unfold lift; rewrite (getitem_ok _ _ _ Hz); reflexivity].
        erewrite bind_run.
        2:{ unfold lift, bcast2.
            destruct (decide (length z = length Za0)) as [_ | Hne]; [| contradiction].
            reflexivity. }
        erewrite bind_run; [| unfold lift; rewrite (getitem_ok _ _ _ Hv); reflexivity].
        erewrite bind_run.
        2:{ unfold lift. rewrite bcast_into_same
              by (rewrite length_zip_with; unfold zeros; rewrite length_replicate; lia).
            rewrite zip_with_keep_new
              by (rewrite length_zip_with; unfold zeros; rewrite length_replicate; lia).
            reflexivity. }
        unfold lift. rewrite setitem_ok by lia. reflexivity. }
    apply IH.
    + lia.
    + rewrite length_insert. exact HlV.
    + intros i Hi. destruct (decide (i = a)) as [-> | Hne].
      * rewrite list_lookup_insert_eq by lia. rewrite Hz. reflexivity.
      * rewrite list_lookup_insert_ne by congruence. apply Hdone. lia.
    + intros i Hi. rewrite list_lookup_insert_ne by lia. apply Htodo. lia.
Qed.

Lemma deviations_ok (self : ukfFMU) (Z_p : matrix) (Za0 : vec) :
  length Z_p = n_points self ->
  Forall (fun r => length r = length Za0) Z_p ->
  deviations self Z_p Za0 = sub_row Z_p Za0.
Proof.
  intros Hlen Hrows. rewrite sub_row_ok by exact Hrows.
  unfold deviations, range.
  rewrite (deviations_loop Z_p Za0 (n_points self) Hrows 0).
  - reflexivity.
  - lia.
  - apply length_map.
  - intros i Hi. lia.
  - intros i _. apply list_lookup_fmap.
Qed.

(** X26.  On [n_points] points of the width of their centre, the loop of
    [computeCovZ] builds the deviations that [computeP] gets by broadcasting:
    the two functions return the same, and [computeP] is [computeCovXZ] of
    the points with themselves, plus [Q]. *)
Theorem covariance_functions_agree (self : ukfFMU) (X_p : matrix) (Xa : vec) (Q : matrix) :
  length X_p = n_points self ->
  Forall (fun r => length r = length Xa) X_p ->
  computeCovZ self X_p Xa Q = computeP self X_p Xa Q /\
  computeP self X_p Xa Q =
    match computeCovXZ self X_p Xa X_p Xa with
    | Ok C => bcast2_rows Rplus C Q
    | Raise e => Raise e
    end.
Proof.
  intros Hlen Hrows.
  unfold computeCovZ, computeP, computeCovXZ, __AugStateFromFullState__, __newQ__.
  rewrite (deviations_ok self X_p Xa Hlen Hrows).
  destruct (weight_matrix self) as [W | e]; [| split; reflexivity].
  destruct (sub_row X_p Xa) as [D | e]; [| split; reflexivity].
  split; reflexivity.
Qed.

Lemma covariance_functions_agree_witness :
  length [[1; 2]; [3; 5]; [0; 1]; [2; 2]; [7; 1]] = n_points example_ukf /\
  computeCovZ example_ukf [[1; 2]; [3; 5]; [0; 1]; [2; 2]; [7; 1]] [2; 3] [[1; 4]; [4; 9]]
  = computeP example_ukf [[1; 2]; [3; 5]; [0; 1]; [2; 2]; [7; 1]] [2; 3] [[1; 4]; [4; 9]].
Proof.
  assert (H : length [[1; 2]; [3; 5]; [0; 1]; [2; 2]; [7; 1]] = n_points example_ukf)
    by reflexivity.
  split; [exact H |].
  apply (covariance_functions_agree example_ukf [[1; 2]; [3; 5]; [0; 1]; [2; 2]; [7; 1]]
           [2; 3] [[1; 4]; [4; 9]] H).
  repeat constructor.
Defined.

(** ** Sigma points of the augmented filter *)

(** X27.  The augmented filter needs both noise factors.  With [sqrtQ] or [sqrtR]
    left at its default [None], the blocks cannot be stacked:
    [computeSigmaPoints] raises [ValueError], outside of its [try] blocks,
    and nothing has been printed. *)
Theorem computeSigmaPoints_augmented_needs_noise_factors
    (self : ukfFMU) (x pars : vec) (sqrtP : list (list R))
    (sqrtQ sqrtR : option (list (list R))) (out : list printed) :
  augmented self = true ->
  length x = n_state_obs self ->
  length pars = n_pars self ->
  sqrtQ = None \/ sqrtR = None ->
  computeSigmaPoints self x pars sqrtP sqrtQ sqrtR out = (Raise ValueError, out).
Proof.
  intros Hmode Hx Hpars Hnone.
  unfold computeSigmaPoints, computeSigmaPoints_body.
  rewrite (proj2 (Nat.eqb_eq _ _) Hx), (proj2 (Nat.eqb_eq _ _) Hpars). cbn [negb].
  rewrite Hmode.
  erewrite bind_run; [| reflexivity].
  assert (HF : augmented_factor self sqrtP sqrtQ sqrtR = Raise ValueError).
  { unfold augmented_factor. destruct Hnone as [-> | ->]; [reflexivity |].
    destruct sqrtQ; reflexivity. }
  rewrite HF. reflexivity.
Qed.

Lemma computeSigmaPoints_augmented_needs_noise_factors_witness :
  augmented (blank 1 1 1 1 true) = true /\
  computeSigmaPoints (blank 1 1 1 1 true) [1] [2] [[1; 0]; [0; 1]] (Some [[1; 0]; [0; 1]]) None []
  = (Raise ValueError, []).
Proof.
  split; [reflexivity |].
  apply computeSigmaPoints_augmented_needs_noise_factors;
    [reflexivity | reflexivity | reflexivity | right; reflexivity].
Defined.

Lemma zip_with_replicate_right {A B C} (f : A -> B -> C) (l : list A) (n : nat) (b : B) :
  length l = n -> zip_with f l (replicate n b) = map (fun a => f a b) l.
Proof.
  intros <-. induction l as [| a l IH]; [reflexivity |]. cbn. rewrite IH. reflexivity.
Qed.

Lemma zip_with_replicate_left {A B C} (f : A -> B -> C) (l : list B) (n : nat) (a : A) :
  length l = n -> zip_with f (replicate n a) l = map (fun b => f a b) l.
Proof.
  intros <-. induction l as [| b l IH]; [reflexivity |]. cbn. rewrite IH. reflexivity.
Qed.

Lemma hstack3 (A B C : matrix) :
  length A = length B -> length B = length C ->
  hstack [A; B; C] = Ok (zip_with app A (zip_with app B C)).
Proof.
  intros HAB HBC. cbn [hstack].
  destruct (decide (length B = length C)) as [_ | Hne]; [| contradiction].
  destruct (decide (length A = length (zip_with app B C))) as [_ | Hne]; [reflexivity |].
  rewrite length_zip_with in Hne. lia.
Qed.

Lemma vstack_cons_ok (A : matrix) (rest : list matrix) (r : matrix) :
  vstack rest = Ok r ->
  A = [] \/ r = [] \/ ncols A = ncols r ->
  vstack (A :: rest) = Ok (A ++ r).
Proof.
  intros Hrest Hfit. cbn [vstack]. rewrite Hrest.
  destruct A as [| a A]; [reflexivity |].
  destruct r as [| b r]; [rewrite app_nil_r; reflexivity |].
  destruct Hfit as [Hfit | [Hfit | Hfit]]; try discriminate.
  destruct (decide (ncols (a :: A) = ncols (b :: r))) as [_ | Hne]; [reflexivity | contradiction].
Qed.

Lemma ncols_rows (w : nat) (A : matrix) :
  Forall (fun r => length r = w) A -> A = [] \/ ncols A = w.
Proof. intros [| r A' Hr _]; [left; reflexivity | right; exact Hr]. Qed.

Lemma block_rows_width (m no : nat) (P Q Rm : matrix) :
  Forall (fun r => length r = m) P ->
  Forall (fun r => length r = m) Q ->
  Forall (fun r => length r = no) Rm ->
  Forall (fun r => length r = (m + m + no)%nat) (block_rows m no P Q Rm).
Proof.
  intros HP HQ HR. unfold block_rows.
  repeat (apply Forall_app; split); apply Forall_map;
    [eapply Forall_impl; [exact HP |] | eapply Forall_impl; [exact HQ |]
    | eapply Forall_impl; [exact HR |]];
    intros r Hr; cbn beta in *; rewrite !length_app; unfold zeros;
    rewrite !length_replicate; lia.
Qed.

(** The stacking of the augmented factor, for blocks of the right sizes. *)
Lemma augmented_factor_ok (self : ukfFMU) (P Q Rm : matrix) :
  length P = (n_state_obs self + n_pars self)%nat ->
  length Q = (n_state_obs self + n_pars self)%nat ->
  length Rm = n_outputs self ->
  Forall (fun r => length r = (n_state_obs self + n_pars self)%nat) P ->
  Forall (fun r => length r = (n_state_obs self + n_pars self)%nat) Q ->
  Forall (fun r => length r = n_outputs self) Rm ->
  augmented_factor self P (Some Q) (Some Rm)
  = Ok (block_rows (n_state_obs self + n_pars self) (n_outputs self) P Q Rm).
Proof.
  intros HlP HlQ HlR HP HQ HR. unfold augmented_factor.
  set (m := (n_state_obs self + n_pars self)%nat) in *.
  set (no := n_outputs self) in *.
  assert (Hz : forall a b, length (zeros2 a b) = a)
    by (intros a b; unfold zeros2; apply length_replicate).
  rewrite !hstack3 by (rewrite ?Hz; lia).
  assert (H1 : zip_with app P (zip_with app (zeros2 m m) (zeros2 m no))
               = map (fun r => r ++ zeros m ++ zeros no) P).
  { unfold zeros2. rewrite (zip_with_replicate_right _ _ m) by apply length_replicate.
    rewrite fmap_replicate.
    apply zip_with_replicate_right. exact HlP. }
  assert (H2 : zip_with app (zeros2 m m) (zip_with app Q (zeros2 m no))
               = map (fun r => zeros m ++ r ++ zeros no) Q).
  { unfold zeros2. rewrite (zip_with_replicate_right _ Q m) by exact HlQ.
    rewrite (zip_with_replicate_left _ _ m) by (rewrite length_map; exact HlQ).
    rewrite map_map. reflexivity. }
  assert (H3 : zip_with app (zeros2 no m) (zip_with app (zeros2 no m) Rm)
               = map (fun r => zeros m ++ zeros m ++ r) Rm).
  { unfold zeros2. rewrite (zip_with_replicate_left _ Rm no) by exact HlR.
    rewrite (zip_with_replicate_left _ _ no) by (rewrite length_map; exact HlR).
    rewrite map_map. reflexivity. }
  rewrite H1, H2, H3. unfold block_rows.
  assert (W1 : Forall (fun r => length r = (m + m + no)%nat)
                 (map (fun r => r ++ zeros m ++ zeros no) P)).
  { apply Forall_map. eapply Forall_impl; [exact HP |]. intros r Hr. cbn beta in *.
    rewrite !length_app. unfold zeros. rewrite !length_replicate. lia. }
  assert (W2 : Forall (fun r => length r = (m + m + no)%nat)
                 (map (fun r => zeros m ++ r ++ zeros no) Q)).
  { apply Forall_map. eapply Forall_impl; [exact HQ |]. intros r Hr. cbn beta in *.
    rewrite !length_app. unfold zeros. rewrite !length_replicate. lia. }
  assert (W3 : Forall (fun r => length r = (m + m + no)%nat)
                 (map (fun r => zeros m ++ zeros m ++ r) Rm)).
  { apply Forall_map. eapply Forall_impl; [exact HR |]. intros r Hr. cbn beta in *.
    rewrite !length_app. unfold zeros. rewrite !length_replicate. lia. }
  assert (V3 : vstack [map (fun r => zeros m ++ zeros m ++ r) Rm]
               = Ok (map (fun r => zeros m ++ zeros m ++ r) Rm)).
  { rewrite <- (app_nil_r (map _ Rm)) at 2.
    apply vstack_cons_ok; [reflexivity | right; left; reflexivity]. }
  assert (V2 : vstack [map (fun r => zeros m ++ r ++ zeros no) Q;
                       map (fun r => zeros m ++ zeros m ++ r) Rm]
               = Ok (map (fun r => zeros m ++ r ++ zeros no) Q ++
                     map (fun r => zeros m ++ zeros m ++ r) Rm)).
  { apply vstack_cons_ok; [exact V3 |].
    destruct (ncols_rows _ _ W2) as [-> | E2]; [left; reflexivity |].
    destruct (ncols_rows _ _ W3) as [-> | E3]; [right; left; reflexivity |].
    right; right. congruence. }
  apply vstack_cons_ok; [exact V2 |].
  destruct (ncols_rows _ _ W1) as [-> | E1]; [left; reflexivity |].
  assert (W23 : Forall (fun r => length r = (m + m + no)%nat)
                  (map (fun r => zeros m ++ r ++ zeros no) Q ++
                   map (fun r => zeros m ++ zeros m ++ r) Rm))
    by (apply Forall_app; split; assumption).
  destruct (ncols_rows _ _ W23) as [-> | E23]; [right; left; reflexivity |].
  right; right. congruence.
Qed.

(** The slices of a row, updated one after the other from the left: after
    the slice that ends at [a], the row is updated up to [a]. *)
Lemma progressive_update (f : R -> R -> R) (c : R) (xs0 row : vec) (a b : nat) :
  length row = length xs0 -> (a <= b <= length xs0)%nat ->
  slice_update f
    (zip_with f (take a xs0) (scale c (take a row)) ++ drop a xs0) a b
    (scale c (slice row a b))
  = Ok (zip_with f (take b xs0) (scale c (take b row)) ++ drop b xs0).
Proof.
  intros Hrow Hab.
  set (v1 := zip_with f (take a xs0) (scale c (take a row))).
  assert (Hv1 : length v1 = a).
  { unfold v1. rewrite length_zip_with. unfold scale. rewrite length_map, !length_take. lia. }
  assert (Hd : drop a xs0 = slice xs0 a b ++ drop b xs0).
  { unfold slice. rewrite <- (take_drop (b - a) (drop a xs0)) at 1.
    rewrite drop_drop. do 2 f_equal. lia. }
  rewrite Hd. rewrite <- Hv1 at 2.
  rewrite slice_update_parts.
  - rewrite app_assoc. f_equal. unfold v1, slice, scale.
    rewrite <- zip_with_app
      by (rewrite length_map, !length_take; lia).
    rewrite <- map_app, !take_take_drop.
    replace (a + (b - a))%nat with b by lia. reflexivity.
  - unfold scale, slice. rewrite length_map, !length_take, !length_drop. lia.
  - rewrite Hv1. apply take_app_length'. unfold slice.
    rewrite length_take, length_drop. lia.
Qed.

Lemma progressive_update_last (f : R -> R -> R) (c : R) (xs0 row : vec) (a : nat) :
  length row = length xs0 -> (a <= length xs0)%nat ->
  slice_update f
    (zip_with f (take a xs0) (scale c (take a row)) ++ drop a xs0) a
    (length (zip_with f (take a xs0) (scale c (take a row)) ++ drop a xs0))
    (scale c (slice_from row a))
  = Ok (zip_with f xs0 (scale c row)).
Proof.
  intros Hrow Ha.
  assert (Hl : length (zip_with f (take a xs0) (scale c (take a row)) ++ drop a xs0)
               = length xs0).
  { rewrite length_app, length_zip_with, length_drop. unfold scale.
    rewrite length_map, !length_take. lia. }
  rewrite Hl.
  replace (slice_from row a) with (slice row a (length xs0))
    by (unfold slice, slice_from; apply take_ge; rewrite length_drop; lia).
  rewrite progressive_update by lia.
  rewrite drop_ge by lia. rewrite app_nil_r.
  rewrite !take_ge by lia. reflexivity.
Qed.

Section SigmaLoop.

Variable self : ukfFMU.
Variable xs0 : vec.

(** A pass of the loop body that writes the two points of its row. *)
Hypothesis Hstep :
  forall (row : vec) (rest : list (list R)) (i : nat) (f : frame),
    length row = N self ->
    (0 < N self)%nat ->
    (i + N self < length (Xs f))%nat ->
    sigma_loop self xs0 (row :: rest) i f =
    sigma_loop self xs0 rest (i + 1)
      (mkFrame (<[(i + N self)%nat := zip_with Rminus xs0 (scale (sqrtC self) row)]>
                  (<[i := zip_with Rplus xs0 (scale (sqrtC self) row)]> (Xs f)))
               (stdout f)).

Lemma sigma_loop_all (rest : list (list R)) :
  forall (d : nat) (f : frame),
    (d + length rest = N self)%nat ->
    Forall (fun r => length r = N self) rest ->
    length (Xs f) = (1 + 2 * N self)%nat ->
    exists M' : list (list R),
      sigma_loop self xs0 rest (1 + d) f = (Ok M', mkFrame M' (stdout f)) /\
      length M' = (1 + 2 * N self)%nat /\
      (forall j, (j <= d \/ (N self < j /\ j <= N self + d))%nat -> M' !! j = Xs f !! j) /\
      (forall t row, rest !! t = Some row ->
         M' !! (1 + d + t)%nat = Some (zip_with Rplus xs0 (scale (sqrtC self) row)) /\
         M' !! (1 + d + t + N self)%nat = Some (zip_with Rminus xs0 (scale (sqrtC self) row))).
Proof.
  induction rest as [| row rest IH]; intros d f Hd Hrows Hlen.
  - exists (Xs f). cbn [sigma_loop]. split; [destruct f; reflexivity |].
    split; [exact Hlen |]. split; [reflexivity |].
    intros t row Ht. rewrite lookup_nil in Ht. discriminate.
  - cbn [length] in Hd. apply Forall_cons in Hrows as [Hrow Hrows].
    rewrite Hstep by (try exact Hrow; lia).
    replace (1 + d + 1)%nat with (1 + S d)%nat by lia.
    set (plus := zip_with Rplus xs0 (scale (sqrtC self) row)).
    set (minus := zip_with Rminus xs0 (scale (sqrtC self) row)).
    destruct (IH (S d) (mkFrame (<[(1 + d + N self)%nat := minus]>
                                   (<[(1 + d)%nat := plus]> (Xs f))) (stdout f)))
      as (M' & Hrun & HlenM & Hkeep & Hnew).
    + lia.
    + exact Hrows.
    + cbn [Xs]. rewrite !length_insert. exact Hlen.
    + exists M'. cbn [Xs stdout] in *.
      split; [exact Hrun |]. split; [exact HlenM |]. split.
      * intros j Hj. rewrite Hkeep by lia. rows. reflexivity.
      * intros t row' Ht. destruct t as [| t].
        -- cbn in Ht. inversion Ht; subst row'.
           rewrite !Nat.add_0_r. rewrite !Hkeep by lia.
           split; rows; reflexivity.
        -- cbn in Ht. destruct (Hnew t row' Ht) as [Hp Hm].
           replace (1 + d + S t)%nat with (1 + S d + t)%nat by lia.
           split; assumption.
Qed.

End SigmaLoop.

Section SigmaAugmented.

Variable self : ukfFMU.
Variables x pars : vec.

Hypothesis Hmode : augmented self = true.
Hypothesis HN :
  N self = (n_state_obs self + n_pars self + n_state_obs self + n_pars self
            + n_outputs self)%nat.
Hypothesis Hfree : no_constraints self.
Hypothesis Hx : length x = n_state_obs self.
Hypothesis Hpars : length pars = n_pars self.

Lemma length_augmented_centre :
  length (x ++ pars ++ zeros (n_state_obs self + n_pars self) ++ zeros (n_outputs self))
  = N self.
Proof. rewrite !length_app. unfold zeros. rewrite !length_replicate. lia. Qed.

(** One pass of the loop body of the augmented filter: the four slices
    cover the row. *)
Lemma sigma_loop_step_augmented (row : vec) (rest : list (list R)) (i : nat) (f : frame) :
  length row = N self ->
  (0 < N self)%nat ->
  (i + N self < length (Xs f))%nat ->
  sigma_loop self
    (x ++ pars ++ zeros (n_state_obs self + n_pars self) ++ zeros (n_outputs self))
    (row :: rest) i f =
  sigma_loop self
    (x ++ pars ++ zeros (n_state_obs self + n_pars self) ++ zeros (n_outputs self))
    rest (i + 1)
    (mkFrame
       (<[(i + N self)%nat :=
            zip_with Rminus
              (x ++ pars ++ zeros (n_state_obs self + n_pars self) ++ zeros (n_outputs self))
              (scale (sqrtC self) row)]>
          (<[i := zip_with Rplus
                    (x ++ pars ++ zeros (n_state_obs self + n_pars self)
                       ++ zeros (n_outputs self))
                    (scale (sqrtC self) row)]> (Xs f)))
       (stdout f)).
Proof.
  intros Hrow HNpos Hi.
  set (xs0 := x ++ pars ++ zeros (n_state_obs self + n_pars self) ++ zeros (n_outputs self)).
  pose proof length_augmented_centre as Hxs0. fold xs0 in Hxs0.
  assert (Hrow' : length row = length xs0) by lia.
  set (nso := n_state_obs self) in *. set (npa := n_pars self) in *.
  set (c := sqrtC self).
  set (Z := fun (f : R -> R -> R) (a : nat) =>
              zip_with f (take a xs0) (scale c (take a row)) ++ drop a xs0).
  assert (Hp1 : slice_update Rplus xs0 0 nso (scale c (slice row 0 nso)) = Ok (Z Rplus nso))
    by (apply (progressive_update Rplus c xs0 row 0 nso Hrow'); lia).
  assert (Hp2 : slice_update Rplus (Z Rplus nso) nso (nso + npa)
                  (scale c (slice row nso (nso + npa))) = Ok (Z Rplus (nso + npa)%nat))
    by (apply (progressive_update Rplus c xs0 row nso (nso + npa) Hrow'); lia).
  assert (Hp3 : slice_update Rplus (Z Rplus (nso + npa)%nat) (nso + npa) (nso + npa + nso)
                  (scale c (slice row (nso + npa) (nso + npa + nso)))
                = Ok (Z Rplus (nso + npa + nso)%nat))
    by (apply (progressive_update Rplus c xs0 row (nso + npa) (nso + npa + nso) Hrow'); lia).
  assert (Hp4 : slice_update Rplus (Z Rplus (nso + npa + nso)%nat) (nso + npa + nso)
                  (length (Z Rplus (nso + npa + nso)%nat))
                  (scale c (slice_from row (nso + npa + nso)))
                = Ok (zip_with Rplus xs0 (scale c row)))
    by (apply (progressive_update_last Rplus c xs0 row (nso + npa + nso) Hrow'); lia).
  assert (Hm1 : slice_update Rminus xs0 0 nso (scale c (slice row 0 nso)) = Ok (Z Rminus nso))
    by (apply (progressive_update Rminus c xs0 row 0 nso Hrow'); lia).
  assert (Hm2 : slice_update Rminus (Z Rminus nso) nso (nso + npa)
                  (scale c (slice row nso (nso + npa))) = Ok (Z Rminus (nso + npa)%nat))
    by (apply (progressive_update Rminus c xs0 row nso (nso + npa) Hrow'); lia).
  assert (Hm3 : slice_update Rminus (Z Rminus (nso + npa)%nat) (nso + npa) (nso + npa + nso)
                  (scale c (slice row (nso + npa) (nso + npa + nso)))
                = Ok (Z Rminus (nso + npa + nso)%nat))
    by (apply (progressive_update Rminus c xs0 row (nso + npa) (nso + npa + nso) Hrow'); lia).
  assert (Hm4 : slice_update Rminus (Z Rminus (nso + npa + nso)%nat) (nso + npa + nso)
                  (length (Z Rminus (nso + npa + nso)%nat))
                  (scale c (slice_from row (nso + npa + nso)))
                = Ok (zip_with Rminus xs0 (scale c row)))
    by (apply (progressive_update_last Rminus c xs0 row (nso + npa + nso) Hrow'); lia).
  clearbody Z.
  set (plus := zip_with Rplus xs0 (scale c row)) in *.
  set (minus := zip_with Rminus xs0 (scale c row)) in *.
  cbn [sigma_loop]. cbn zeta. rewrite Hmode. fold nso npa c.
  erewrite bind_run; [| apply Xs_set_row_run; lia].
  erewrite bind_run; [| apply Xs_set_row_run; cbn [Xs]; rewrite length_insert; lia].
  erewrite bind_run.
  2:{ apply catch_ValueError_ok.
      erewrite bind_run.
      2:{ erewrite bind_run;
            [| eapply Xs_slice_op_run; [cbn [Xs]; rows; reflexivity | exact Hp1]].
          erewrite bind_run;
            [| eapply Xs_slice_op_run; [cbn [Xs]; rows; reflexivity | exact Hp2]].
          erewrite bind_run;
            [| eapply Xs_slice_op_run; [cbn [Xs]; rows; reflexivity | exact Hp3]].
          erewrite bind_run;
            [| eapply Xs_slice_from_op_run; [cbn [Xs]; rows; reflexivity | exact Hp4]].
          erewrite bind_run;
            [| eapply Xs_slice_op_run; [cbn [Xs]; rows; reflexivity | exact Hm1]].
          erewrite bind_run;
            [| eapply Xs_slice_op_run; [cbn [Xs]; rows; reflexivity | exact Hm2]].
          erewrite bind_run;
            [| eapply Xs_slice_op_run; [cbn [Xs]; rows; reflexivity | exact Hm3]].
          eapply Xs_slice_from_op_run; [cbn [Xs]; rows; reflexivity | exact Hm4]. }
      reflexivity. }
  cbn iota.
  erewrite bind_run;
    [| eapply Xs_constrain_row_run; [exact Hfree | cbn [Xs]; rows; reflexivity]].
  erewrite bind_run;
    [| eapply Xs_constrain_row_run; [exact Hfree | cbn [Xs]; rows; reflexivity]].
  cbn [Xs stdout]. f_equal. f_equal.
  apply list_eq. intros j.
  destruct (decide (j = (i + N self)%nat)) as [-> | Hj1]; [rows; reflexivity |].
  destruct (decide (j = i)) as [-> | Hj2]; rows; reflexivity.
Qed.

End SigmaAugmented.

(** X28.  The sigma points of the augmented filter.  With [sqrtP] and [sqrtQ] of
    [n_state_obs + n_pars] rows and columns and [sqrtR] of [n_outputs] rows
    and columns, no constraint active: [computeSigmaPoints] prints nothing
    and returns [1 + 2N] points; the centre is [x], [pars] and zeros for the
    two noises; for the row [F] of index [t] of the block-diagonal factor,
    the points [1 + t] and [1 + t + N] are the centre plus and minus
    [sqrtC * F]. *)
Theorem computeSigmaPoints_augmented_rows
    (self : ukfFMU) (x pars : vec) (sqrtP Qm Rm : list (list R)) (out : list printed) :
  augmented self = true ->
  N self = (n_state_obs self + n_pars self + n_state_obs self + n_pars self
            + n_outputs self)%nat ->
  n_points self = (1 + 2 * N self)%nat ->
  no_constraints self ->
  length x = n_state_obs self ->
  length pars = n_pars self ->
  length sqrtP = (n_state_obs self + n_pars self)%nat ->
  Forall (fun r => length r = (n_state_obs self + n_pars self)%nat) sqrtP ->
  length Qm = (n_state_obs self + n_pars self)%nat ->
  Forall (fun r => length r = (n_state_obs self + n_pars self)%nat) Qm ->
  length Rm = n_outputs self ->
  Forall (fun r => length r = n_outputs self) Rm ->
  let centre := x ++ pars ++ zeros (n_state_obs self + n_pars self)
                  ++ zeros (n_outputs self) in
  exists S : list (list R),
    computeSigmaPoints self x pars sqrtP (Some Qm) (Some Rm) out = (Ok S, out) /\
    length S = (1 + 2 * N self)%nat /\
    S !! 0%nat = Some centre /\
    (forall (t : nat) (F : vec),
        block_rows (n_state_obs self + n_pars self) (n_outputs self) sqrtP Qm Rm !! t
        = Some F ->
        S !! (1 + t)%nat = Some (zip_with Rplus centre (scale (sqrtC self) F)) /\
        S !! (1 + t + N self)%nat = Some (zip_with Rminus centre (scale (sqrtC self) F))).
Proof.
  intros Hmode HN Hpoints Hfree Hx Hpars HlP HP HlQ HQ HlR HR centre.
  unfold computeSigmaPoints, computeSigmaPoints_body.
  rewrite (proj2 (Nat.eqb_eq _ _) Hx), (proj2 (Nat.eqb_eq _ _) Hpars). cbn [negb].
  rewrite Hmode, Hpoints, <- HN.
  erewrite bind_run; [| reflexivity].
  rewrite (augmented_factor_ok self sqrtP Qm Rm HlP HlQ HlR HP HQ HR).
  erewrite bind_run; [| reflexivity].
  cbn [fst snd]. fold centre.
  erewrite bind_run;
    [| apply Xs_set_row_run; cbn [Xs]; unfold zeros2; rewrite length_replicate; lia].
  cbn [Xs stdout].
  set (B := block_rows (n_state_obs self + n_pars self) (n_outputs self) sqrtP Qm Rm).
  assert (HlB : length B = N self).
  { unfold B, block_rows. rewrite !length_app, !length_map. lia. }
  assert (HB : Forall (fun r => length r = N self) B).
  { rewrite HN. replace (n_state_obs self + n_pars self + n_state_obs self + n_pars self
                         + n_outputs self)%nat
      with ((n_state_obs self + n_pars self) + (n_state_obs self + n_pars self)
            + n_outputs self)%nat by lia.
    apply block_rows_width; assumption. }
  destruct (sigma_loop_all self centre
              (sigma_loop_step_augmented self x pars Hmode HN Hfree Hx Hpars) B 0
              (mkFrame (<[0%nat := centre]> (zeros2 (1 + 2 * N self) (N self))) out))
    as (S & Hrun & HlenS & Hkeep & Hnew).
  - lia.
  - exact HB.
  - apply zeros2_start_length.
  - exists S. change (1 + 0)%nat with 1%nat in Hrun. rewrite Hrun.
    cbn [fst snd stdout Xs] in *.
    split; [reflexivity |]. split; [exact HlenS |]. split.
    + rewrite Hkeep by lia. apply list_lookup_insert_eq.
      unfold zeros2. rewrite length_replicate. lia.
    + intros t F HF. exact (Hnew t F HF).
Qed.

Lemma computeSigmaPoints_augmented_rows_witness :
  augmented example_ukf_augmented = true /\
  length [[3; 0]; [4; 5]] = (n_state_obs example_ukf_augmented + n_pars example_ukf_augmented)%nat /\
  length [[2%R]] = n_outputs example_ukf_augmented /\
  exists S : list (list R),
    computeSigmaPoints example_ukf_augmented [1] [2] [[3; 0]; [4; 5]]
      (Some [[1; 0]; [0; 1]]) (Some [[2]]) [] = (Ok S, []) /\
    length S = 11%nat /\
    S !! 0%nat = Some [1; 2; 0; 0; 0] /\
    S !! 3%nat = Some (zip_with Rplus [1; 2; 0; 0; 0]
                         (scale (sqrtC example_ukf_augmented) [0; 0; 1; 0; 0])).
Proof.
  split; [reflexivity |]. split; [reflexivity |]. split; [reflexivity |].
  destruct (computeSigmaPoints_augmented_rows example_ukf_augmented [1] [2]
              [[3; 0]; [4; 5]] [[1; 0]; [0; 1]] [[2]] []
              eq_refl eq_refl eq_refl ltac:(repeat split) eq_refl eq_refl
              eq_refl ltac:(repeat constructor) eq_refl ltac:(repeat constructor)
              eq_refl ltac:(repeat constructor))
    as (S & Hrun & Hlen & H0 & Hrows).
  exists S. split; [exact Hrun |]. split; [exact Hlen |]. split; [exact H0 |].
  apply (Hrows 2%nat [0; 0; 1; 0; 0]). reflexivity.
Defined.

(** ** The rank-one update that [cholUpdate] performs *)

Lemma div_all_inv (v : vec) (c : R) (q : vec) :
  div_all v c = Ok q -> (v = [] \/ c <> 0) /\ q = map (fun a => a / c) v.
Proof.
  revert q. induction v as [| a v IH]; intros q H; cbn in H.
  - inversion H. auto.
  - unfold np_div in H. destruct (Req_dec_T c 0) as [Hc | Hc]; [discriminate |].
    destruct (div_all v c) as [qs | e]; [| discriminate].
    inversion H. destruct (IH qs eq_refl) as [_ ->]. auto.
Qed.

Lemma column_values (rows : matrix) (j : nat) (v : vec) :
  column rows j = Ok v -> v = map (fun r => nth j r 0) rows.
Proof.
  revert v. induction rows as [| r rows IH]; intros v H; cbn in H.
  - inversion H. reflexivity.
  - unfold getitem in H. destruct (r !! j) as [a |] eqn:Ea; [| discriminate].
    destruct (column rows j) as [t | e]; [| discriminate].
    inversion H. cbn. rewrite (IH t eq_refl). f_equal.
    symmetry. apply nth_lookup_Some. exact Ea.
Qed.

Lemma bcast2_same (f : R -> R -> R) (u v : vec) :
  length u = length v -> bcast2 f u v = Ok (zip_with f u v).
Proof.
  intros H. unfold bcast2. destruct (decide (length u = length v)); [reflexivity | contradiction].
Qed.

Lemma np_div_inv (a b q : R) : np_div a b = Ok q -> b <> 0 /\ q = a / b.
Proof.
  unfold np_div. destruct (Req_dec_T b 0); intros H; inversion H. auto.
Qed.

(** What a step that returns has computed, for arrays of matching sizes:
    [n] rows of length [n] in the factor, [n] rows in [X]. *)
Lemma cholUpdate_step_explicit (signs : vec) (X : loc) (j k n : nat) (Lc Lc' : matrix)
    (h h' : store) (Xm : matrix) (sg : R) :
  length Lc = n -> Forall (fun r => length r = n) Lc ->
  h !! X = Some Xm -> length Xm = n ->
  getitem signs 0 = Ok sg ->
  cholUpdate_step signs X j k Lc h = (Ok Lc', h') ->
  exists (r : vec) (l xk : R),
    Lc !! k = Some r /\ (k < n)%nat /\ r !! k = Some l /\ l <> 0 /\
    (exists rowk, Xm !! k = Some rowk /\ rowk !! j = Some xk) /\
    let ra := l ^ 2 + sg * xk ^ 2 in
    let rr := if Rlt_dec ra 0 then 0 else sqrt ra in
    let c := rr / l in
    let s := xk / l in
    let xs := map (fun row => nth j row 0) (drop (k + 1) Xm) in
    let q := map (fun a => a / c) (zip_with Rplus (drop (k + 1) r) (scale (sg * s) xs)) in
    (drop (k + 1) r = [] \/ c <> 0) /\
    Lc' = <[k := take k r ++ rr :: q]> Lc /\
    h' = <[X := take (k + 1) Xm ++
                 zip_with (fun row a => <[j := a]> row) (drop (k + 1) Xm)
                          (zip_with Rminus (scale c xs) (scale s q))]> h.
Proof.
  intros HlL HL HX HlX Hsg H. unfold cholUpdate_step in H.
  apply bind_Ok_inv in H as (Lkk & h1 & E1 & H). apply lift_Ok_inv in E1 as [E1 ->].
  apply bind_Ok_inv in H as (sg' & h1 & E2 & H). apply lift_Ok_inv in E2 as [E2 ->].
  rewrite Hsg in E2. inversion E2; subst sg'. clear E2.
  apply bind_Ok_inv in H as (Xm0 & h1 & E3 & H). apply load_Ok_inv in E3 as [E3 ->].
  rewrite HX in E3. inversion E3; subst Xm0. clear E3.
  apply bind_Ok_inv in H as (xk & h1 & E4 & H). apply lift_Ok_inv in E4 as [E4 ->].
  cbn zeta in H.
  set (rr := if Rlt_dec (Lkk ^ 2 + sg * xk ^ 2) 0 then 0 else sqrt (Lkk ^ 2 + sg * xk ^ 2)) in *.
  apply bind_Ok_inv in H as (c & h1 & E5 & H). apply lift_Ok_inv in E5 as [E5 ->].
  apply bind_Ok_inv in H as (s & h1 & E6 & H). apply lift_Ok_inv in E6 as [E6 ->].
  apply bind_Ok_inv in H as (Lc1 & h1 & E7 & H). apply lift_Ok_inv in E7 as [E7 ->].
  apply bind_Ok_inv in H as (Lrow & h1 & E8 & H). apply lift_Ok_inv in E8 as [E8 ->].
  apply bind_Ok_inv in H as (xs & h1 & E9 & H). apply lift_Ok_inv in E9 as [E9 ->].
  apply bind_Ok_inv in H as (t & h1 & E10 & H). apply lift_Ok_inv in E10 as [E10 ->].
  apply bind_Ok_inv in H as (q & h1 & E11 & H). apply lift_Ok_inv in E11 as [E11 ->].
  apply bind_Ok_inv in H as (Lrow' & h1 & E12 & H). apply lift_Ok_inv in E12 as [E12 ->].
  apply bind_Ok_inv in H as (Lc2 & h1 & E13 & H). apply lift_Ok_inv in E13 as [E13 ->].
  apply bind_Ok_inv in H as (t' & h1 & E14 & H). apply lift_Ok_inv in E14 as [E14 ->].
  apply bind_Ok_inv in H as (xs' & h1 & E15 & H). apply lift_Ok_inv in E15 as [E15 ->].
  apply bind_Ok_inv in H as (u & h1 & E16 & H).
  unfold ret in H. inversion H; subst Lc' h1. clear H.
  unfold save in E16. inversion E16; subst h'. clear E16.
  apply getitem2_lookup in E1 as (r & Hr & Hl).
  apply getitem2_lookup in E4 as (rowk & Hrowk & Hxk).
  apply np_div_inv in E5 as [Hl0 ->]. apply np_div_inv in E6 as [_ ->].
  assert (HkL : (k < length Lc)%nat) by (eapply lookup_lt_Some; exact Hr).
  assert (Hlr : length r = n) by (eapply (proj1 (Forall_lookup _ _) HL); exact Hr).
  apply setitem2_inv in E7 as (r0 & Hr0 & Hk & ->).
  rewrite Hr in Hr0. inversion Hr0; subst r0. clear Hr0.
  apply getitem_inv in E8. rewrite list_lookup_insert_eq in E8 by exact HkL.
  inversion E8; subst Lrow. clear E8.
  unfold view_from in E9. pose proof (column_length _ _ _ E9) as Hlxs.
  apply column_values in E9. rewrite length_drop in Hlxs.
  assert (Hdrop : slice_from (<[k := rr]> r) (k + 1) = drop (k + 1) r).
  { unfold slice_from. rewrite drop_insert_lt by lia. reflexivity. }
  rewrite Hdrop in E10.
  rewrite bcast2_same in E10
    by (unfold scale; rewrite length_map, length_drop; lia).
  inversion E10; subst t. clear E10.
  apply div_all_inv in E11 as [Hc Hq].
  assert (Hlq : length q = (n - (k + 1))%nat).
  { rewrite Hq, length_map, length_zip_with, length_drop. unfold scale.
    rewrite length_map. lia. }
  unfold slice_update in E12.
  rewrite bcast_into_same in E12
    by (unfold slice; rewrite length_take, length_drop, length_insert; lia).
  rewrite zip_with_keep_new in E12
    by (unfold slice; rewrite length_take, length_drop, length_insert; lia).
  inversion E12; subst Lrow'. clear E12.
  assert (Hrow' : take (k + 1) (<[k := rr]> r) ++ q ++
                  drop (k + 1 + length q) (<[k := rr]> r) = take k r ++ rr :: q).
  { rewrite (drop_ge (<[k := rr]> r)) by (rewrite length_insert; lia).
    rewrite app_nil_r.
    replace (k + 1)%nat with (S k) by lia.
    rewrite (take_S_r _ k rr) by (apply list_lookup_insert_eq; lia).
    rewrite take_insert_ge by lia. rewrite <- app_assoc. reflexivity. }
  rewrite Hrow' in *.
  apply setitem_inv in E13 as [_ ->].
  assert (Hq' : slice_from (take k r ++ rr :: q) (k + 1) = q).
  { unfold slice_from. rewrite drop_app_ge by (rewrite length_take; lia).
    rewrite length_take. replace (k + 1 - k `min` length r)%nat with 1%nat by lia.
    reflexivity. }
  rewrite Hq' in E14.
  rewrite bcast2_same in E14 by (unfold scale; rewrite !length_map; lia).
  inversion E14; subst t'. clear E14.
  rewrite bcast_into_same in E15
    by (rewrite length_zip_with; unfold scale; rewrite !length_map; lia).
  rewrite zip_with_keep_new in E15
    by (rewrite length_zip_with; unfold scale; rewrite !length_map; lia).
  inversion E15; subst xs'. clear E15.
  exists r, Lkk, xk.
  split; [exact Hr |]. split; [lia |]. split; [exact Hl |]. split; [exact Hl0 |].
  split; [eauto |]. cbn zeta. fold rr. rewrite <- E9.
  split.
  { destruct Hc as [Hc | Hc]; [| right; exact Hc]. left.
    apply (f_equal length) in Hc. rewrite length_zip_with in Hc. unfold scale in Hc.
    rewrite length_map, length_drop in Hc. cbn [length] in Hc.
    apply nil_length_inv. rewrite length_drop. lia. }
  rewrite <- Hq. split; [apply list_insert_insert_eq | reflexivity].
Qed.

Lemma nth_map_in {A B} (f : A -> B) (l : list A) (i : nat) (d : B) (d' : A) :
  (i < length l)%nat -> nth i (map f l) d = f (nth i l d').
Proof.
  revert i. induction l as [| a l IH]; intros [| i] H; cbn in *; try lia; try reflexivity.
  apply IH. lia.
Qed.

Lemma nth_zip_with_in {A B C} (f : A -> B -> C) (u : list A) (v : list B) (i : nat)
    (d : C) (du : A) (dv : B) :
  (i < length u)%nat -> (i < length v)%nat ->
  nth i (zip_with f u v) d = f (nth i u du) (nth i v dv).
Proof.
  revert v i. induction u as [| a u IH]; intros [| b v] [| i] Hu Hv; cbn in *;
    try lia; try reflexivity.
  apply IH; lia.
Qed.

Lemma nth_drop {A} (l : list A) (k i : nat) (d : A) :
  nth i (drop k l) d = nth (k + i) l d.
Proof.
  revert l. induction k as [| k IH]; intros [| a l]; cbn; try reflexivity.
  - destruct i; reflexivity.
  - apply IH.
Qed.

Lemma nth_take {A} (l : list A) (k i : nat) (d : A) :
  (i < k)%nat -> nth i (take k l) d = nth i l d.
Proof.
  revert l i. induction k as [| k IH]; intros [| a l] [| i] H; cbn; try lia; try reflexivity.
  apply IH. lia.
Qed.

Lemma nth_insert_eq {A} (l : list A) (i : nat) (a d : A) :
  (i < length l)%nat -> nth i (<[i := a]> l) d = a.
Proof.
  revert i. induction l as [| b l IH]; intros [| i] H; cbn in *; try lia; try reflexivity.
  apply IH. lia.
Qed.

Lemma nth_insert_ne {A} (l : list A) (i j : nat) (a d : A) :
  i <> j -> nth i (<[j := a]> l) d = nth i l d.
Proof.
  revert i j. induction l as [| b l IH]; intros [| i] [| j] H; cbn in *;
    try lia; try reflexivity.
  apply IH. lia.
Qed.

(** The row of the factor that a step leaves. *)
Lemma updated_row_entries (r xs : vec) (k n : nat) (rr c w : R) :
  length r = n -> length xs = (n - (k + 1))%nat -> (k < n)%nat ->
  let row' := take k r ++ rr ::
              map (fun a => a / c) (zip_with Rplus (drop (k + 1) r) (scale w xs)) in
  length row' = n /\
  (forall t, (t < k)%nat -> nth t row' 0 = nth t r 0) /\
  nth k row' 0 = rr /\
  (forall t, (k < t < n)%nat ->
     nth t row' 0 = (nth t r 0 + w * nth (t - (k + 1)) xs 0) / c).
Proof.
  intros Hr Hxs Hk row'.
  assert (Hlz : length (zip_with Rplus (drop (k + 1) r) (scale w xs)) = (n - (k + 1))%nat).
  { rewrite length_zip_with, length_drop. unfold scale. rewrite length_map. lia. }
  assert (Hlt : length (take k r) = k) by (rewrite length_take; lia).
  split; [| split; [| split]].
  - unfold row'. rewrite length_app. cbn [length]. rewrite length_map, Hlz, Hlt. lia.
  - intros t Ht. unfold row'. rewrite app_nth1 by lia. apply nth_take. exact Ht.
  - unfold row'. rewrite app_nth2 by lia. rewrite Hlt, Nat.sub_diag. reflexivity.
  - intros t Ht. unfold row'. rewrite app_nth2 by lia. rewrite Hlt.
    replace (t - k)%nat with (S (t - (k + 1))) by lia. cbn [nth].
    rewrite (nth_map_in _ _ _ _ 0) by lia.
    rewrite (nth_zip_with_in _ _ _ _ _ 0 0)
      by (rewrite ?length_drop; unfold scale; rewrite ?length_map; lia).
    rewrite nth_drop. replace (k + 1 + (t - (k + 1)))%nat with t by lia.
    unfold scale. rewrite (nth_map_in _ _ _ _ 0) by lia. reflexivity.
Qed.

Lemma Forall_zip_insert (m j : nat) (rows : matrix) (w : vec) :
  Forall (fun r => length r = m) rows ->
  Forall (fun r => length r = m) (zip_with (fun row a => <[j := a]> row) rows w).
Proof.
  intros H. revert w. induction H as [| r rows Hr _ IH]; intros [| a w]; cbn;
    try constructor.
  - rewrite length_insert. exact Hr.
  - apply IH.
Qed.

(** The update array that a step leaves. *)
Lemma updated_X_entries (Xm : matrix) (xs' : vec) (j k n m : nat) :
  length Xm = n -> Forall (fun r => length r = m) Xm -> (j < m)%nat ->
  length xs' = (n - (k + 1))%nat -> (k < n)%nat ->
  let Xm' := take (k + 1) Xm ++
             zip_with (fun row a => <[j := a]> row) (drop (k + 1) Xm) xs' in
  length Xm' = n /\
  Forall (fun r => length r = m) Xm' /\
  (forall t c', (t < n)%nat -> (t <= k)%nat \/ c' <> j -> entry Xm' t c' = entry Xm t c') /\
  (forall t, (k < t < n)%nat -> entry Xm' t j = nth (t - (k + 1)) xs' 0).
Proof.
  intros HX Hrows Hj Hxs Hk Xm'.
  assert (Hlt : length (take (k + 1) Xm) = (k + 1)%nat) by (rewrite length_take; lia).
  assert (Hrow : forall t, (k < t < n)%nat ->
            nth t Xm' [] = <[j := nth (t - (k + 1)) xs' 0]> (nth t Xm [])).
  { intros t Ht. unfold Xm'. rewrite app_nth2 by lia. rewrite Hlt.
    rewrite (nth_zip_with_in _ _ _ _ _ [] 0) by (rewrite ?length_drop; lia).
    rewrite nth_drop. replace (k + 1 + (t - (k + 1)))%nat with t by lia. reflexivity. }
  split; [| split; [| split]].
  - unfold Xm'. rewrite length_app, length_zip_with, length_drop, Hlt. lia.
  - unfold Xm'. apply Forall_app. split.
    + apply Forall_take. exact Hrows.
    + apply Forall_zip_insert. apply Forall_drop. exact Hrows.
  - intros t c' Ht Hcase. unfold entry.
    destruct (decide (t <= k)%nat) as [Hle | Hgt].
    + unfold Xm'. rewrite app_nth1 by lia. rewrite nth_take by lia. reflexivity.
    + destruct Hcase as [Hle | Hne]; [lia |].
      rewrite Hrow by lia. apply nth_insert_ne. exact Hne.
  - intros t Ht. unfold entry. rewrite Hrow by lia. apply nth_insert_eq.
    assert (Hin : (t < length Xm)%nat) by lia.
    destruct (lookup_lt_is_Some_2 Xm t Hin) as [row Hrowt].
    rewrite (nth_lookup_Some _ _ [] _ Hrowt).
    rewrite (proj1 (Forall_lookup _ _) Hrows _ _ Hrowt). exact Hj.
Qed.

Lemma gram_insert (Lc : matrix) (k : nat) (r row' : vec) (a b : nat) :
  Lc !! k = Some r ->
  gram (<[k := row']> Lc) a b
  = gram Lc a b - nth a r 0 * nth b r 0 + nth a row' 0 * nth b row' 0.
Proof.
  unfold gram. revert k. induction Lc as [| r0 Lc IH]; intros [| k] H;
    try discriminate.
  - inversion H. cbn. lra.
  - change (<[S k := row']> (r0 :: Lc)) with (r0 :: <[k := row']> Lc).
    cbn [map foldr]. rewrite (IH k H). lra.
Qed.

(** The rotation of one step, for two columns behind the diagonal. *)
Lemma rank_one_inner (c s sg up uq xp xq P Q : R) :
  c * c = 1 + sg * s * s ->
  c * P = up + sg * s * xp ->
  c * Q = uq + sg * s * xq ->
  P * Q + sg * (c * xp - s * P) * (c * xq - s * Q) = up * uq + sg * xp * xq.
Proof.
  intros Hc HP HQ.
  assert (E : P * Q + sg * (c * xp - s * P) * (c * xq - s * Q)
              = (c * P) * (c * Q) - sg * s * (xp * (c * Q) + xq * (c * P))
                + sg * (c * c) * xp * xq + P * Q * ((1 + sg * s * s) - c * c)) by ring.
  rewrite E, HP, HQ, Hc. ring.
Qed.

Lemma clamped_root_square (ra : R) :
  (if Rlt_dec ra 0 then 0 else sqrt ra) <> 0 ->
  0 <= ra /\ (if Rlt_dec ra 0 then 0 else sqrt ra) * (if Rlt_dec ra 0 then 0 else sqrt ra) = ra.
Proof.
  destruct (Rlt_dec ra 0) as [Hneg | Hpos]; intros H; [contradiction |].
  split; [lra |]. apply sqrt_sqrt. lra.
Qed.

Lemma cholUpdate_rows_frame (signs : vec) (X : loc) (j : nat) (ks : list nat) (i : nat) :
  forall (Lc Lc' : matrix) (h h' : store),
    for_each ks (fun k Lc => cholUpdate_step signs X j k Lc) Lc h = (Ok Lc', h') ->
    i ∉ ks -> Lc' !! i = Lc !! i.
Proof.
  induction ks as [| k ks IH]; intros Lc Lc' h h' Hrun Hi.
  - cbn in Hrun. unfold ret in Hrun. inversion Hrun. reflexivity.
  - cbn in Hrun. apply bind_Ok_inv in Hrun as (Lc1 & h1 & Hstep & Hrun).
    apply not_elem_of_cons in Hi as [Hne Hi].
    rewrite (IH _ _ _ _ Hrun Hi).
    apply cholUpdate_step_diag in Hstep as [_ Hother]. apply Hother. exact Hne.
Qed.

Lemma entry_lookup (A : matrix) (i c : nat) (r : vec) :
  A !! i = Some r -> entry A i c = nth c r 0.
Proof. intros H. unfold entry. rewrite (nth_lookup_Some _ _ [] _ H). reflexivity. Qed.

Lemma masked_lt (k a : nat) (v : R) : (a < k)%nat -> masked k a v = 0.
Proof. intros H. unfold masked. rewrite (proj2 (Nat.ltb_lt _ _) H). reflexivity. Qed.

Lemma masked_ge (k a : nat) (v : R) : (k <= a)%nat -> masked k a v = v.
Proof. intros H. unfold masked. rewrite (proj2 (Nat.ltb_ge _ _) H). reflexivity. Qed.

(** One pass over the rows, for the column [j] of [X]: each step moves one
    entry of the column into the factor and keeps
    [L.T * L + sign * x * x.T], for what is left of [x]. *)
Lemma cholUpdate_pass_gram (signs : vec) (X : loc) (j n m : nat) (sg : R)
    (G0 : nat -> nat -> R) :
  getitem signs 0 = Ok sg -> (j < m)%nat ->
  forall (len a : nat) (Lc : matrix) (h : store) (Xm : matrix) (Lc' : matrix) (h' : store),
    (a + len = n)%nat ->
    length Lc = n -> Forall (fun r => length r = n) Lc -> upper_triangular Lc ->
    h !! X = Some Xm -> length Xm = n -> Forall (fun r => length r = m) Xm ->
    (forall p q, (p < n)%nat -> (q < n)%nat ->
       gram Lc p q + sg * masked a p (entry Xm p j) * masked a q (entry Xm q j) = G0 p q) ->
    for_each (seq a len) (fun k Lc => cholUpdate_step signs X j k Lc) Lc h = (Ok Lc', h') ->
    (forall k, (a <= k < n)%nat -> entry Lc' k k <> 0) ->
    exists Xm',
      h' !! X = Some Xm' /\ length Xm' = n /\ Forall (fun r => length r = m) Xm' /\
      (forall t c', (t < n)%nat -> c' <> j -> entry Xm' t c' = entry Xm t c') /\
      (forall l0, l0 <> X -> h' !! l0 = h !! l0) /\
      length Lc' = n /\ Forall (fun r => length r = n) Lc' /\ upper_triangular Lc' /\
      (forall p q, (p < n)%nat -> (q < n)%nat -> gram Lc' p q = G0 p q).
Proof.
  intros Hsg Hj. induction len as [| len IH];
    intros a Lc h Xm Lc' h' Ha HlL HL Htri HX HlX HXrows Hinv Hrun Hdiag.
  - cbn in Hrun. unfold ret in Hrun. inversion Hrun; subst Lc' h'.
    exists Xm. repeat (split; [auto; fail |]).
    intros p q Hp Hq. rewrite <- (Hinv p q Hp Hq).
    rewrite !masked_lt by lia. ring.
  - cbn [seq for_each] in Hrun.
    apply bind_Ok_inv in Hrun as (Lc1 & h1 & Hstep & Hrest).
    destruct (cholUpdate_step_explicit signs X j a n Lc Lc1 h h1 Xm sg
                HlL HL HX HlX Hsg Hstep)
      as (r & l & xk & Hr & Hk & Hl & Hl0 & (rowk & Hrowk & Hxk) & Hexp).
    cbn zeta in Hexp.
    set (ra := l ^ 2 + sg * xk ^ 2) in *.
    set (rr := if Rlt_dec ra 0 then 0 else sqrt ra) in *.
    set (c := rr / l) in *. set (s := xk / l) in *.
    set (xs := map (fun row => nth j row 0) (drop (a + 1) Xm)) in *.
    set (q0 := map (fun v => v / c) (zip_with Rplus (drop (a + 1) r) (scale (sg * s) xs))) in *.
    destruct Hexp as (_ & HLc1 & Hh1).
    assert (Hlr : length r = n) by (eapply (proj1 (Forall_lookup _ _) HL); exact Hr).
    assert (Hlxs : length xs = (n - (a + 1))%nat)
      by (unfold xs; rewrite length_map, length_drop; lia).
    destruct (updated_row_entries r xs a n rr c (sg * s) Hlr Hlxs Hk)
      as (Hlrow & Hrow_lt & Hrow_k & Hrow_gt).
    fold q0 in Hlrow, Hrow_lt, Hrow_k, Hrow_gt.
    set (row' := take a r ++ rr :: q0) in *.
    assert (Hlq0 : length q0 = (n - (a + 1))%nat).
    { unfold q0. rewrite length_map, length_zip_with, length_drop. unfold scale.
      rewrite length_map. lia. }
    assert (Hlxs' : length (zip_with Rminus (scale c xs) (scale s q0)) = (n - (a + 1))%nat).
    { rewrite length_zip_with. unfold scale. rewrite !length_map. lia. }
    destruct (updated_X_entries Xm (zip_with Rminus (scale c xs) (scale s q0)) j a n m
                HlX HXrows Hj Hlxs' Hk) as (HlX1 & HX1rows & HX1keep & HX1new).
    set (Xm1 := take (a + 1) Xm ++
                zip_with (fun row v => <[j := v]> row) (drop (a + 1) Xm)
                  (zip_with Rminus (scale c xs) (scale s q0))) in *.
    assert (HX1 : h1 !! X = Some Xm1) by (rewrite Hh1; apply lookup_insert_eq).
    assert (Hxs_t : forall t, (a < t < n)%nat -> nth (t - (a + 1)) xs 0 = entry Xm t j).
    { intros t Ht. unfold xs. rewrite (nth_map_in _ _ _ _ []) by (rewrite length_drop; lia).
      rewrite nth_drop. replace (a + 1 + (t - (a + 1)))%nat with t by lia. reflexivity. }
    assert (HLaa : entry Lc a a = l).
    { rewrite (entry_lookup _ _ _ _ Hr). apply nth_lookup_Some. exact Hl. }
    assert (HXa : entry Xm a j = xk).
    { rewrite (entry_lookup _ _ _ _ Hrowk). apply nth_lookup_Some. exact Hxk. }
    assert (HL1a : Lc1 !! a = Some row')
      by (rewrite HLc1; apply list_lookup_insert_eq; lia).
    assert (Hrr : rr <> 0).
    { assert (Hfr : Lc' !! a = Lc1 !! a).
      { apply (cholUpdate_rows_frame _ _ _ _ a _ _ _ _ Hrest).
        rewrite elem_of_seq. lia. }
      specialize (Hdiag a ltac:(lia)).
      rewrite (entry_lookup _ _ _ row') in Hdiag by (rewrite Hfr; exact HL1a).
      rewrite Hrow_k in Hdiag. exact Hdiag. }
    destruct (clamped_root_square ra Hrr) as [Hra Hsq]. fold rr in Hsq.
    assert (Hc0 : c <> 0).
    { unfold c. intros E. apply Hrr.
      replace rr with (rr / l * l) by (field; exact Hl0). rewrite E. ring. }
    assert (Hcc : c * c = 1 + sg * s * s).
    { unfold c, s.
      replace (rr / l * (rr / l)) with ((rr * rr) / (l * l)) by (field; exact Hl0).
      rewrite Hsq. unfold ra. field. exact Hl0. }
    assert (Hidx : forall p, (p < n)%nat ->
      ((p < a)%nat /\ nth p r 0 = 0 /\ nth p row' 0 = 0) \/
      (p = a /\ nth p r 0 = l /\ nth p row' 0 = rr /\ entry Xm p j = xk) \/
      ((a < p)%nat /\ c * nth p row' 0 = nth p r 0 + sg * s * entry Xm p j /\
       entry Xm1 p j = c * entry Xm p j - s * nth p row' 0)).
    { intros p Hp. destruct (lt_eq_lt_dec p a) as [[Hlt | Heq] | Hgt].
      - left. split; [exact Hlt |].
        assert (E : nth p r 0 = 0).
        { rewrite <- (entry_lookup Lc a p r Hr). apply Htri. exact Hlt. }
        split; [exact E |]. rewrite Hrow_lt by exact Hlt. exact E.
      - right; left. subst p. split; [reflexivity |].
        split; [rewrite <- (entry_lookup Lc a a r Hr); exact HLaa |].
        split; [exact Hrow_k | exact HXa].
      - right; right. split; [exact Hgt |].
        rewrite (Hrow_gt p) by lia. rewrite (Hxs_t p) by lia.
        split; [field; exact Hc0 |].
        rewrite (HX1new p) by lia.
        rewrite (nth_zip_with_in _ _ _ _ _ 0 0)
          by (unfold scale; rewrite length_map; lia).
        unfold scale. rewrite !(nth_map_in _ _ _ _ 0) by lia.
        rewrite (Hxs_t p) by lia.
        unfold q0. rewrite (nth_map_in _ _ _ _ 0)
          by (rewrite length_zip_with, length_drop; unfold scale; rewrite length_map; lia).
        rewrite (nth_zip_with_in _ _ _ _ _ 0 0)
          by (rewrite ?length_drop; unfold scale; rewrite ?length_map; lia).
        rewrite nth_drop. replace (a + 1 + (p - (a + 1)))%nat with p by lia.
        unfold scale. rewrite (nth_map_in _ _ _ _ 0) by lia.
        rewrite (Hxs_t p) by lia. reflexivity. }
    destruct (IH (S a) Lc1 h1 Xm1 Lc' h') as
      (Xm' & HX' & HlX' & HX'rows & HX'keep & Hh' & HlL' & HL' & Htri' & Hgram').
    + lia.
    + rewrite HLc1, length_insert. exact HlL.
    + rewrite HLc1. apply Forall_insert; [exact HL | exact Hlrow].
    + intros i c0 Hc. unfold entry. rewrite HLc1.
      destruct (decide (i = a)) as [-> | Hne].
      * rewrite nth_insert_eq by lia. rewrite Hrow_lt by exact Hc.
        rewrite <- (entry_lookup Lc a c0 r Hr). apply Htri. exact Hc.
      * rewrite nth_insert_ne by exact Hne. apply Htri. exact Hc.
    + exact HX1.
    + exact HlX1.
    + exact HX1rows.
    + intros p q Hp Hq. rewrite <- (Hinv p q Hp Hq).
      rewrite HLc1, (gram_insert Lc a r row' p q Hr).
      destruct (Hidx p Hp) as [(Hpa & Up & Pp) | [(Hpa & Up & Pp & Mp) | (Hpa & Pp & M'p)]];
        destruct (Hidx q Hq) as [(Hqa & Uq & Pq) | [(Hqa & Uq & Pq & Mq) | (Hqa & Pq & M'q)]];
        rewrite ?(masked_lt (S a) p), ?(masked_lt (S a) q),
                ?(masked_lt a p), ?(masked_lt a q),
                ?(masked_ge a p), ?(masked_ge a q),
                ?(masked_ge (S a) p), ?(masked_ge (S a) q) by lia;
        rewrite ?Up, ?Uq, ?Pp, ?Pq, ?Mp, ?Mq, ?M'p, ?M'q; try ring.
      * unfold ra in Hsq. lra.
      * assert (E : rr * nth q row' 0 = l * nth q r 0 + sg * xk * entry Xm q j).
        { replace rr with (l * c) by (unfold c; field; exact Hl0).
          rewrite Rmult_assoc, Pq. unfold s. field. exact Hl0. }
        lra.
      * assert (E : rr * nth p row' 0 = l * nth p r 0 + sg * xk * entry Xm p j).
        { replace rr with (l * c) by (unfold c; field; exact Hl0).
          rewrite Rmult_assoc, Pp. unfold s. field. exact Hl0. }
        lra.
      * pose proof (rank_one_inner c s sg (nth p r 0) (nth q r 0) (entry Xm p j)
                      (entry Xm q j) (nth p row' 0) (nth q row' 0) Hcc Pp Pq) as E.
        lra.
    + exact Hrest.
    + intros k0 Hk0. apply Hdiag. lia.
    + exists Xm'. split; [exact HX' |]. split; [exact HlX' |]. split; [exact HX'rows |].
      split; [| split; [| auto]].
      * intros t c' Ht Hc'. rewrite HX'keep by assumption. apply HX1keep; auto.
      * intros l0 Hl0'. rewrite Hh' by exact Hl0'. rewrite Hh1.
        apply lookup_insert_ne. congruence.
Qed.

(** A step that returns has divided by the diagonal entry it found. *)
Lemma cholUpdate_step_pivot (signs : vec) (X : loc) (j k : nat) (Lc Lc' : matrix)
    (h h' : store) :
  cholUpdate_step signs X j k Lc h = (Ok Lc', h') -> entry Lc k k <> 0.
Proof.
  unfold cholUpdate_step. intros H.
  apply bind_Ok_inv in H as (Lkk & h1 & E1 & H). apply lift_Ok_inv in E1 as [E1 ->].
  apply bind_Ok_inv in H as (sg & h1 & E2 & H). apply lift_Ok_inv in E2 as [E2 ->].
  apply bind_Ok_inv in H as (Xm & h1 & E3 & H). apply load_Ok_inv in E3 as [E3 ->].
  apply bind_Ok_inv in H as (xk & h1 & E4 & H). apply lift_Ok_inv in E4 as [E4 ->].
  cbn zeta in H.
  apply bind_Ok_inv in H as (c & h1 & E5 & H). apply lift_Ok_inv in E5 as [E5 ->].
  apply np_div_inv in E5 as [Hl _].
  apply getitem2_lookup in E1 as (r & Hr & Hrk).
  rewrite (entry_lookup _ _ _ _ Hr), (nth_lookup_Some _ _ 0 _ Hrk). exact Hl.
Qed.

Lemma cholUpdate_pass_pivots (signs : vec) (X : loc) (j : nat) (len : nat) :
  forall (a : nat) (Lc Lc' : matrix) (h h' : store),
    for_each (seq a len) (fun k Lc => cholUpdate_step signs X j k Lc) Lc h = (Ok Lc', h') ->
    forall k, (a <= k < a + len)%nat -> entry Lc k k <> 0.
Proof.
  induction len as [| len IH]; intros a Lc Lc' h h' Hrun k Hk; [lia |].
  cbn [seq for_each] in Hrun.
  apply bind_Ok_inv in Hrun as (Lc1 & h1 & Hstep & Hrest).
  destruct (decide (k = a)) as [-> | Hne].
  - exact (cholUpdate_step_pivot _ _ _ _ _ _ _ _ Hstep).
  - pose proof (IH (S a) Lc1 Lc' h1 h' Hrest k ltac:(lia)) as Hk1.
    apply cholUpdate_step_diag in Hstep as [_ Hother].
    unfold entry in *. rewrite !nth_lookup in *. rewrite (Hother k Hne) in Hk1. exact Hk1.
Qed.

Lemma dot_app (u1 v1 u2 v2 : vec) :
  length u1 = length v1 -> dot (u1 ++ u2) (v1 ++ v2) = dot u1 v1 + dot u2 v2.
Proof.
  unfold dot. revert v1. induction u1 as [| a u1 IH]; intros [| b v1] H; cbn in *;
    try discriminate; [lra |].
  rewrite IH by lia. lra.
Qed.

Lemma dot_take_succ (u v : vec) (j : nat) :
  (j < length u)%nat -> (j < length v)%nat ->
  dot (take (S j) u) (take (S j) v) = dot (take j u) (take j v) + nth j u 0 * nth j v 0.
Proof.
  intros Hu Hv.
  destruct (lookup_lt_is_Some_2 u j Hu) as [a Ha].
  destruct (lookup_lt_is_Some_2 v j Hv) as [b Hb].
  rewrite (take_S_r _ _ _ Ha), (take_S_r _ _ _ Hb).
  rewrite dot_app by (rewrite !length_take; lia).
  rewrite (nth_lookup_Some _ _ 0 _ Ha), (nth_lookup_Some _ _ 0 _ Hb).
  unfold dot. cbn. lra.
Qed.

(** The passes over the columns of [X], from column [j0] on. *)
Lemma cholUpdate_columns_gram (signs : vec) (X : loc) (n m : nat) (sg : R)
    (X0 : matrix) (G : nat -> nat -> R) :
  getitem signs 0 = Ok sg ->
  length X0 = n -> Forall (fun r => length r = m) X0 ->
  forall (cnt j0 : nat) (Lc : matrix) (h : store) (Xm : matrix) (Lc' : matrix) (h' : store),
    (j0 + cnt = m)%nat ->
    length Lc = n -> Forall (fun r => length r = n) Lc -> upper_triangular Lc ->
    h !! X = Some Xm -> length Xm = n -> Forall (fun r => length r = m) Xm ->
    (forall t c', (t < n)%nat -> (j0 <= c')%nat -> entry Xm t c' = entry X0 t c') ->
    (forall p q, (p < n)%nat -> (q < n)%nat ->
       gram Lc p q = G p q + sg * dot (take j0 (nth p X0 [])) (take j0 (nth q X0 []))) ->
    for_each (seq j0 cnt) (fun j Lc =>
      for_each (range n) (fun k Lc => cholUpdate_step signs X j k Lc) Lc) Lc h
    = (Ok Lc', h') ->
    (forall k, (k < n)%nat -> entry Lc' k k <> 0) ->
    upper_triangular Lc' /\
    (forall p q, (p < n)%nat -> (q < n)%nat ->
       gram Lc' p q = G p q + sg * dot (take m (nth p X0 [])) (take m (nth q X0 []))).
Proof.
  intros Hsg HlX0 HX0rows. induction cnt as [| cnt IH];
    intros j0 Lc h Xm Lc' h' Hj HlL HL Htri HX HlX HXrows Hcols Hgram Hrun Hdiag.
  - cbn in Hrun. unfold ret in Hrun. inversion Hrun; subst Lc' h'.
    split; [exact Htri |]. replace m with j0 by lia. exact Hgram.
  - cbn [seq for_each] in Hrun.
    apply bind_Ok_inv in Hrun as (Lc1 & h1 & Hpass & Hrest).
    assert (Hdiag1 : forall k, (k < n)%nat -> entry Lc1 k k <> 0).
    { destruct cnt as [| cnt'].
      - cbn in Hrest. unfold ret in Hrest. inversion Hrest; subst Lc1. exact Hdiag.
      - cbn [seq for_each] in Hrest.
        apply bind_Ok_inv in Hrest as (Lc2 & h2 & Hnext & _).
        intros k Hk. unfold range in Hnext.
        apply (cholUpdate_pass_pivots _ _ _ _ _ _ _ _ _ Hnext). lia. }
    assert (Hrowlen : forall p, (p < n)%nat -> length (nth p X0 []) = m).
    { intros p Hp. destruct (lookup_lt_is_Some_2 X0 p ltac:(lia)) as [row Hrow].
      rewrite (nth_lookup_Some _ _ [] _ Hrow).
      exact (proj1 (Forall_lookup _ _) HX0rows _ _ Hrow). }
    unfold range in Hpass.
    destruct (cholUpdate_pass_gram signs X j0 n m sg
                (fun p q => G p q + sg * dot (take (S j0) (nth p X0 []))
                                             (take (S j0) (nth q X0 [])))
                Hsg ltac:(lia) n 0 Lc h Xm Lc1 h1 ltac:(lia) HlL HL Htri HX HlX HXrows)
      as (Xm1 & HX1 & HlX1 & HX1rows & HX1keep & _ & HlL1 & HL1 & Htri1 & Hgram1).
    + intros p q Hp Hq. rewrite !masked_ge by lia.
      rewrite (Hgram p q Hp Hq), !Hcols by lia.
      rewrite dot_take_succ by (rewrite Hrowlen; lia). unfold entry. ring.
    + exact Hpass.
    + intros k Hk. apply Hdiag1. lia.
    + apply (IH (S j0) Lc1 h1 Xm1 Lc' h'); try assumption; try lia.
      intros t c' Ht Hc'. rewrite HX1keep by lia. apply Hcols; lia.
Qed.

(** X29.  [cholUpdate] performs the rank-one updates of a square-root
    factor.  For an upper triangular [L] of [n] rows and columns, [X] of [n]
    rows and a non-empty [W]: when the call returns a factor [S] whose
    diagonal has no zero (no square root has been clamped), [S] is upper
    triangular and [S.T * S = L.T * L + sign(W[0]) * X * X.T]. *)
Theorem cholUpdate_rank_update (L X : loc) (w : R) (W : vec) (h h' : store)
    (Lm Xm S : matrix) (n : nat) :
  h !! L = Some Lm ->
  h !! X = Some Xm ->
  length Lm = n -> Forall (fun r => length r = n) Lm ->
  upper_triangular Lm ->
  length Xm = n -> Forall (fun r => length r = ncols Xm) Xm ->
  cholUpdate L X (w :: W) h = (Ok S, h') ->
  (forall k, (k < n)%nat -> entry S k k <> 0) ->
  upper_triangular S /\
  (forall p q, (p < n)%nat -> (q < n)%nat ->
     gram S p q = gram Lm p q + np_sign w * dot (nth p Xm []) (nth q Xm [])).
Proof.
  intros HL HX HlL HLrows Htri HlX HXrows Hrun Hdiag. unfold cholUpdate in Hrun.
  apply bind_Ok_inv in Hrun as (Lc & h1 & E1 & Hrun). apply load_Ok_inv in E1 as [E1 ->].
  apply bind_Ok_inv in Hrun as (Xm' & h1 & E2 & Hrun). apply load_Ok_inv in E2 as [E2 ->].
  rewrite HL in E1. rewrite HX in E2. inversion E1; inversion E2; subst Lc Xm'.
  cbn zeta in Hrun. rewrite HlX in Hrun. unfold range at 1 in Hrun.
  destruct (cholUpdate_columns_gram (map np_sign (w :: W)) X n (ncols Xm) (np_sign w)
              Xm (gram Lm) eq_refl HlX HXrows (ncols Xm) 0 Lm h Xm S h')
    as [HtriS Hgram]; try assumption; try lia; try reflexivity.
  - intros p q Hp Hq. rewrite !take_0. unfold dot. cbn [zip_with foldr]. ring.
  - split; [exact HtriS |].
    intros p q Hp Hq. rewrite (Hgram p q Hp Hq).
    assert (Hrowlen : forall t, (t < n)%nat -> length (nth t Xm []) = ncols Xm).
    { intros t Ht. destruct (lookup_lt_is_Some_2 Xm t ltac:(lia)) as [row Hrow].
      rewrite (nth_lookup_Some _ _ [] _ Hrow).
      exact (proj1 (Forall_lookup _ _) HXrows _ _ Hrow). }
    rewrite !take_ge by (rewrite Hrowlen; lia). reflexivity.
Qed.

Lemma cholUpdate_rank_update_witness :
  example_store !! 0%nat = Some [[3; 1]; [0; 1]] /\
  example_store !! 1%nat = Some [[4]; [1]] /\
  upper_triangular [[3; 1]; [0; 1]] /\
  cholUpdate 0%nat 1%nat [1] example_store
  = (Ok [[5; 7 / 5]; [0; sqrt (26 / 25)]], <[1%nat := [[4]; [-1 / 5]]]> example_store) /\
  gram [[5; 7 / 5]; [0; sqrt (26 / 25)]] 0 1
  = gram [[3; 1]; [0; 1]] 0 1 + np_sign 1 * dot (nth 0 [[4]; [1]] []) (nth 1 [[4]; [1]] []).
Proof.
  assert (H0 : example_store !! 0%nat = Some [[3; 1]; [0; 1]]) by reflexivity.
  assert (H1 : example_store !! 1%nat = Some [[4]; [1]]) by reflexivity.
  assert (Ht : upper_triangular [[3; 1]; [0; 1]]).
  { intros i c0 Hc. unfold entry. destruct i as [| [| i]]; [lia | |].
    - destruct c0; [reflexivity | lia].
    - cbn. destruct i; destruct c0; reflexivity. }
  split; [exact H0 |]. split; [exact H1 |]. split; [exact Ht |].
  split; [exact cholUpdate_example |].
  apply (cholUpdate_rank_update 0%nat 1%nat 1 [] example_store _ _ _ _ 2 H0 H1 eq_refl
           ltac:(repeat constructor) Ht eq_refl ltac:(repeat constructor)
           cholUpdate_example); try lia.
  intros [| [| k]] Hk; try lia; unfold entry; cbn.
  - lra.
  - assert (0 < sqrt (26 / 25)) by (apply sqrt_lt_R0; lra). lra.
Defined.
